(** * AskMyDoc retrieval pipeline: chunking, batched embedding, vector index

    A shallow embedding of [src/services/vectorDb.ts],
    [src/services/geminiService.ts] and the ingestion and query handlers of
    [src/App.tsx], with the properties of the retrieval pipeline proved about
    it.

    - JavaScript numbers that carry similarities are IEEE 754 binary64 values:
      they are Rocq's primitive floats, whose [+], [-], [*], [/], [sqrt] and
      comparisons are the operations the JavaScript engine performs.
    - Counters, offsets and identifiers are integers ([Z]). A percentage is
      [Math.round] of a ratio of two counters times a constant: the ratio and
      the product are the binary64 operations on the counters' values, and
      the rounded result is an integer again.
    - Document text is a sequence of UTF-16 code units ([list N]); diagnostic
      messages are ASCII literals ([string]).
    - The vector index is a class with one private field; its methods are
      state-passing functions over that field. *)

From Stdlib Require Import String Ascii.
From Stdlib Require Import List ZArith NArith Floats Bool Lia Reals Lra.
From Stdlib Require Import Sorting.Sorted Sorting.Permutation.
Import ListNotations.

(** ** JavaScript strings and arrays *)

Module JS.

(** A string value: its UTF-16 code units. *)
Definition jsstring := list N.

(** [WhiteSpace] and [LineTerminator] code points of ECMAScript, the ones
    [String.prototype.trim] strips. *)
Definition is_whitespace (c : N) : bool :=
  ((9 <=? c) && (c <=? 13) || (c =? 32) || (c =? 160) || (c =? 5760)
   || (8192 <=? c) && (c <=? 8202) || (c =? 8232) || (c =? 8233)
   || (c =? 8239) || (c =? 8287) || (c =? 12288) || (c =? 65279))%N.

Fixpoint trimStart (s : jsstring) : jsstring :=
  match s with
  | c :: s' => if is_whitespace c then trimStart s' else s
  | [] => []
  end.

(** [s.trim()] *)
Definition trim (s : jsstring) : jsstring :=
  rev (trimStart (rev (trimStart s))).

(** [s.length], [a.length] *)
Definition len {A} (l : list A) : Z := Z.of_nat (length l).

(** Clamp of a relative index into [0, len], as [Array.prototype.slice]
    does: a negative index counts from the end. *)
Definition relative (n i : Z) : Z :=
  if (i <? 0)%Z then Z.max (n + i) 0 else Z.min i n.

(** [a.slice(start, end)] *)
Definition slice {A} (l : list A) (start end_ : Z) : list A :=
  let k := relative (len l) start in
  let final := relative (len l) end_ in
  firstn (Z.to_nat (final - k)) (skipn (Z.to_nat k) l).

(** [s.substring(start, end)]: both indices are clamped into [0, len] and
    swapped when out of order. *)
Definition substring (s : jsstring) (start end_ : Z) : jsstring :=
  let a := Z.min (Z.max start 0) (len s) in
  let b := Z.min (Z.max end_ 0) (len s) in
  let from := Z.min a b in
  let to := Z.max a b in
  firstn (Z.to_nat (to - from)) (skipn (Z.to_nat from) s).

(** [a.join(sep)] on an array of strings. *)
Fixpoint join (sep : jsstring) (l : list jsstring) : jsstring :=
  match l with
  | [] => []
  | [s] => s
  | s :: l' => s ++ sep ++ join sep l'
  end.

(** [a.map((x, index) => f(x, index))], the index starting at [i]. *)
Fixpoint mapi_from {A B} (f : A -> Z -> B) (i : Z) (l : list A) : list B :=
  match l with
  | [] => []
  | x :: l' => f x i :: mapi_from f (i + 1) l'
  end.

Definition mapi {A B} (f : A -> Z -> B) (l : list A) : list B :=
  mapi_from f 0 l.

(** A counter as a number: the binary64 value nearest to a non-negative
    integer below [2^63], which is the integer itself below [2^53]. *)
Definition Number (z : Z) : float := of_uint63 (Uint63.of_Z z).

(** [Math.round(x)]: the integer nearest to [x], a tie going up. The result
    is kept as an integer; zero stands for the results that are not finite,
    which no ratio of two positive counters gives. *)
Definition Math_round (x : float) : Z :=
  match Prim2SF x with
  | S754_finite s m e =>
      let z := if s then Zneg m else Zpos m in
      if (0 <=? e)%Z then (z * 2 ^ e)%Z
      else ((2 * z + 2 ^ (- e)) / 2 ^ (1 - e))%Z
  | _ => 0%Z
  end.

(** [Array.prototype.sort(comparefn)] is a stable sort. It is modelled by
    the stable insertion sort: [positive x y] says that [comparefn(x, y)]
    is greater than zero, which moves [x] behind [y]; on any other result
    (negative, zero or NaN) [x], the earlier element, stays in front. *)
Section Sort.
Variable A : Type.
Variable positive : A -> A -> bool.

Fixpoint insert (x : A) (l : list A) : list A :=
  match l with
  | [] => [x]
  | y :: l' => if positive x y then y :: insert x l' else x :: l
  end.

Fixpoint sort (l : list A) : list A :=
  match l with
  | [] => []
  | x :: l' => insert x (sort l')
  end.
End Sort.

Arguments insert {A} positive x l.
Arguments sort {A} positive l.

End JS.

Import JS.

(** ** src/types.ts *)

Record DocumentChunk := {
  id : Z;
  text : jsstring;
  embedding : list float
}.

Inductive AppState := INITIAL | PROCESSING | READY | ERROR.

(** ** src/services/vectorDb.ts *)

Module VectorDb.

(** The class [InMemoryVectorDB]: its private field. *)
Record InMemoryVectorDB := { chunks : list DocumentChunk }.

(** A method: it reads and may replace the object's state. *)
Definition Method (A : Type) := InMemoryVectorDB -> A * InMemoryVectorDB.

Definition ret {A} (a : A) : Method A := fun this => (a, this).
Definition bind {A B} (m : Method A) (f : A -> Method B) : Method B :=
  fun this => let (a, this') := m this in f a this'.
Definition get_chunks : Method (list DocumentChunk) :=
  fun this => (chunks this, this).
Definition set_chunks (l : list DocumentChunk) : Method unit :=
  fun _ => (tt, {| chunks := l |}).

Declare Scope method_scope.
Delimit Scope method_scope with method.
Notation "x <- m ;; k" := (bind m (fun x => k))
  (at level 61, m at next level, right associativity) : method_scope.
Notation "m ;;; k" := (bind m (fun _ => k))
  (at level 61, right associativity) : method_scope.

(** The three sums of the loop of [cosineSimilarity], over the indices the
    two vectors share. *)
Fixpoint cosine_sums (vecA vecB : list float) (dotProduct magA magB : float)
  : float * float * float :=
  match vecA, vecB with
  | a :: vecA', b :: vecB' =>
      cosine_sums vecA' vecB'
        (dotProduct + a * b)%float (magA + a * a)%float (magB + b * b)%float
  | _, _ => (dotProduct, magA, magB)
  end.

Definition cosineSimilarity (vecA vecB : list float) : float :=
  if negb (length vecA =? length vecB)%nat then (-1)%float
  else
    let '(dotProduct, magA, magB) := cosine_sums vecA vecB 0%float 0%float 0%float in
    let magA := PrimFloat.sqrt magA in
    let magB := PrimFloat.sqrt magB in
    if (magA =? 0)%float || (magB =? 0)%float then 0%float
    else (dotProduct / (magA * magB))%float.

(** An entry of the array [similarities]. *)
Record Scored := { chunk : DocumentChunk; similarity : float }.

(** The comparator [(a, b) => b.similarity - a.similarity]. *)
Definition comparefn (a b : Scored) : float :=
  (similarity b - similarity a)%float.

Definition comparefn_positive (a b : Scored) : bool :=
  (0 <? comparefn a b)%float.

Definition add (newChunks : list DocumentChunk) : Method unit :=
  (cs <- get_chunks ;; set_chunks (cs ++ newChunks))%method.

Definition search (queryEmbedding : list float) (topK : Z)
  : Method (list DocumentChunk) :=
  (cs <- get_chunks ;;
   if (len cs =? 0)%Z then ret []
   else
     let similarities :=
       map (fun c => {| chunk := c;
                        similarity := cosineSimilarity queryEmbedding (embedding c) |})
           cs in
     let similarities := sort comparefn_positive similarities in
     ret (map chunk (slice similarities 0 topK)))%method.

Definition reset : Method unit := set_chunks [].

Definition isReady : Method bool :=
  (cs <- get_chunks ;; ret (0 <? len cs)%Z)%method.

End VectorDb.

Import VectorDb.

(** ** src/constants.ts and the constants of src/App.tsx *)

Definition CHUNK_SIZE : Z := 1000.
Definition CHUNK_OVERLAP : Z := 200.
Definition API_BATCH_SIZE : Z := 50.
Definition BATCH_DELAY_MS : Z := 1000.

(** ** The embedding service boundary *)

Module Gemini.

Inductive TaskType := RETRIEVAL_DOCUMENT | RETRIEVAL_QUERY.

(** The [contents] of a request: one string or an array of strings. *)
Inductive Contents :=
| Text (t : jsstring)
| Texts (ts : list jsstring).

(** A call of [ai.models.embedContent]. *)
Record Request := { contents : Contents; taskType : TaskType }.

(** What the call resolves to: the [values] of [response.embeddings], or a
    rejection with the message of its error. *)
Inductive Response :=
| Embeddings (values : list (list float))
| Rejected (message : string).

(** The remote service: its answer may depend on the number of requests
    made before this one. *)
Definition Service := nat -> Request -> Response.

(** [s.includes(needle)] *)
Fixpoint includes (needle s : string) : bool :=
  prefix needle s
  || match s with
     | EmptyString => false
     | String _ s' => includes needle s'
     end.

Definition quota_message : string :=
  "API quota exceeded. The document is too large or requests are too frequent. Please wait and try again.".

(** [handleError(error, context)] always throws; this is the message of the
    error it throws. *)
Definition handleError (message context : string) : string :=
  if includes "RESOURCE_EXHAUSTED" message then quota_message
  else ("Failed to " ++ context ++ ". Please check the console for details.")%string.

End Gemini.

Import Gemini.

(** ** The handlers of src/App.tsx and what they act on *)

Inductive ProgressMessage :=
| ReadingPDF
| ReadingPage (i numPages : Z)
| EmbeddingChunk (processedCount total : Z)
| ProcessingComplete.

Record Progress := { percentage : Z; message : ProgressMessage }.

(** Everything a handler reads or writes: the module-level [vectorDB], the
    requests sent to the embedding service, the values passed to
    [setProgress], [setAppState] and [setError], and the delays awaited. *)
Record World := {
  vectorDB : InMemoryVectorDB;
  requests : list Request;
  progress : list Progress;
  appState : AppState;
  error : option string;
  delays : list Z
}.

(** How an asynchronous computation ends: with a value, with a thrown error
    (its message), or not within the number of loop iterations allowed. *)
Inductive Outcome (A : Type) :=
| Returned (a : A)
| Thrown (message : string)
| Pending.
Arguments Returned {A} a.
Arguments Thrown {A} message.
Arguments Pending {A}.

Module App.

Definition IO (A : Type) := World -> Outcome A * World.

Definition ret {A} (a : A) : IO A := fun w => (Returned a, w).
Definition throw {A} (message : string) : IO A := fun w => (Thrown message, w).
Definition pending {A} : IO A := fun w => (Pending, w).
Definition bind {A B} (m : IO A) (f : A -> IO B) : IO B :=
  fun w =>
    match m w with
    | (Returned a, w') => f a w'
    | (Thrown e, w') => (Thrown e, w')
    | (Pending, w') => (Pending, w')
    end.

(** [try { body } catch (err) { handler(err.message) }] *)
Definition try_catch {A} (body : IO A) (handler : string -> IO A) : IO A :=
  fun w =>
    match body w with
    | (Thrown e, w') => handler e w'
    | r => r
    end.

Declare Scope io_scope.
Delimit Scope io_scope with io.
Notation "x <- m ;; k" := (bind m (fun x => k))
  (at level 61, m at next level, right associativity) : io_scope.
Notation "m ;;; k" := (bind m (fun _ => k))
  (at level 61, right associativity) : io_scope.

(** The world after each kind of effect. *)
Definition withVectorDB (db : InMemoryVectorDB) (w : World) : World :=
  {| vectorDB := db; requests := requests w; progress := progress w;
     appState := appState w; error := error w; delays := delays w |}.

Definition sent (r : Request) (w : World) : World :=
  {| vectorDB := vectorDB w; requests := requests w ++ [r];
     progress := progress w; appState := appState w; error := error w;
     delays := delays w |}.

Definition reported (p : Progress) (w : World) : World :=
  {| vectorDB := vectorDB w; requests := requests w;
     progress := progress w ++ [p]; appState := appState w;
     error := error w; delays := delays w |}.

Definition inState (s : AppState) (w : World) : World :=
  {| vectorDB := vectorDB w; requests := requests w; progress := progress w;
     appState := s; error := error w; delays := delays w |}.

Definition withError (e : option string) (w : World) : World :=
  {| vectorDB := vectorDB w; requests := requests w; progress := progress w;
     appState := appState w; error := e; delays := delays w |}.

Definition delayed (ms : Z) (w : World) : World :=
  {| vectorDB := vectorDB w; requests := requests w; progress := progress w;
     appState := appState w; error := error w; delays := delays w ++ [ms] |}.

(** A call of a method of the module-level [vectorDB]. *)
Definition onVectorDB {A} (m : Method A) : IO A :=
  fun w => let (a, db) := m (vectorDB w) in (Returned a, withVectorDB db w).

(** [await ai.models.embedContent(request)] *)
Definition embedContent (api : Service) (r : Request) : IO Response :=
  fun w => (Returned (api (length (requests w)) r), sent r w).

Definition setProgress (p : Progress) : IO unit :=
  fun w => (Returned tt, reported p w).

Definition setAppState (s : AppState) : IO unit :=
  fun w => (Returned tt, inState s w).

Definition setError (e : option string) : IO unit :=
  fun w => (Returned tt, withError e w).

(** [await new Promise(resolve => setTimeout(resolve, ms))] *)
Definition sleep (ms : Z) : IO unit :=
  fun w => (Returned tt, delayed ms w).

(** *** src/services/geminiService.ts *)

Definition generateEmbedding (api : Service) (text : jsstring) (taskType : TaskType)
  : IO (list float) :=
  (response <- embedContent api {| contents := Text text; taskType := taskType |} ;;
   match response with
   | Embeddings (embedding :: _) => ret embedding
   | Embeddings [] =>
       throw (handleError "Invalid embedding format received from API."
                          "generate single embedding")
   | Rejected message => throw (handleError message "generate single embedding")
   end)%io.

Definition generateEmbeddings (api : Service) (texts : list jsstring) (taskType : TaskType)
  : IO (list (list float)) :=
  (response <- embedContent api {| contents := Texts texts; taskType := taskType |} ;;
   match response with
   | Embeddings embeddings =>
       if (len embeddings =? len texts)%Z then ret embeddings
       else throw (handleError "Mismatch between number of texts and embeddings received."
                               "generate batch embeddings")
   | Rejected message => throw (handleError message "generate batch embeddings")
   end)%io.

(** *** handleFileChange *)

(** The text items of one page, as [page.getTextContent()] gives them. *)
Definition Page := list jsstring.

(** The page loop: it appends each page's items, joined by a space and
    followed by a line feed, and reports the reading progress. *)
Fixpoint readPages (numPages : Z) (pages : list Page) (i : Z) (fullText : jsstring)
  : IO jsstring :=
  match pages with
  | [] => ret fullText
  | page :: pages' =>
      let fullText := fullText ++ join [32%N] page ++ [10%N] in
      (setProgress
         {| percentage := Math_round ((Number i / Number numPages) * 15)%float;
            message := ReadingPage i numPages |} ;;;
       readPages numPages pages' (i + 1) fullText)%io
  end.

(** The chunking loop
    [for (let i = 0; i < fullText.length; i += size - overlap)]. The array
    is a list, without the limit on the length of a JavaScript array; with
    [size > overlap] the loop ends after at most one window per code unit. *)
Fixpoint rawChunksLoop (fuel : nat) (size overlap : Z) (fullText : jsstring)
    (i : Z) (rawChunks : list jsstring) : option (list jsstring) :=
  if (i <? len fullText)%Z then
    match fuel with
    | O => None
    | S fuel' =>
        rawChunksLoop fuel' size overlap fullText (i + (size - overlap))
          (rawChunks ++ [substring fullText i (i + size)])
    end
  else Some rawChunks.

(** [c => c.trim().length > 0] *)
Definition nonEmpty (c : jsstring) : bool := (0 <? len (trim c))%Z.

(** The chunker: the raw windows, then the filter on blank ones. *)
Definition chunkText (fuel : nat) (size overlap : Z) (fullText : jsstring)
  : option (list jsstring) :=
  match rawChunksLoop fuel size overlap fullText 0 [] with
  | Some rawChunks => Some (filter nonEmpty rawChunks)
  | None => None
  end.

(** The embedding loop
    [for (let i = 0; i < chunks.length; i += batchSize)]. *)
Fixpoint embedLoop (fuel : nat) (batchSize delay : Z) (api : Service)
    (chunks : list jsstring) (i processedCount : Z) : IO unit :=
  if (i <? len chunks)%Z then
    match fuel with
    | O => pending
    | S fuel' =>
        let batchChunksText := slice chunks i (i + batchSize) in
        (batchEmbeddings <- generateEmbeddings api batchChunksText RETRIEVAL_DOCUMENT ;;
         let embeddedChunks :=
           mapi (fun text index =>
                   {| id := i + index; text := text;
                      embedding := nth (Z.to_nat index) batchEmbeddings [] |})
                batchChunksText in
         onVectorDB (add embeddedChunks) ;;;
         let processedCount := (processedCount + len batchChunksText)%Z in
         setProgress
           {| percentage :=
                15 + Math_round ((Number processedCount / Number (len chunks)) * 85)%float;
              message := EmbeddingChunk processedCount (len chunks) |} ;;;
         (if (i + batchSize <? len chunks)%Z then sleep delay else ret tt) ;;;
         embedLoop fuel' batchSize delay api chunks (i + batchSize) processedCount)%io
    end
  else ret tt.

(** The body of [handleFileChange] once a PDF file has been accepted and
    parsed into [pages], with the four constants as parameters. *)
Definition handleFileChangeWith (size overlap batchSize delay : Z) (fuel : nat)
    (api : Service) (pages : list Page) : IO unit :=
  (setError None ;;;
   setAppState PROCESSING ;;;
   onVectorDB reset ;;;
   try_catch
     (setProgress {| percentage := 0; message := ReadingPDF |} ;;;
      fullText <- readPages (len pages) pages 1 [] ;;
      chunks <- match chunkText fuel size overlap fullText with
                | Some chunks => ret chunks
                | None => pending
                end ;;
      embedLoop fuel batchSize delay api chunks 0 0 ;;;
      setProgress {| percentage := 100; message := ProcessingComplete |} ;;;
      setAppState READY)
     (fun message =>
        setError (Some ("An error occurred: " ++ message)%string) ;;;
        setAppState ERROR))%io.

(** The text the page loop builds. *)
Fixpoint extractText (pages : list Page) : jsstring :=
  match pages with
  | [] => []
  | page :: pages' => join [32%N] page ++ [10%N] ++ extractText pages'
  end.


(** *** handleSendMessage: from the question to the context *)

Definition separator : jsstring := [10; 45; 45; 45; 10]%N.

(** The retrieval step of [handleSendMessage], whose result is the context
    handed to [generateAnswerStream]. *)
Definition retrieveContext (api : Service) (input : jsstring) : IO jsstring :=
  (queryEmbedding <- generateEmbedding api input RETRIEVAL_QUERY ;;
   contextChunks <- onVectorDB (search queryEmbedding 5) ;;
   ret (join separator (map text contextChunks)))%io.

End App.

Import App.


(** ** The chat: src/types.ts, generateAnswerStream and handleSendMessage *)

Inductive Role := user | assistant.

Record ChatMessage := { role : Role; content : jsstring }.

(** The code units of an ASCII literal. *)
Definition utf16 (s : string) : jsstring := map N_of_ascii (list_ascii_of_string s).

Module ChatView.

(** A thrown value, as [error instanceof Error] sees it: an [Error] with its
    message, or something else. *)
Inductive Caught :=
| AnError (message : string)
| NotAnError.

(** What [ai.models.generateContentStream] resolves to: a stream that yields
    chunks, each with a [text] that may be undefined, and then ends or
    throws; or a rejection. *)
Inductive Generation :=
| Stream (chunks : list (option jsstring)) (failure : option Caught)
| Refused.

(** The generative model: its answer may depend on the number of prompts it
    was sent before. *)
Definition Generator := nat -> jsstring -> Generation.

(** What the handler of the chat view reads or writes: the world of the
    upload handlers, the prompts sent to the generative model, and the
    component's [messages], [input] and [isLoading]. *)
Record State := {
  world : World;
  prompts : list jsstring;
  messages : list ChatMessage;
  input : jsstring;
  isLoading : bool
}.

(** How a step of the handler ends: with a value, with a thrown value, or,
    for a step of the upload handlers, not within its iterations. *)
Inductive Result (A : Type) :=
| Done (a : A)
| Raised (e : Caught)
| Stalled.
Arguments Done {A} a.
Arguments Raised {A} e.
Arguments Stalled {A}.

Definition Handler (A : Type) := State -> Result A * State.

Definition ret {A} (a : A) : Handler A := fun s => (Done a, s).
Definition raise {A} (e : Caught) : Handler A := fun s => (Raised e, s).
Definition bind {A B} (m : Handler A) (f : A -> Handler B) : Handler B :=
  fun s =>
    match m s with
    | (Done a, s') => f a s'
    | (Raised e, s') => (Raised e, s')
    | (Stalled, s') => (Stalled, s')
    end.

(** [try { body } catch (error) { handler(error) }] *)
Definition try_catch {A} (body : Handler A) (handler : Caught -> Handler A) : Handler A :=
  fun s =>
    match body s with
    | (Raised e, s') => handler e s'
    | r => r
    end.

(** [try { body } finally { final }], for a [final] that ends normally. *)
Definition try_finally {A} (body : Handler A) (final : Handler unit) : Handler A :=
  fun s =>
    match body s with
    | (Stalled, s') => (Stalled, s')
    | (r, s') => (r, snd (final s'))
    end.

Declare Scope chat_scope.
Delimit Scope chat_scope with chat.
Notation "x <- m ;; k" := (bind m (fun x => k))
  (at level 61, m at next level, right associativity) : chat_scope.
Notation "m ;;; k" := (bind m (fun _ => k))
  (at level 61, right associativity) : chat_scope.

Definition withWorld (w : World) (s : State) : State :=
  {| world := w; prompts := prompts s; messages := messages s;
     input := input s; isLoading := isLoading s |}.

Definition prompted (prompt : jsstring) (s : State) : State :=
  {| world := world s; prompts := prompts s ++ [prompt]; messages := messages s;
     input := input s; isLoading := isLoading s |}.

(** A step of the upload handlers' kind, whose errors are [Error]s. *)
Definition lift {A} (m : IO A) : Handler A :=
  fun s =>
    match m (world s) with
    | (Returned a, w) => (Done a, withWorld w s)
    | (Thrown message, w) => (Raised (AnError message), withWorld w s)
    | (Pending, w) => (Stalled, withWorld w s)
    end.

(** [setMessages(prev => f(prev))] *)
Definition setMessages (f : list ChatMessage -> list ChatMessage) : Handler unit :=
  fun s =>
    (Done tt,
     {| world := world s; prompts := prompts s; messages := f (messages s);
        input := input s; isLoading := isLoading s |}).

Definition setInput (value : jsstring) : Handler unit :=
  fun s =>
    (Done tt,
     {| world := world s; prompts := prompts s; messages := messages s;
        input := value; isLoading := isLoading s |}).

Definition setIsLoading (value : bool) : Handler unit :=
  fun s =>
    (Done tt,
     {| world := world s; prompts := prompts s; messages := messages s;
        input := input s; isLoading := value |}).

(** *** src/services/geminiService.ts: generateAnswerStream *)

(** The prompt, a template literal around the context and the question. *)
Definition promptFor (context question : jsstring) : jsstring :=
  utf16 "Based on the following context, please provide a comprehensive answer"
  ++ utf16 " to the user's question. If the context does not contain the answer,"
  ++ utf16 " state that you cannot find the answer in the provided document."
  ++ [10; 10]%N ++ utf16 "Context:" ++ [10]%N ++ utf16 "---" ++ [10]%N
  ++ context ++ [10]%N ++ utf16 "---" ++ [10; 10]%N
  ++ utf16 "Question: " ++ question ++ [10]%N.

Definition answer_failure : string := "Could not get an answer from the AI model.".

Definition generateAnswerStream (gen : Generator) (context question : jsstring)
  : Handler (list (option jsstring) * option Caught) :=
  fun s =>
    let prompt := promptFor context question in
    match gen (length (prompts s)) prompt with
    | Stream chunks failure => (Done (chunks, failure), prompted prompt s)
    | Refused => (Raised (AnError answer_failure), prompted prompt s)
    end.

(** *** handleSendMessage *)

(** [content + chunkText], where an undefined [chunkText] reads
    [undefined]. *)
Definition plus (content : jsstring) (chunkText : option jsstring) : jsstring :=
  content ++ match chunkText with
             | Some t => t
             | None => utf16 "undefined"
             end.

(** [a[i]] *)
Definition at_index {A} (a : list A) (i : Z) : option A :=
  if (i <? 0)%Z then None else nth_error a (Z.to_nat i).

(** The updater of the stream loop: the text of the chunk goes to the end
    of the last message. *)
Definition appendToLast (chunkText : option jsstring) (prev : list ChatMessage)
  : list ChatMessage :=
  mapi (fun msg index =>
          if (index =? len prev - 1)%Z
          then {| role := role msg; content := plus (content msg) chunkText |}
          else msg)
       prev.

(** [for await (const chunk of stream)] *)
Fixpoint streamLoop (chunks : list (option jsstring)) (failure : option Caught)
  : Handler unit :=
  match chunks with
  | chunk :: chunks' =>
      (setMessages (appendToLast chunk) ;;; streamLoop chunks' failure)%chat
  | [] =>
      match failure with
      | Some e => raise e
      | None => ret tt
      end
  end.

Definition apology : string := "Sorry, I encountered an error. Please try again.".

(** The updater of the [catch] block: the error message replaces an empty
    placeholder of the assistant, and is added after anything else. *)
Definition showError (e : Caught) (prev : list ChatMessage) : list ChatMessage :=
  let errorMessageContent :=
    match e with
    | AnError message => utf16 message
    | NotAnError => utf16 apology
    end in
  let errorMessage := {| role := assistant; content := errorMessageContent |} in
  match at_index prev (len prev - 1) with
  | Some {| role := assistant; content := [] |} =>
      firstn (Z.to_nat (len prev - 1)) prev ++ [errorMessage]
  | _ => prev ++ [errorMessage]
  end.

Definition handleSendMessage (api : Service) (gen : Generator) : Handler unit :=
  fun s =>
    if (len (trim (input s)) =? 0)%Z || isLoading s then (Done tt, s)
    else
        let question := input s in
        (setMessages (fun prev => prev ++ [{| role := user; content := question |}]) ;;;
         setInput [] ;;;
         setIsLoading true ;;;
         try_finally
           (try_catch
              (context <- lift (retrieveContext api question) ;;
               stream <- generateAnswerStream gen context question ;;
               setMessages (fun prev => prev ++ [{| role := assistant; content := [] |}]) ;;;
               streamLoop (fst stream) (snd stream))
              (fun e => setMessages (showError e)))
           (setIsLoading false))%chat s.

End ChatView.

(** ** Vocabulary of the properties *)

(** The magnitude that [cosineSimilarity] computes for one of its vectors. *)
Definition magnitude (v : list float) : float :=
  PrimFloat.sqrt (fold_left (fun acc x => (acc + x * x)%float) v 0%float).

(** The similarity [search] gives a stored chunk. *)
Definition score (q : list float) (c : DocumentChunk) : float :=
  cosineSimilarity q (embedding c).

(** The stored chunks, each with its insertion position. *)
Definition positions (cs : list DocumentChunk) : list (nat * DocumentChunk) :=
  combine (seq 0 (length cs)) cs.

(** [x] ranks before [y]: its similarity is greater, or the two are equal and
    [x] was stored first. *)
Definition ranks_before (q : list float) (x y : nat * DocumentChunk) : Prop :=
  (score q (snd y) <? score q (snd x))%float = true
  \/ ((score q (snd x) =? score q (snd y))%float = true /\ (fst x < fst y)%nat).

(** [L] is the stored chunks in ranked order. *)
Definition ranking (q : list float) (cs : list DocumentChunk)
    (L : list (nat * DocumentChunk)) : Prop :=
  Permutation L (positions cs) /\ StronglySorted (ranks_before q) L.

(** A binary64 value above zero; one that is negative, a negative zero or
    NaN. *)
Definition positive_float (x : spec_float) : bool :=
  match x with
  | S754_finite false _ _ | S754_infinity false => true
  | _ => false
  end.

Definition negative_or_nan (x : spec_float) : bool :=
  match x with
  | S754_finite true _ _ | S754_infinity true | S754_zero true | S754_nan => true
  | _ => false
  end.

(** The order of two finite binary64 values of the same sign, by exponent
    and then by mantissa. *)
Definition cmpmag (m1 : positive) (e1 : Z) (m2 : positive) (e2 : Z) : comparison :=
  match (e1 ?= e2)%Z with
  | Lt => Lt
  | Gt => Gt
  | Eq => Pos.compare_cont Eq m1 m2
  end.

(** No stored chunk has NaN for its similarity to the query. ECMAScript
    leaves the order [sort] produces to the implementation unless the
    comparator is consistent, which NaN differences break. *)
Definition all_numbers (q : list float) (cs : list DocumentChunk) : bool :=
  forallb (fun c => negb (is_nan (score q c))) cs.

(** The comparator of [search] on two stored chunks with their positions:
    whether its result is greater than zero. *)
Definition positive_at (q : list float) (x y : nat * DocumentChunk) : bool :=
  (0 <? score q (snd y) - score q (snd x))%float.

Definition stored_in (cs : list DocumentChunk) (x : nat * DocumentChunk) : Prop :=
  In (snd x) cs.

(** What the stable sort establishes between an element [x] and a later
    element [y] of its result: the comparator moves [y] behind [x], or it
    does not separate them and [x] came first in the input. *)
Definition sorted_before {A} (positive : A -> A -> bool) (pos : A -> nat)
    (x y : A) : Prop :=
  positive y x = true \/ (positive x y = false /\ (pos x < pos y)%nat).

(** Re-joining chunks cut with a known overlap: the first chunk whole, each
    later chunk without its first [overlap] code units. *)
Definition rejoin (overlap : Z) (pieces : list jsstring) : jsstring :=
  match pieces with
  | [] => []
  | first :: later => first ++ concat (map (skipn (Z.to_nat overlap)) later)
  end.

(** The batch the embedding loop cuts at offset [i], and its request. *)
Definition batchAt (batchSize : Z) (texts : list jsstring) (i : Z) : list jsstring :=
  slice texts i (i + batchSize).

Definition batchRequest (batch : list jsstring) : Request :=
  {| contents := Texts batch; taskType := RETRIEVAL_DOCUMENT |}.

Definition batch_failure : string :=
  "Failed to generate batch embeddings. Please check the console for details.".

(** The world after one iteration of the embedding loop that commits its
    batch: the request, the segments added, the progress, the pause. *)
Definition committed (batchSize delay : Z) (texts : list jsstring) (i : Z)
    (batchEmbeddings : list (list float)) (w : World) : World :=
  let batch := batchAt batchSize texts i in
  let w := sent (batchRequest batch) w in
  let w :=
    withVectorDB
      {| chunks :=
           chunks (vectorDB w)
           ++ mapi (fun text index =>
                      {| id := i + index; text := text;
                         embedding := nth (Z.to_nat index) batchEmbeddings [] |})
                   batch |}
      w in
  let w :=
    reported
      {| percentage :=
           15 + Math_round ((Number (i + len batch) / Number (len texts)) * 85)%float;
         message := EmbeddingChunk (i + len batch) (len texts) |}
      w in
  if (i + batchSize <? len texts)%Z then delayed delay w else w.

(** The runs of the embedding loop from offset [i], one rule per way an
    iteration can go. *)
Inductive EmbedRun (batchSize delay : Z) (api : Service) (texts : list jsstring)
  : Z -> World -> Outcome unit -> World -> Prop :=
| EmbedRun_done i w :
    (len texts <= i)%Z ->
    EmbedRun batchSize delay api texts i w (Returned tt) w
| EmbedRun_batch i w batchEmbeddings r w' :
    (i < len texts)%Z ->
    api (length (requests w)) (batchRequest (batchAt batchSize texts i))
    = Embeddings batchEmbeddings ->
    len batchEmbeddings = len (batchAt batchSize texts i) ->
    EmbedRun batchSize delay api texts (i + batchSize)
      (committed batchSize delay texts i batchEmbeddings w) r w' ->
    EmbedRun batchSize delay api texts i w r w'
| EmbedRun_mismatch i w batchEmbeddings :
    (i < len texts)%Z ->
    api (length (requests w)) (batchRequest (batchAt batchSize texts i))
    = Embeddings batchEmbeddings ->
    len batchEmbeddings <> len (batchAt batchSize texts i) ->
    EmbedRun batchSize delay api texts i w (Thrown batch_failure)
      (sent (batchRequest (batchAt batchSize texts i)) w)
| EmbedRun_rejected i w message :
    (i < len texts)%Z ->
    api (length (requests w)) (batchRequest (batchAt batchSize texts i))
    = Rejected message ->
    EmbedRun batchSize delay api texts i w
      (Thrown (handleError message "generate batch embeddings"))
      (sent (batchRequest (batchAt batchSize texts i)) w).

(** The first [n] batches the embedding loop cuts from offset [i] on. *)
Fixpoint batchesFrom (batchSize : Z) (texts : list jsstring) (i : Z) (n : nat)
  : list (list jsstring) :=
  match n with
  | O => []
  | S n' => batchAt batchSize texts i :: batchesFrom batchSize texts (i + batchSize) n'
  end.

(** The world when the embedding loop starts: error cleared, state
    [PROCESSING], index reset, and the progress of the reading phase. *)
Fixpoint pagesReported (numPages : Z) (pages : list Page) (i : Z) (w : World) : World :=
  match pages with
  | [] => w
  | _ :: pages' =>
      pagesReported numPages pages' (i + 1)
        (reported {| percentage := Math_round ((Number i / Number numPages) * 15)%float;
                     message := ReadingPage i numPages |} w)
  end.

Definition prepared (pages : list Page) (w : World) : World :=
  pagesReported (len pages) pages 1
    (reported {| percentage := 0; message := ReadingPDF |}
       (withVectorDB {| chunks := [] |} (inState PROCESSING (withError None w)))).

(** The world when [handleFileChange] returns, from the outcome of the
    embedding loop. *)
Definition concluded (r : Outcome unit) (w : World) : World :=
  match r with
  | Returned _ =>
      inState READY (reported {| percentage := 100; message := ProcessingComplete |} w)
  | Thrown message =>
      inState ERROR (withError (Some ("An error occurred: " ++ message)%string) w)
  | Pending => w
  end.

(** The chunks [handleFileChange] embeds: the filtered windows of the text
    of the pages. *)
Definition chunksOf (pages : list Page) : list jsstring :=
  match chunkText (S (length (extractText pages))) CHUNK_SIZE CHUNK_OVERLAP
          (extractText pages) with
  | Some chunks => chunks
  | None => []
  end.

(** A progress value carries the percentage its message stands for. *)
Definition well_reported (p : Progress) : Prop :=
  match message p with
  | ReadingPDF => percentage p = 0%Z
  | ReadingPage i numPages =>
      percentage p = Math_round ((Number i / Number numPages) * 15)%float
      /\ (1 <= i <= numPages)%Z
  | EmbeddingChunk processedCount total =>
      percentage p = (15 + Math_round ((Number processedCount / Number total) * 85)%float)%Z
      /\ (0 < processedCount <= total)%Z
  | ProcessingComplete => percentage p = 100%Z
  end.

(** Sample services: one that answers every text with the same vector, and
    one whose answer to its second request is a vector short. *)
Definition steady_service : Service :=
  fun _ r =>
    match contents r with
    | Text _ => Embeddings [[1; 0]%float]
    | Texts ts => Embeddings (map (fun _ => [1; 0]%float) ts)
    end.

Definition short_service : Service :=
  fun n r =>
    match contents r with
    | Text _ => Embeddings [[1; 0]%float]
    | Texts ts =>
        if (n =? 1)%nat then Embeddings (map (fun _ => [1; 0]%float) (tl ts))
        else Embeddings (map (fun _ => [1; 0]%float) ts)
    end.

(** A sample page of ten letters and a world in which nothing happened yet. *)
Definition ten_letters : Page := [[97; 98; 99; 100; 101; 102; 103; 104; 105; 106]%N].

Definition fresh : World :=
  {| vectorDB := {| chunks := [] |}; requests := []; progress := [];
     appState := INITIAL; error := None; delays := [] |}.

(** Sample data: three stored chunks, the first with an embedding of another
    dimension than the query [[1]]. *)
Definition odd_one : DocumentChunk :=
  {| id := 0; text := [111; 100; 100]%N; embedding := [1; 2]%float |}.
Definition opposite : DocumentChunk :=
  {| id := 1; text := [111; 112; 112]%N; embedding := [-1]%float |}.
Definition aligned : DocumentChunk :=
  {| id := 2; text := [97; 108; 105]%N; embedding := [2]%float |}.

(** More sample data: a chunk whose product with the query [[0x1p40]]
    overflows, so that its similarity is NaN; a chunk opposite to the query
    [[1; 1; 1]]; and six chunks of two dimensions. *)
Definition enormous : DocumentChunk :=
  {| id := 3; text := [98; 105; 103]%N; embedding := [0x1p1000]%float |}.
Definition inverse : DocumentChunk :=
  {| id := 4; text := [105; 110; 118]%N; embedding := [-1; -1; -1]%float |}.
Definition six_segments : list DocumentChunk :=
  [{| id := 0; text := [97]%N; embedding := [0; 1]%float |};
   {| id := 1; text := [98]%N; embedding := [-1; 0]%float |};
   {| id := 2; text := [99]%N; embedding := [3; 0]%float |};
   {| id := 3; text := [100]%N; embedding := [3; 4]%float |};
   {| id := 4; text := [101]%N; embedding := [0; -2]%float |};
   {| id := 5; text := [102]%N; embedding := [5; 0]%float |}].

(** The real number a binary64 value stands for, and the relative error of
    one rounded operation on normal values: [2^-52]. *)
Definition B2R (x : spec_float) : R :=
  match x with
  | S754_finite s m e => ((if s then -1 else 1) * IZR (Zpos m) * powerRZ 2 e)%R
  | _ => 0%R
  end.

Definition eps : R := (/ 4503599627370496)%R.

(** A positive normal binary64 value with its exponent between [lo] and [hi]. *)
Definition normal (lo hi : Z) (x : spec_float) : Prop :=
  exists (m : positive) (e : Z),
    x = S754_finite false m e /\ Zpos (digits2_pos m) = 53%Z /\ (lo <= e <= hi)%Z.

(** The share [(a / n) * c] as the handlers compute it, on counters [a] and
    [n] and an integer constant [c]. *)
Definition share (a n c : Z) : float := (Number a / Number n * Number c)%float.

(** The number of entries [slice(0, k)] keeps of an array of [n]. *)
Definition kept (n k : Z) : Z :=
  if (k <? 0)%Z then Z.max (n + k) 0 else Z.min k n.

Definition single_failure : string :=
  "Failed to generate single embedding. Please check the console for details.".


(** The window the chunking loop cuts in its iteration number [j], and the
    number of its iterations. *)
Definition windowAt (size overlap : Z) (fullText : jsstring) (j : nat) : jsstring :=
  substring fullText (Z.of_nat j * (size - overlap))
            (Z.of_nat j * (size - overlap) + size).

Definition windowCount (size overlap : Z) (fullText : jsstring) : nat :=
  Z.to_nat ((len fullText + (size - overlap) - 1) / (size - overlap)).

(** A service that answers every batch request with as many vectors as the
    request has texts. *)
Definition answers_in_kind (api : Service) : Prop :=
  forall n batch,
    exists embeddings,
      api n (batchRequest batch) = Embeddings embeddings
      /\ len embeddings = len batch.

(** The text an answer stream delivers, and the text shown for a caught
    value. *)
Definition streamed (chunks : list (option jsstring)) : jsstring :=
  concat (map (ChatView.plus []) chunks).

Definition shown (e : ChatView.Caught) : jsstring :=
  match e with
  | ChatView.AnError message => utf16 message
  | ChatView.NotAnError => utf16 ChatView.apology
  end.

Definition queryRequest (question : jsstring) : Request :=
  {| contents := Text question; taskType := RETRIEVAL_QUERY |}.

(** The context [handleSendMessage] retrieves with the query vector [q]. *)
Definition contextFor (q : list float) (db : InMemoryVectorDB) : jsstring :=
  join separator (map text (fst (search q 5 db))).

(** Sample chat data: a view in which the question [hi] was typed, an
    answer stream of two chunks, the second without text, and a stream that
    throws something other than an [Error] after its first chunk. *)
Definition asking : ChatView.State :=
  {| ChatView.world := fresh; ChatView.prompts := []; ChatView.messages := [];
     ChatView.input := [104; 105]%N; ChatView.isLoading := false |}.

Definition two_chunks : ChatView.Generator :=
  fun _ _ => ChatView.Stream [Some [72; 105]%N; None] None.

Definition broken_stream : ChatView.Generator :=
  fun _ _ => ChatView.Stream [Some [72; 105]%N] (Some ChatView.NotAnError).

Definition out_of_quota : Service :=
  fun _ _ => Rejected "429 RESOURCE_EXHAUSTED".

(** ** The order of binary64 numbers

    The comparator of [search] subtracts two similarities and looks at the
    sign of the difference. On numbers other than NaN that sign is the order
    of the operands, and the order is a strict weak order; the facts are
    proved from the specification of the primitive floats. *)

Section SpecFloats.

Local Open Scope Z_scope.

Lemma digits2_pos_bounds (m : positive) :
  2 ^ (Zpos (digits2_pos m) - 1) <= Zpos m < 2 ^ Zpos (digits2_pos m).
Proof.
  induction m as [m IH | m IH |]; simpl digits2_pos.
  - rewrite Pos2Z.inj_succ.
    replace (Z.succ (Z.pos (digits2_pos m)) - 1)
      with (Z.succ (Z.pos (digits2_pos m) - 1)) by lia.
    rewrite !Z.pow_succ_r by lia. lia.
  - rewrite Pos2Z.inj_succ.
    replace (Z.succ (Z.pos (digits2_pos m)) - 1)
      with (Z.succ (Z.pos (digits2_pos m) - 1)) by lia.
    rewrite !Z.pow_succ_r by lia. lia.
  - simpl. lia.
Qed.

Lemma iter_xO (m d : positive) : Zpos (Pos.iter xO m d) = Zpos m * 2 ^ Zpos d.
Proof.
  induction d as [|d IH] using Pos.peano_ind.
  - simpl. lia.
  - rewrite Pos.iter_succ, Pos2Z.inj_succ, Z.pow_succ_r by lia.
    rewrite Pos2Z.inj_xO, IH. lia.
Qed.

Lemma shl_align_value (m : positive) (e e' : Z) :
  e' <= e -> Zpos (fst (shl_align m e e')) = Zpos m * 2 ^ (e - e') /\ snd (shl_align m e e') = e'.
Proof.
  intros H. unfold shl_align. destruct (e' - e) eqn:E; simpl.
  - replace (e - e') with 0 by lia. rewrite Z.pow_0_r. split; lia.
  - lia.
  - rewrite iter_xO. replace (e - e') with (Zpos p) by lia. auto.
Qed.

Lemma shr_1_m (mrs : shr_record) :
  0 <= shr_m mrs -> shr_m (shr_1 mrs) = shr_m mrs / 2.
Proof.
  destruct mrs as [m r s]. simpl. intros Hm.
  destruct m as [|p|p]; try lia; simpl.
  - reflexivity.
  - destruct p; simpl.
    + rewrite Pos2Z.inj_xI. apply Z.div_unique with (r := 1); lia.
    + rewrite Pos2Z.inj_xO. apply Z.div_unique with (r := 0); lia.
    + reflexivity.
Qed.

Lemma shr_m_iter (p : positive) :
  forall mrs, 0 <= shr_m mrs ->
    shr_m (SpecFloat.iter_pos shr_1 p mrs) = shr_m mrs / 2 ^ Zpos p.
Proof.
  induction p as [p IH | p IH |]; intros mrs Hm; simpl SpecFloat.iter_pos.
  - assert (0 <= shr_m (shr_1 mrs)) by (rewrite shr_1_m by lia; apply Z.div_pos; lia).
    assert (0 <= shr_m (SpecFloat.iter_pos shr_1 p (shr_1 mrs)))
      by (rewrite IH by lia; apply Z.div_pos; lia).
    rewrite !IH, shr_1_m by lia.
    rewrite !Z.div_div by lia. f_equal.
    rewrite Pos2Z.inj_xI.
    replace (2 * Z.pos p + 1) with (1 + Z.pos p + Z.pos p) by lia.
    rewrite !Z.pow_add_r by lia. rewrite Z.pow_1_r. lia.
  - assert (0 <= shr_m (SpecFloat.iter_pos shr_1 p mrs))
      by (rewrite IH by lia; apply Z.div_pos; lia).
    rewrite !IH by lia. rewrite Z.div_div by lia. f_equal.
    rewrite Pos2Z.inj_xO. rewrite <- Z.pow_add_r by lia. f_equal. lia.
  - rewrite shr_1_m by lia. reflexivity.
Qed.

Lemma shr_m_of_loc (m : Z) (l : location) : shr_m (shr_record_of_loc m l) = m.
Proof. destruct l as [|[]]; reflexivity. Qed.

Lemma fexp_value (e : Z) : fexp prec emax e = Z.max (e - 53) (-1074).
Proof. reflexivity. Qed.

Lemma shr_fexp_pos (m e : Z) (l : location) :
  0 < m -> -1074 <= e ->
  0 < shr_m (fst (shr_fexp prec emax m e l)) /\ -1074 <= snd (shr_fexp prec emax m e l).
Proof.
  intros Hm He. unfold shr_fexp, shr. rewrite fexp_value.
  destruct m as [|q|q]; try lia. simpl Zdigits2.
  pose proof (digits2_pos_bounds q) as Hd.
  destruct (Z.max (Z.pos (digits2_pos q) + e - 53) (-1074) - e) as [|p|p] eqn:En;
    simpl fst; simpl snd.
  - rewrite shr_m_of_loc. lia.
  - rewrite shr_m_iter by (rewrite shr_m_of_loc; lia). rewrite shr_m_of_loc.
    split; [|lia]. apply Z.div_str_pos. split; [apply Z.pow_pos_nonneg; lia|].
    apply Z.le_trans with (2 ^ (Z.pos (digits2_pos q) - 1)); [|lia].
    apply Z.pow_le_mono_r; lia.
  - rewrite shr_m_of_loc. lia.
Qed.

Lemma round_nearest_even_ge (m : Z) (l : location) : m <= round_nearest_even m l.
Proof. destruct l as [|[]]; simpl; try lia. destruct (Z.even m); lia. Qed.

Lemma binary_round_aux_pos (m e : Z) (l : location) :
  0 < m -> -1074 <= e ->
  positive_float (binary_round_aux prec emax false m e l) = true.
Proof.
  intros Hm He. unfold binary_round_aux.
  pose proof (shr_fexp_pos m e l Hm He) as [H1 H1e].
  destruct (shr_fexp prec emax m e l) as [mrs' e']. simpl in H1, H1e.
  pose proof (round_nearest_even_ge (shr_m mrs') (loc_of_shr_record mrs')) as Hr.
  pose proof (shr_fexp_pos (round_nearest_even (shr_m mrs') (loc_of_shr_record mrs'))
                e' loc_Exact) as H2.
  destruct (shr_fexp prec emax _ e' loc_Exact) as [mrs'' e'']. simpl in H2.
  destruct H2 as [H2 _]; [lia | lia |].
  destruct (shr_m mrs''); try lia.
  destruct (e'' <=? emax - prec); reflexivity.
Qed.

Lemma binary_round_aux_neg (m e : Z) (l : location) :
  negative_or_nan (binary_round_aux prec emax true m e l) = true.
Proof.
  unfold binary_round_aux.
  destruct (shr_fexp prec emax m e l) as [mrs' e'].
  destruct (shr_fexp prec emax _ e' loc_Exact) as [mrs'' e''].
  destruct (shr_m mrs''); try reflexivity.
  destruct (e'' <=? emax - prec); reflexivity.
Qed.

Lemma binary_round_pos (m : positive) (e : Z) :
  -1074 <= e -> positive_float (binary_round prec emax false m e) = true.
Proof.
  intros He. unfold binary_round.
  destruct (shl_align m e (fexp prec emax (Z.pos (digits2_pos m) + e))) as [mz ez] eqn:E.
  apply binary_round_aux_pos; [lia|].
  unfold shl_align in E. rewrite fexp_value in E.
  destruct (Z.max (Z.pos (digits2_pos m) + e - 53) (-1074) - e); inversion E; lia.
Qed.

Lemma binary_round_neg (m : positive) (e : Z) :
  negative_or_nan (binary_round prec emax true m e) = true.
Proof.
  unfold binary_round.
  destruct (shl_align m e (fexp prec emax (Z.pos (digits2_pos m) + e))) as [mz ez].
  apply binary_round_aux_neg.
Qed.

(** The sign of a difference of aligned mantissas survives its rounding. *)
Lemma binary_normalize_sign (M e : Z) :
  -1074 <= e ->
  SFltb (S754_zero false) (binary_normalize prec emax M e false) = (0 <? M).
Proof.
  intros He. destruct M as [|p|p]; simpl binary_normalize.
  - reflexivity.
  - pose proof (binary_round_pos p e He) as H.
    destruct (binary_round prec emax false p e) as [[]|[]| |[] m' e'];
      try discriminate; reflexivity.
  - pose proof (binary_round_neg p e) as H.
    destruct (binary_round prec emax true p e) as [[]|[]| |[] m' e'];
      try discriminate; reflexivity.
Qed.

Lemma valid_finite (s : bool) (m : positive) (e : Z) :
  SpecFloat.valid_binary prec emax (S754_finite s m e) = true ->
  -1074 <= e /\ Zpos (digits2_pos m) <= 53 /\ (-1074 < e -> Zpos (digits2_pos m) = 53).
Proof.
  unfold SpecFloat.valid_binary, SpecFloat.bounded, SpecFloat.canonical_mantissa.
  rewrite fexp_value.
  rewrite andb_true_iff, Z.eqb_eq. lia.
Qed.

Lemma aligned_compare (s1 s2 : bool) (m1 m2 : positive) (e1 e2 : Z) :
  SpecFloat.valid_binary prec emax (S754_finite s1 m1 e1) = true ->
  SpecFloat.valid_binary prec emax (S754_finite s2 m2 e2) = true ->
  (Zpos (fst (shl_align m1 e1 (Z.min e1 e2))) ?= Zpos (fst (shl_align m2 e2 (Z.min e1 e2))))
  = match e1 ?= e2 with
    | Lt => Lt
    | Gt => Gt
    | Eq => Pos.compare_cont Eq m1 m2
    end.
Proof.
  intros (He1 & Hd1 & Hn1)%valid_finite (He2 & Hd2 & Hn2)%valid_finite.
  destruct (shl_align_value m1 e1 (Z.min e1 e2)) as [-> _]; [lia|].
  destruct (shl_align_value m2 e2 (Z.min e1 e2)) as [-> _]; [lia|].
  pose proof (digits2_pos_bounds m1) as B1. pose proof (digits2_pos_bounds m2) as B2.
  destruct (Z.compare_spec e1 e2) as [E|E|E].
  - subst e2. rewrite Z.min_id, Z.sub_diag, Z.pow_0_r, !Z.mul_1_r. reflexivity.
  - rewrite Z.min_l by lia. rewrite Z.sub_diag, Z.pow_0_r, Z.mul_1_r.
    apply Z.compare_lt_iff.
    assert (2 ^ 1 <= 2 ^ (e2 - e1)) by (apply Z.pow_le_mono_r; lia).
    assert (2 ^ Z.pos (digits2_pos m1) <= 2 ^ 53) by (apply Z.pow_le_mono_r; lia).
    rewrite Hn2 in B2 by lia. change (2 ^ (53 - 1)) with 4503599627370496 in B2.
    change (2 ^ 53) with 9007199254740992 in *. change (2 ^ 1) with 2 in *. nia.
  - rewrite Z.min_r by lia. rewrite Z.sub_diag, Z.pow_0_r, Z.mul_1_r.
    apply Z.compare_gt_iff.
    assert (2 ^ 1 <= 2 ^ (e1 - e2)) by (apply Z.pow_le_mono_r; lia).
    assert (2 ^ Z.pos (digits2_pos m2) <= 2 ^ 53) by (apply Z.pow_le_mono_r; lia).
    rewrite Hn1 in B1 by lia. change (2 ^ (53 - 1)) with 4503599627370496 in B1.
    change (2 ^ 53) with 9007199254740992 in *. change (2 ^ 1) with 2 in *. nia.
Qed.

Lemma SFsub_sign (x y : spec_float) :
  SpecFloat.valid_binary prec emax x = true -> SpecFloat.valid_binary prec emax y = true ->
  x <> S754_nan -> y <> S754_nan ->
  SFltb (S754_zero false) (SFsub prec emax y x) = SFltb x y.
Proof.
  intros Vx Vy Nx Ny.
  destruct x as [sx|sx| |sx mx ex], y as [sy|sy| |sy my ey]; try contradiction;
    try (destruct sx, sy; reflexivity); try (destruct sx; reflexivity);
    try (destruct sy; reflexivity).
  unfold SFsub. rewrite binary_normalize_sign.
  2:{ apply valid_finite in Vx, Vy. lia. }
  pose proof (aligned_compare sx sy mx my ex ey Vx Vy) as Hc.
  rewrite (Z.min_comm ey ex).
  set (X := Z.pos (fst (shl_align mx ex (Z.min ex ey)))) in *.
  set (Y := Z.pos (fst (shl_align my ey (Z.min ex ey)))) in *.
  assert (0 < X /\ 0 < Y) as [HX HY] by (unfold X, Y; lia).
  clearbody X Y.
  unfold SFltb, SFcompare, cond_Zopp.
  destruct (Z.compare_spec X Y) as [E|E|E];
    destruct sx, sy; destruct (ex ?= ey); destruct (Pos.compare_cont Eq mx my);
    try discriminate Hc; simpl;
    match goal with |- (0 <? ?M) = _ => destruct (Z.ltb_spec 0 M) end;
    try reflexivity; lia.
Qed.

Lemma cmpmag_antisym m1 e1 m2 e2 : cmpmag m2 e2 m1 e1 = CompOpp (cmpmag m1 e1 m2 e2).
Proof.
  unfold cmpmag. change (Pos.compare_cont Eq) with Pos.compare.
  rewrite (Z.compare_antisym e1 e2), (Pos.compare_antisym m1 m2).
  destruct (e1 ?= e2); reflexivity.
Qed.

Lemma cmpmag_trans m1 e1 m2 e2 m3 e3 :
  cmpmag m1 e1 m2 e2 <> Gt -> cmpmag m2 e2 m3 e3 <> Gt -> cmpmag m1 e1 m3 e3 <> Gt.
Proof.
  unfold cmpmag. change (Pos.compare_cont Eq) with Pos.compare.
  destruct (Z.compare_spec e1 e2), (Z.compare_spec e2 e3), (Z.compare_spec e1 e3);
    try lia; try congruence;
    destruct (Pos.compare_spec m1 m2), (Pos.compare_spec m2 m3), (Pos.compare_spec m1 m3);
    try lia; congruence.
Qed.

Lemma cmpmag_refl m e : cmpmag m e m e = Eq.
Proof.
  unfold cmpmag. change (Pos.compare_cont Eq) with Pos.compare.
  now rewrite Z.compare_refl, Pos.compare_refl.
Qed.

Lemma SFcompare_finite s1 m1 e1 s2 m2 e2 :
  SFcompare (S754_finite s1 m1 e1) (S754_finite s2 m2 e2)
  = Some match s1, s2 with
         | true, false => Lt
         | false, true => Gt
         | false, false => cmpmag m1 e1 m2 e2
         | true, true => CompOpp (cmpmag m1 e1 m2 e2)
         end.
Proof.
  unfold cmpmag. simpl. destruct s1, s2; try reflexivity.
  destruct (e1 ?= e2); reflexivity.
Qed.

Lemma SFltb_asym (x y : spec_float) : SFltb x y = true -> SFltb y x = false.
Proof.
  unfold SFltb.
  destruct x as [sx|sx| |sx mx ex], y as [sy|sy| |sy my ey];
    try (destruct sx, sy; simpl; congruence); try (destruct sx; simpl; congruence);
    try (destruct sy; simpl; congruence); try (simpl; congruence).
  rewrite !SFcompare_finite, (cmpmag_antisym mx ex my ey).
  destruct sx, sy, (cmpmag mx ex my ey); simpl; congruence.
Qed.

Lemma SFeqb_unordered (x y : spec_float) :
  x <> S754_nan -> y <> S754_nan ->
  SFeqb x y = negb (SFltb x y) && negb (SFltb y x).
Proof.
  unfold SFltb, SFeqb. intros Nx Ny.
  destruct x as [sx|sx| |sx mx ex], y as [sy|sy| |sy my ey]; try contradiction;
    try (destruct sx, sy; reflexivity); try (destruct sx; reflexivity);
    try (destruct sy; reflexivity).
  rewrite !SFcompare_finite, (cmpmag_antisym mx ex my ey).
  destruct sx, sy, (cmpmag mx ex my ey); reflexivity.
Qed.

Lemma SFltb_negtrans (x y z : spec_float) :
  x <> S754_nan -> y <> S754_nan -> z <> S754_nan ->
  SFltb x y = false -> SFltb y z = false -> SFltb x z = false.
Proof.
  unfold SFltb. intros Nx Ny Nz.
  destruct x as [sx|sx| |sx mx ex], y as [sy|sy| |sy my ey], z as [sz|sz| |sz mz ez];
    try contradiction;
    try (destruct sx, sy, sz; simpl; congruence);
    try (destruct sx, sy; simpl; congruence);
    try (destruct sx, sz; simpl; congruence);
    try (destruct sy, sz; simpl; congruence);
    try (rewrite !SFcompare_finite; destruct sx, sy, sz; simpl;
         repeat match goal with |- context [cmpmag ?a ?b ?c ?d] => destruct (cmpmag a b c d) end;
         congruence).
  rewrite !SFcompare_finite.
  pose proof (cmpmag_trans mx ex my ey mz ez) as T1.
  pose proof (cmpmag_trans mz ez my ey mx ex) as T2.
  rewrite (cmpmag_antisym my ey mz ez), (cmpmag_antisym mx ex my ey),
    (cmpmag_antisym mx ex mz ez) in T2.
  destruct sx, sy, sz, (cmpmag mx ex my ey), (cmpmag my ey mz ez), (cmpmag mx ex mz ez);
    simpl in *; try congruence;
    try (exfalso; apply T1; congruence); try (exfalso; apply T2; congruence).
Qed.

Lemma digits2_pos_unique (m : positive) (k : Z) :
  2 ^ (k - 1) <= Zpos m < 2 ^ k -> Zpos (digits2_pos m) = k.
Proof.
  intros [Hl Hu]. pose proof (digits2_pos_bounds m) as [Bl Bu].
  assert (0 < k).
  { destruct (Z.lt_ge_cases 0 k); [assumption|].
    destruct (Z.eq_dec k 0) as [->|]; [simpl in Hu; lia|].
    rewrite Z.pow_neg_r in Hu by lia. lia. }
  destruct (Z.lt_trichotomy (Zpos (digits2_pos m)) k) as [H1 | [H1 | H1]]; [|assumption|].
  - assert (2 ^ Zpos (digits2_pos m) <= 2 ^ (k - 1)) by (apply Z.pow_le_mono_r; lia). lia.
  - assert (2 ^ k <= 2 ^ (Zpos (digits2_pos m) - 1)) by (apply Z.pow_le_mono_r; lia). lia.
Qed.

(** The first shift of a mantissa of at least 53 digits, in the normal range. *)
Lemma shr_fexp_normal (q : positive) (e : Z) (l : location) :
  53 <= Zpos (digits2_pos q) ->
  -1074 <= Zpos (digits2_pos q) + e - 53 ->
  snd (shr_fexp prec emax (Zpos q) e l) = Zpos (digits2_pos q) + e - 53
  /\ shr_m (fst (shr_fexp prec emax (Zpos q) e l)) = Zpos q / 2 ^ (Zpos (digits2_pos q) - 53).
Proof.
  intros Hd Hr. unfold shr_fexp, shr. rewrite fexp_value. simpl Zdigits2.
  rewrite Z.max_l by lia.
  destruct (Z.pos (digits2_pos q) + e - 53 - e) as [|p|p] eqn:En; simpl fst; simpl snd.
  - replace (Z.pos (digits2_pos q) - 53) with 0 by lia.
    rewrite shr_m_of_loc, Z.pow_0_r, Z.div_1_r. split; lia.
  - rewrite shr_m_iter by (rewrite shr_m_of_loc; lia). rewrite shr_m_of_loc.
    replace (Z.pos (digits2_pos q) - 53) with (Z.pos p) by lia. split; lia.
  - lia.
Qed.

Lemma round_nearest_even_cases (m : Z) (l : location) :
  round_nearest_even m l = m \/ round_nearest_even m l = m + 1.
Proof. destruct l as [|[]]; simpl; auto. destruct (Z.even m); auto. Qed.

(** A mantissa of exactly 53 digits in range is left as it is. *)
Lemma shr_fexp_canonical (q : positive) (e : Z) :
  Zpos (digits2_pos q) = 53 -> -1074 <= e ->
  shr_fexp prec emax (Zpos q) e loc_Exact = (Build_shr_record (Zpos q) false false, e).
Proof.
  intros Hd He. unfold shr_fexp, shr. rewrite fexp_value. simpl Zdigits2.
  rewrite Hd. replace (Z.max (53 + e - 53) (-1074) - e) with 0 by lia. reflexivity.
Qed.

Lemma shr_fexp_carry (e : Z) :
  -1074 <= e ->
  shr_fexp prec emax (2 ^ 53) e loc_Exact
  = (Build_shr_record (2 ^ 52) false false, e + 1).
Proof.
  intros He. unfold shr_fexp, shr. rewrite fexp_value.
  change (Zdigits2 (2 ^ 53)) with 54.
  replace (Z.max (54 + e - 53) (-1074) - e) with 1 by lia. reflexivity.
Qed.

(** The rounding of a truncated positive value [q * 2^e] whose mantissa has
    at least 53 digits: the result is finite, with a mantissa of 53 digits,
    and it is the truncation to 53 digits or the next value up. *)
Lemma binary_round_aux_faithful (q : positive) (e : Z) (l : location) :
  53 <= Zpos (digits2_pos q) ->
  -1074 <= Zpos (digits2_pos q) + e - 53 <= 970 ->
  exists (M : positive) (E : Z),
    binary_round_aux prec emax false (Zpos q) e l = S754_finite false M E
    /\ Zpos (digits2_pos M) = 53
    /\ -1074 <= E <= 971
    /\ let n := Zpos (digits2_pos q) - 53 in
       let Q := Zpos q / 2 ^ n in
       2 ^ 52 <= Q < 2 ^ 53
       /\ (Zpos M * 2 ^ (E - (e + n)) = Q \/ Zpos M * 2 ^ (E - (e + n)) = Q + 1)
       /\ e + n <= E.
Proof.
  intros Hd Hr. unfold binary_round_aux.
  destruct (shr_fexp_normal q e l Hd) as [He1 Hm1]; [lia|].
  destruct (shr_fexp prec emax (Zpos q) e l) as [mrs' e1]. cbn [fst snd] in He1, Hm1.
  cbv zeta.
  remember (Zpos (digits2_pos q) - 53) as n eqn:Hn.
  remember (Zpos q / 2 ^ n) as Q eqn:HQdef.
  assert (2 ^ 52 <= Q < 2 ^ 53) as HQ.
  { pose proof (digits2_pos_bounds q) as [Bl Bu].
    assert (0 < 2 ^ n) by (apply Z.pow_pos_nonneg; lia).
    replace (Zpos (digits2_pos q) - 1) with (52 + n) in Bl by lia.
    replace (Zpos (digits2_pos q)) with (53 + n) in Bu by lia.
    rewrite Z.pow_add_r in Bl, Bu by lia.
    subst Q. split.
    - apply Z.div_le_lower_bound; lia.
    - apply Z.div_lt_upper_bound; lia. }
  rewrite Hm1.
  destruct (round_nearest_even_cases Q (loc_of_shr_record mrs')) as [-> | ->].
  - destruct Q as [|Qp|Qp] eqn:EQ; try lia.
    assert (Zpos (digits2_pos Qp) = 53) as HdQ by (apply digits2_pos_unique; simpl; lia).
    rewrite shr_fexp_canonical by lia. simpl shr_m.
    destruct (Z.leb_spec e1 (emax - prec)) as [_|Habs]; [|unfold emax, prec in Habs; lia].
    exists Qp, e1. repeat split; try lia.
    left. replace (e1 - (e + n)) with 0 by lia. lia.
  - destruct (Z.eq_dec (Q + 1) (2 ^ 53)) as [Hc|Hc].
    + rewrite Hc, shr_fexp_carry by lia. simpl shr_m.
      change (2 ^ 52) with (Zpos (Z.to_pos (2 ^ 52))).
      destruct (Z.leb_spec (e1 + 1) (emax - prec)) as [_|Habs]; [|unfold emax, prec in Habs; lia].
      exists (Z.to_pos (2 ^ 52)), (e1 + 1). repeat split; try lia; try reflexivity.
      right. replace (e1 + 1 - (e + n)) with 1 by lia. reflexivity.
    + destruct (Q + 1) as [|Qp|Qp] eqn:EQ; try lia.
      assert (Zpos (digits2_pos Qp) = 53) as HdQ by (apply digits2_pos_unique; simpl; lia).
      rewrite shr_fexp_canonical by lia. simpl shr_m.
      destruct (Z.leb_spec e1 (emax - prec)) as [_|Habs]; [|unfold emax, prec in Habs; lia].
      exists Qp, e1. repeat split; try lia.
      right. replace (e1 - (e + n)) with 0 by lia. lia.
Qed.

Lemma binary_round_aux_exact (q : positive) (e : Z) :
  Zpos (digits2_pos q) = 53 -> -1074 <= e <= 971 ->
  binary_round_aux prec emax false (Zpos q) e loc_Exact = S754_finite false q e.
Proof.
  intros Hd He. unfold binary_round_aux.
  rewrite shr_fexp_canonical by lia. cbn [shr_m loc_of_shr_record round_nearest_even].
  rewrite shr_fexp_canonical by lia. cbn [shr_m].
  destruct (Z.leb_spec e (emax - prec)) as [_|Habs]; [reflexivity|].
  unfold emax, prec in Habs. lia.
Qed.

End SpecFloats.

Section Floats.

Local Open Scope float_scope.

Lemma number_not_nan (a : float) : is_nan a = false -> Prim2SF a <> S754_nan.
Proof.
  unfold is_nan. rewrite FloatAxioms.eqb_spec. intros H E. rewrite E in H. discriminate.
Qed.

Lemma difference_sign (a b : float) :
  is_nan a = false -> is_nan b = false -> (0 <? b - a) = (a <? b).
Proof.
  intros Ha Hb. rewrite !FloatAxioms.ltb_spec, FloatAxioms.sub_spec.
  change (Prim2SF 0) with (S754_zero false).
  apply SFsub_sign; auto using Prim2SF_valid, number_not_nan.
Qed.

Lemma ltb_asymmetric (a b : float) : (a <? b) = true -> (b <? a) = false.
Proof. rewrite !FloatAxioms.ltb_spec. apply SFltb_asym. Qed.

Lemma ltb_negatively_transitive (a b c : float) :
  is_nan a = false -> is_nan b = false -> is_nan c = false ->
  (a <? b) = false -> (b <? c) = false -> (a <? c) = false.
Proof.
  intros Ha Hb Hc. rewrite !FloatAxioms.ltb_spec.
  apply SFltb_negtrans; auto using number_not_nan.
Qed.

Lemma eqb_unordered (a b : float) :
  is_nan a = false -> is_nan b = false ->
  (a =? b) = negb (a <? b) && negb (b <? a).
Proof.
  intros Ha Hb. rewrite FloatAxioms.eqb_spec, !FloatAxioms.ltb_spec.
  apply SFeqb_unordered; auto using number_not_nan.
Qed.

End Floats.

(** ** Rounded shares

    A percentage is [Math.round] of a quotient of two counters times a
    constant. Division and multiplication round to nearest, so each is off
    by a relative error of at most [2^-52]; for counters below [2^32] that is
    too little to reorder two shares, or to take one outside its range. *)

Section Rounding.

Local Open Scope R_scope.

Lemma powerRZ_2_pos (e : Z) : 0 < powerRZ 2 e.
Proof. apply powerRZ_lt. lra. Qed.

Lemma powerRZ_2_add (a b : Z) : powerRZ 2 (a + b) = powerRZ 2 a * powerRZ 2 b.
Proof. apply powerRZ_add. lra. Qed.

Lemma IZR_pow2 (k : Z) : (0 <= k)%Z -> IZR (2 ^ k) = powerRZ 2 k.
Proof.
  intros Hk. rewrite <- (Z2Nat.id k Hk) at 1.
  rewrite <- pow_IZR. rewrite pow_powerRZ. now rewrite Z2Nat.id.
Qed.

(** From the integers of a faithful rounding to its relative error. *)
Lemma faithful_error (q Q M n e E : Z) (x : R) :
  (0 <= n)%Z -> Q = (q / 2 ^ n)%Z -> (2 ^ 52 <= Q)%Z ->
  (M * 2 ^ (E - (e + n)) = Q \/ M * 2 ^ (E - (e + n)) = Q + 1)%Z ->
  (e + n <= E)%Z ->
  IZR q * powerRZ 2 e <= x < (IZR q + 1) * powerRZ 2 e ->
  x * (1 - eps) <= IZR M * powerRZ 2 E <= x * (1 + eps).
Proof.
  intros Hn HQ HQ52 HM HE [Hxl Hxu].
  set (u := powerRZ 2 (e + n)).
  assert (0 < u) as Hu by apply powerRZ_2_pos.
  assert (IZR M * powerRZ 2 E = IZR (M * 2 ^ (E - (e + n))) * u) as ->.
  { unfold u. rewrite mult_IZR, IZR_pow2 by lia.
    rewrite Rmult_assoc, <- powerRZ_2_add.
    replace (E - (e + n) + (e + n))%Z with E by lia. reflexivity. }
  assert (0 < 2 ^ n)%Z as Hpn by (apply Z.pow_pos_nonneg; lia).
  pose proof (Z.div_mod q (2 ^ n) ltac:(lia)) as Hdm.
  pose proof (Z.mod_pos_bound q (2 ^ n) Hpn) as Hmod.
  rewrite <- HQ in Hdm.
  assert (IZR Q * IZR (2 ^ n) <= IZR q) as H1.
  { rewrite <- mult_IZR. apply IZR_le. lia. }
  assert (IZR q + 1 <= (IZR Q + 1) * IZR (2 ^ n)) as H2.
  { change 1 with (IZR 1). rewrite <- !plus_IZR, <- mult_IZR. apply IZR_le. lia. }
  assert (u = powerRZ 2 e * IZR (2 ^ n)) as Hu'.
  { unfold u. now rewrite powerRZ_2_add, <- (IZR_pow2 n) by lia. }
  pose proof (powerRZ_2_pos e) as Hp.
  assert (0 < IZR (2 ^ n)) as Ht by (now apply IZR_lt).
  assert (IZR Q * u <= IZR q * powerRZ 2 e) as HA by (rewrite Hu'; nra).
  assert ((IZR q + 1) * powerRZ 2 e <= (IZR Q + 1) * u) as HB by (rewrite Hu'; nra).
  assert (4503599627370496 <= IZR Q) as HQr.
  { change 4503599627370496 with (IZR (2 ^ 52)). now apply IZR_le. }
  assert (u <= eps * (IZR Q * u)) as Hrel by (unfold eps; nra).
  destruct HM as [-> | ->]; [|rewrite plus_IZR]; unfold eps in *; nra.
Qed.

Lemma normal_positive (lo hi : Z) (x : spec_float) : normal lo hi x -> 0 < B2R x.
Proof.
  intros (m & e & -> & _ & _). simpl. rewrite Rmult_1_l.
  apply Rmult_lt_0_compat; [apply IZR_lt; lia | apply powerRZ_2_pos].
Qed.

(** The product of two positive normal values is rounded faithfully. *)
Lemma SFmul_faithful (l1 h1 l2 h2 : Z) (x y : spec_float) :
  normal l1 h1 x -> normal l2 h2 y ->
  (-1126 <= l1 + l2)%Z -> (h1 + h2 <= 917)%Z ->
  normal (l1 + l2 + 52) (h1 + h2 + 54) (SFmul prec emax x y)
  /\ B2R x * B2R y * (1 - eps) <= B2R (SFmul prec emax x y) <= B2R x * B2R y * (1 + eps).
Proof.
  intros (mx & ex & -> & Hdx & Hex) (my & ey & -> & Hdy & Hey) Hlo Hhi.
  unfold SFmul. cbn [xorb].
  pose proof (digits2_pos_bounds mx) as Bx. pose proof (digits2_pos_bounds my) as By.
  rewrite Hdx in Bx. rewrite Hdy in By.
  change (2 ^ (53 - 1))%Z with 4503599627370496%Z in *.
  change (2 ^ 53)%Z with 9007199254740992%Z in *.
  assert ((2 ^ 104 <= Zpos (mx * my) < 2 ^ 106)%Z) as Bq.
  { rewrite Pos2Z.inj_mul.
    change (2 ^ 104)%Z with (4503599627370496 * 4503599627370496)%Z.
    change (2 ^ 106)%Z with (9007199254740992 * 9007199254740992)%Z. nia. }
  assert (Zpos (digits2_pos (mx * my)) = 105 \/ Zpos (digits2_pos (mx * my)) = 106)%Z as Hdq.
  { destruct (Z.lt_ge_cases (Zpos (mx * my)) (2 ^ 105)).
    - left. apply digits2_pos_unique. change (105 - 1)%Z with 104%Z. lia.
    - right. apply digits2_pos_unique. change (106 - 1)%Z with 105%Z. lia. }
  destruct (binary_round_aux_faithful (mx * my) (ex + ey) loc_Exact)
    as (M & E & -> & HdM & HE & HQ & HM & HEn); [lia | lia |].
  cbv zeta in HQ, HM, HEn.
  split.
  - exists M, E. repeat split; auto; try lia.
    destruct HM as [HM | HM].
    + (* E - (e + n) must keep M at 53 digits *)
      pose proof (digits2_pos_bounds M) as BM. rewrite HdM in BM.
      change (2 ^ (53 - 1))%Z with 4503599627370496%Z in *.
      change (2 ^ 53)%Z with 9007199254740992%Z in *.
      change (2 ^ 52)%Z with 4503599627370496%Z in *.
      destruct (Z.eq_dec (E - (ex + ey + (Zpos (digits2_pos (mx * my)) - 53))) 0)
        as [E0|E0]; [lia|].
      assert (2 ^ 1 <= 2 ^ (E - (ex + ey + (Zpos (digits2_pos (mx * my)) - 53))))%Z
        by (apply Z.pow_le_mono_r; lia).
      change (2 ^ 1)%Z with 2%Z in *. nia.
    + pose proof (digits2_pos_bounds M) as BM. rewrite HdM in BM.
      change (2 ^ (53 - 1))%Z with 4503599627370496%Z in *.
      change (2 ^ 53)%Z with 9007199254740992%Z in *.
      change (2 ^ 52)%Z with 4503599627370496%Z in *.
      destruct (Z.le_gt_cases (E - (ex + ey + (Zpos (digits2_pos (mx * my)) - 53))) 1)
        as [E0|E0]; [lia|].
      assert (2 ^ 2 <= 2 ^ (E - (ex + ey + (Zpos (digits2_pos (mx * my)) - 53))))%Z
        by (apply Z.pow_le_mono_r; lia).
      change (2 ^ 2)%Z with 4%Z in *. nia.
  - cbn [B2R]. rewrite !Rmult_1_l.
    apply (faithful_error (Zpos (mx * my))
             (Zpos (mx * my) / 2 ^ (Zpos (digits2_pos (mx * my)) - 53)) (Zpos M)
             (Zpos (digits2_pos (mx * my)) - 53) (ex + ey) E);
      try reflexivity; try lia.
    rewrite Pos2Z.inj_mul, mult_IZR, powerRZ_2_add.
    pose proof (powerRZ_2_pos ex). pose proof (powerRZ_2_pos ey).
    split; nra.
Qed.

Lemma Rle_div (a b c : R) : 0 < c -> a * c <= b -> a <= b / c.
Proof.
  intros Hc H. apply Rmult_le_reg_r with c; [assumption|].
  unfold Rdiv. rewrite Rmult_assoc, Rinv_l by lra. lra.
Qed.

Lemma Rdiv_lt (a b c : R) : 0 < c -> a < b * c -> a / c < b.
Proof.
  intros Hc H. apply Rmult_lt_reg_r with c; [assumption|].
  unfold Rdiv. rewrite Rmult_assoc, Rinv_l by lra. lra.
Qed.

Lemma rounded_exponent (M : positive) (Q k : Z) :
  Zpos (digits2_pos M) = 53%Z -> (2 ^ 52 <= Q < 2 ^ 53)%Z -> (0 <= k)%Z ->
  (Zpos M * 2 ^ k = Q \/ Zpos M * 2 ^ k = Q + 1)%Z -> (k <= 1)%Z.
Proof.
  intros HdM HQ Hk HM.
  pose proof (digits2_pos_bounds M) as BM. rewrite HdM in BM.
  change (2 ^ (53 - 1))%Z with 4503599627370496%Z in *.
  change (2 ^ 53)%Z with 9007199254740992%Z in *.
  change (2 ^ 52)%Z with 4503599627370496%Z in *.
  destruct (Z.le_gt_cases k 1) as [|Hgt]; [assumption|].
  assert (2 ^ 2 <= 2 ^ k)%Z by (apply Z.pow_le_mono_r; lia).
  change (2 ^ 2)%Z with 4%Z in *. nia.
Qed.

(** The quotient of two positive normal values is rounded faithfully. *)
Lemma SFdiv_faithful (l1 h1 l2 h2 : Z) (x y : spec_float) :
  normal l1 h1 x -> normal l2 h2 y ->
  (-1074 <= l1 - h2 - 53)%Z -> (h1 - l2 - 52 <= 970)%Z ->
  normal (l1 - h2 - 53) (h1 - l2 - 51) (SFdiv prec emax x y)
  /\ B2R x / B2R y * (1 - eps) <= B2R (SFdiv prec emax x y) <= B2R x / B2R y * (1 + eps).
Proof.
  intros (mx & ex & -> & Hdx & Hex) (my & ey & -> & Hdy & Hey) Hlo Hhi.
  unfold SFdiv, SFdiv_core_binary. cbn [xorb Zdigits2]. rewrite Hdx, Hdy, fexp_value.
  replace (Z.min (Z.max (53 + ex - (53 + ey) - 53) (-1074)) (ex - ey))
    with (ex - ey - 53)%Z by lia.
  replace (ex - ey - (ex - ey - 53))%Z with 53%Z by lia.
  rewrite Z.shiftl_mul_pow2 by lia.
  pose proof (digits2_pos_bounds mx) as Bx. pose proof (digits2_pos_bounds my) as By.
  rewrite Hdx in Bx. rewrite Hdy in By.
  change (2 ^ (53 - 1))%Z with 4503599627370496%Z in *.
  change (2 ^ 53)%Z with 9007199254740992%Z in *.
  pose proof (Z.div_mod (Zpos mx * 9007199254740992) (Zpos my) ltac:(lia)) as Hdm.
  pose proof (Z.mod_pos_bound (Zpos mx * 9007199254740992) (Zpos my) ltac:(lia)) as Hmod.
  unfold Z.div, Z.modulo in Hdm, Hmod.
  destruct (Z.div_eucl (Zpos mx * 9007199254740992) (Zpos my)) as [q r].
  assert (2 ^ 52 <= q < 2 ^ 54)%Z as Bq.
  { change (2 ^ 52)%Z with 4503599627370496%Z.
    change (2 ^ 54)%Z with 18014398509481984%Z. nia. }
  destruct q as [|q|q]; try lia.
  assert (Zpos (digits2_pos q) = 53 \/ Zpos (digits2_pos q) = 54)%Z as Hdq.
  { destruct (Z.lt_ge_cases (Zpos q) (2 ^ 53)).
    - left. apply digits2_pos_unique. change (53 - 1)%Z with 52%Z. lia.
    - right. apply digits2_pos_unique. change (54 - 1)%Z with 53%Z. lia. }
  destruct (binary_round_aux_faithful q (ex - ey - 53) (new_location (Zpos my) r))
    as (M & E & -> & HdM & HE & HQ & HM & HEn); [lia | lia |].
  cbv zeta in HQ, HM, HEn.
  assert (E - (ex - ey - 53 + (Zpos (digits2_pos q) - 53)) <= 1)%Z as Hstep.
  { apply (rounded_exponent M _ _ HdM HQ); [lia | exact HM]. }
  split.
  - exists M, E. repeat split; auto; lia.
  - cbn [B2R]. rewrite !Rmult_1_l.
    apply (faithful_error (Zpos q) (Zpos q / 2 ^ (Zpos (digits2_pos q) - 53)) (Zpos M)
             (Zpos (digits2_pos q) - 53) (ex - ey - 53) E);
      try reflexivity; try lia.
    pose proof (powerRZ_2_pos (ex - ey - 53)) as Hp.
    pose proof (powerRZ_2_pos ey) as Hpy.
    assert (0 < IZR (Zpos my)) as Hmy by (apply IZR_lt; lia).
    assert (IZR (Z.pos mx) * powerRZ 2 ex / (IZR (Z.pos my) * powerRZ 2 ey)
            = IZR (Zpos mx * 9007199254740992) / IZR (Zpos my) * powerRZ 2 (ex - ey - 53)) as ->.
    { replace ex with (ey + (53 + (ex - ey - 53)))%Z at 1 by lia.
      rewrite !powerRZ_2_add, mult_IZR.
      change (powerRZ 2 53) with (IZR 9007199254740992) || 
        (replace (powerRZ 2 53) with 9007199254740992 by (simpl; lra)).
      field. split; lra. }
    assert (IZR (Zpos q) * IZR (Zpos my) <= IZR (Zpos mx * 9007199254740992)) as H1.
    { rewrite <- mult_IZR. apply IZR_le. lia. }
    assert (IZR (Zpos mx * 9007199254740992) < (IZR (Zpos q) + 1) * IZR (Zpos my)) as H2.
    { change 1 with (IZR 1). rewrite <- plus_IZR, <- mult_IZR. apply IZR_lt. lia. }
    split.
    + apply Rmult_le_compat_r; [lra|]. apply Rle_div; assumption.
    + apply Rmult_lt_compat_r; [lra|]. apply Rdiv_lt; assumption.
Qed.

Lemma Number_normal (z : Z) :
  (0 < z < 2 ^ 53)%Z ->
  normal (-52) 0 (Prim2SF (Number z)) /\ B2R (Prim2SF (Number z)) = IZR z.
Proof.
  intros Hz. unfold Number. rewrite of_uint63_spec, Uint63.of_Z_spec.
  rewrite Z.mod_small.
  2:{ change Uint63.wB with (2 ^ 63)%Z.
      assert (2 ^ 53 < 2 ^ 63)%Z by (apply Z.pow_lt_mono_r; lia). lia. }
  destruct z as [|p|p]; try lia. cbn [binary_normalize]. unfold binary_round.
  pose proof (digits2_pos_bounds p) as Bp.
  assert (Zpos (digits2_pos p) <= 53)%Z as Hd.
  { destruct (Z.le_gt_cases (Zpos (digits2_pos p)) 53) as [|Hgt]; [assumption|].
    assert (2 ^ 53 <= 2 ^ (Zpos (digits2_pos p) - 1))%Z by (apply Z.pow_le_mono_r; lia).
    lia. }
  rewrite fexp_value. rewrite Z.max_l by lia.
  destruct (shl_align_value p 0 (Zpos (digits2_pos p) + 0 - 53)) as [Hm He]; [lia|].
  destruct (shl_align p 0 (Zpos (digits2_pos p) + 0 - 53)) as [mz ez].
  cbn [fst snd] in Hm, He. subst ez.
  replace (0 - (Zpos (digits2_pos p) + 0 - 53))%Z with (53 - Zpos (digits2_pos p))%Z in Hm by lia.
  assert (Zpos (digits2_pos mz) = 53)%Z as Hdz.
  { apply digits2_pos_unique. rewrite Hm.
    assert (2 ^ (53 - 1) = 2 ^ (Zpos (digits2_pos p) - 1) * 2 ^ (53 - Zpos (digits2_pos p)))%Z
      as -> by (rewrite <- Z.pow_add_r by lia; f_equal; lia).
    assert (2 ^ 53 = 2 ^ Zpos (digits2_pos p) * 2 ^ (53 - Zpos (digits2_pos p)))%Z
      as -> by (rewrite <- Z.pow_add_r by lia; f_equal; lia).
    assert (0 < 2 ^ (53 - Zpos (digits2_pos p)))%Z by (apply Z.pow_pos_nonneg; lia).
    nia. }
  rewrite binary_round_aux_exact by lia.
  split.
  - exists mz, (Zpos (digits2_pos p) + 0 - 53)%Z. repeat split; auto; lia.
  - cbn [B2R]. rewrite Rmult_1_l, Hm, mult_IZR, IZR_pow2 by lia.
    rewrite Rmult_assoc, <- powerRZ_2_add.
    replace (53 - Zpos (digits2_pos p) + (Zpos (digits2_pos p) + 0 - 53))%Z with 0%Z by lia.
    simpl. lra.
Qed.

Lemma Math_round_spec (f : float) (lo hi : Z) :
  normal lo hi (Prim2SF f) ->
  IZR (Math_round f) <= B2R (Prim2SF f) + / 2 < IZR (Math_round f) + 1.
Proof.
  intros (m & e & Hf & _ & _). unfold Math_round. rewrite Hf. cbn [B2R].
  rewrite Rmult_1_l.
  destruct (Z.leb_spec 0 e) as [He|He].
  - rewrite mult_IZR, IZR_pow2 by lia. lra.
  - set (D := (2 ^ (1 - e))%Z). set (N := (2 * Zpos m + 2 ^ (- e))%Z).
    assert (0 < D)%Z as HD by (apply Z.pow_pos_nonneg; lia).
    pose proof (Z.div_mod N D ltac:(lia)) as Hdm.
    pose proof (Z.mod_pos_bound N D HD) as Hmod.
    assert (IZR (N / D) * IZR D <= IZR N < (IZR (N / D) + 1) * IZR D) as [H1 H2].
    { change 1 with (IZR 1). rewrite <- plus_IZR, <- !mult_IZR.
      split; [apply IZR_le | apply IZR_lt]; lia. }
    assert (0 < IZR D) as HDr by (now apply IZR_lt).
    assert ((IZR (Zpos m) * powerRZ 2 e + / 2) * IZR D = IZR N) as Hv.
    { unfold N, D. rewrite plus_IZR, mult_IZR, !IZR_pow2 by lia.
      replace (1 - e)%Z with (1 + - e)%Z by lia.
      rewrite powerRZ_2_add.
      assert (powerRZ 2 e * powerRZ 2 (- e) = 1) as Hinv.
      { rewrite <- powerRZ_2_add. replace (e + - e)%Z with 0%Z by lia. reflexivity. }
      change (powerRZ 2 1) with (2 * 1).
      transitivity (2 * IZR (Zpos m) * (powerRZ 2 e * powerRZ 2 (- e)) + powerRZ 2 (- e));
        [field | rewrite Hinv; ring]. }
    split; apply Rmult_le_reg_r with (IZR D) || apply Rmult_lt_reg_r with (IZR D);
      try assumption; rewrite Hv; assumption.
Qed.

Lemma share_faithful (a n c : Z) :
  (0 < a < 2 ^ 53)%Z -> (0 < n < 2 ^ 53)%Z -> (0 < c < 2 ^ 53)%Z ->
  normal (-105) 55 (Prim2SF (share a n c))
  /\ IZR a / IZR n * IZR c * ((1 - eps) * (1 - eps))
     <= B2R (Prim2SF (share a n c))
     <= IZR a / IZR n * IZR c * ((1 + eps) * (1 + eps)).
Proof.
  intros Ha Hn Hc. unfold share. rewrite mul_spec, div_spec.
  destruct (Number_normal a Ha) as [Na Va].
  destruct (Number_normal n Hn) as [Nn Vn].
  destruct (Number_normal c Hc) as [Nc Vc].
  destruct (SFdiv_faithful _ _ _ _ _ _ Na Nn) as [Nd [Dl Du]]; [lia | lia |].
  destruct (SFmul_faithful _ _ _ _ _ _ Nd Nc) as [Nm [Ml Mu]]; [lia | lia |].
  split.
  - destruct Nm as (m & e & Hm & Hd & He). exists m, e. repeat split; auto; lia.
  - unfold SF64mul, SF64div. rewrite Va, Vn, Vc in *.
    pose proof (normal_positive _ _ _ Nd) as Hdpos.
    assert (0 < IZR c) as Hcp by (apply IZR_lt; lia).
    assert (0 < IZR a / IZR n) as Hq.
    { apply Rdiv_lt_0_compat; apply IZR_lt; lia. }
    assert (0 < eps < 1) as He by (unfold eps; lra).
    split.
    + eapply Rle_trans; [|exact Ml].
      rewrite <- Rmult_assoc. apply Rmult_le_compat_r; [lra|].
      replace (IZR a / IZR n * IZR c * (1 - eps))
        with (IZR a / IZR n * (1 - eps) * IZR c) by ring.
      apply Rmult_le_compat_r; lra.
    + eapply Rle_trans; [exact Mu|].
      rewrite <- Rmult_assoc. apply Rmult_le_compat_r; [lra|].
      replace (IZR a / IZR n * IZR c * (1 + eps))
        with (IZR a / IZR n * (1 + eps) * IZR c) by ring.
      apply Rmult_le_compat_r; lra.
Qed.

Lemma Math_round_share_le (a b n c : Z) :
  (0 < a <= b)%Z -> (b <= n)%Z -> (n < 2 ^ 32)%Z -> (0 < c < 2 ^ 32)%Z ->
  (Math_round (share a n c) <= Math_round (share b n c))%Z.
Proof.
  intros Ha Hb Hn Hc.
  destruct (Z.eq_dec a b) as [->|Hab]; [lia|].
  assert (2 ^ 32 < 2 ^ 53)%Z by (apply Z.pow_lt_mono_r; lia).
  destruct (share_faithful a n c) as [Na [_ Ua]]; try lia.
  destruct (share_faithful b n c) as [Nb [Lb _]]; try lia.
  pose proof (Math_round_spec _ _ _ Na) as [Ra _].
  pose proof (Math_round_spec _ _ _ Nb) as [_ Rb].
  assert (IZR a / IZR n * IZR c * ((1 + eps) * (1 + eps))
          <= IZR b / IZR n * IZR c * ((1 - eps) * (1 - eps))) as Hgap.
  { assert (0 < IZR n) as Hnp by (apply IZR_lt; lia).
    assert (0 < IZR c) as Hcp by (apply IZR_lt; lia).
    assert (0 < IZR a) as Hap by (apply IZR_lt; lia).
    assert (IZR a <= 4294967296) as Ha32.
    { change 4294967296 with (IZR (2 ^ 32)). apply IZR_le. lia. }
    assert (IZR a + 1 <= IZR b) as Hstep.
    { change 1 with (IZR 1). rewrite <- plus_IZR. apply IZR_le. lia. }
    assert (IZR a * ((1 + eps) * (1 + eps)) <= IZR b * ((1 - eps) * (1 - eps))) as Hk.
    { unfold eps. lra. }
    unfold Rdiv.
    replace (IZR a * / IZR n * IZR c * ((1 + eps) * (1 + eps)))
      with (IZR a * ((1 + eps) * (1 + eps)) * (/ IZR n * IZR c)) by ring.
    replace (IZR b * / IZR n * IZR c * ((1 - eps) * (1 - eps)))
      with (IZR b * ((1 - eps) * (1 - eps)) * (/ IZR n * IZR c)) by ring.
    apply Rmult_le_compat_r; [|exact Hk].
    apply Rmult_le_pos; [left; now apply Rinv_0_lt_compat | lra]. }
  apply Z.lt_succ_r. apply lt_IZR. rewrite succ_IZR. lra.
Qed.

Lemma Math_round_share_range (a n c : Z) :
  (0 < a <= n)%Z -> (n < 2 ^ 32)%Z -> (0 < c <= 100)%Z ->
  (0 <= Math_round (share a n c) <= c)%Z.
Proof.
  intros Ha Hn Hc.
  assert (2 ^ 32 < 2 ^ 53)%Z by (apply Z.pow_lt_mono_r; lia).
  destruct (share_faithful a n c) as [Na [La Ua]]; try lia.
  pose proof (Math_round_spec _ _ _ Na) as [Rl Ru].
  pose proof (normal_positive _ _ _ Na) as Hpos.
  assert (0 < IZR n) as Hnp by (apply IZR_lt; lia).
  assert (0 < IZR a <= IZR n) as Hap by (split; [apply IZR_lt | apply IZR_le]; lia).
  assert (0 < IZR c <= 100) as Hcp.
  { split; [apply IZR_lt; lia|]. change 100 with (IZR 100). apply IZR_le. lia. }
  assert (IZR a / IZR n <= 1) as Hq.
  { apply Rdiv_lt || idtac. unfold Rdiv. apply Rmult_le_reg_r with (IZR n); [lra|].
    rewrite Rmult_assoc, Rinv_l by lra. lra. }
  assert (0 < IZR a / IZR n) as Hq0 by (apply Rdiv_lt_0_compat; lra).
  split.
  - apply Z.lt_succ_r. apply lt_IZR. rewrite succ_IZR. simpl. lra.
  - apply Z.lt_succ_r. apply lt_IZR. rewrite succ_IZR.
    assert (IZR a / IZR n * IZR c * ((1 + eps) * (1 + eps)) < IZR c + / 2).
    { assert (0 <= IZR a / IZR n * IZR c <= IZR c) as HX by nra.
      assert ((1 + eps) * (1 + eps) <= 1 + / 1000) as HK by (unfold eps; lra).
      apply Rle_lt_trans with (IZR a / IZR n * IZR c * (1 + / 1000));
        [apply Rmult_le_compat_l; lra | lra]. }
    lra.
Qed.

End Rounding.

(** ** The similarity *)

Section Cosine.

Local Open Scope float_scope.

Lemma cosine_sums_magA (vecA : list float) :
  forall vecB d ma mb, length vecA = length vecB ->
    snd (fst (cosine_sums vecA vecB d ma mb))
    = fold_left (fun acc x => acc + x * x) vecA ma.
Proof.
  induction vecA as [|a vecA IH]; intros [|b vecB] d ma mb Hlen;
    simpl in *; try discriminate; auto.
Qed.

Lemma cosine_sums_magB (vecA : list float) :
  forall vecB d ma mb, length vecA = length vecB ->
    snd (cosine_sums vecA vecB d ma mb)
    = fold_left (fun acc x => acc + x * x) vecB mb.
Proof.
  induction vecA as [|a vecA IH]; intros [|b vecB] d ma mb Hlen;
    simpl in *; try discriminate; auto.
Qed.

Lemma cosineSimilarity_mismatch (vecA vecB : list float) :
  length vecA <> length vecB -> cosineSimilarity vecA vecB = -1.
Proof.
  intros Hlen. unfold cosineSimilarity.
  destruct (Nat.eqb_spec (length vecA) (length vecB)); [contradiction | reflexivity].
Qed.

(** C8. When the two vectors have the same length and the magnitude computed
    for one of them is exactly zero, [cosineSimilarity] returns 0: it neither
    divides by zero nor yields NaN, and it has no failing path. *)
Theorem cosineSimilarity_zero_magnitude (vecA vecB : list float) :
  length vecA = length vecB ->
  (magnitude vecA =? 0) = true \/ (magnitude vecB =? 0) = true ->
  cosineSimilarity vecA vecB = 0 /\ is_nan (cosineSimilarity vecA vecB) = false.
Proof.
  intros Hlen Hzero.
  assert (cosineSimilarity vecA vecB = 0) as ->; [|split; reflexivity].
  unfold cosineSimilarity. rewrite Hlen, Nat.eqb_refl. simpl.
  pose proof (cosine_sums_magA vecA vecB 0 0 0 Hlen) as HA.
  pose proof (cosine_sums_magB vecA vecB 0 0 0 Hlen) as HB.
  destruct (cosine_sums vecA vecB 0 0 0) as [[d ma] mb]. simpl in HA, HB.
  subst ma mb. fold (magnitude vecA) (magnitude vecB).
  destruct Hzero as [-> | ->]; [reflexivity | now rewrite orb_true_r].
Qed.

Lemma cosineSimilarity_zero_magnitude_witness :
  (length [0; -0] = length [3; 4]%float
   /\ ((magnitude [0; -0] =? 0) = true \/ (magnitude [3; 4] =? 0) = true))
  /\ cosineSimilarity [0; -0] [3; 4] = 0
  /\ is_nan (cosineSimilarity [0; -0] [3; 4]) = false.
Proof.
  split.
  - split; [reflexivity | left; vm_compute; reflexivity].
  - apply cosineSimilarity_zero_magnitude; [reflexivity | left; vm_compute; reflexivity].
Defined.

End Cosine.

(** ** The stable sort *)

Section SortFacts.

Variable A : Type.
Variable positive : A -> A -> bool.

Lemma insert_perm (x : A) (l : list A) :
  Permutation (insert positive x l) (x :: l).
Proof.
  induction l as [|y l IH]; simpl; [reflexivity|].
  destruct (positive x y); [|reflexivity].
  rewrite IH. apply perm_swap.
Qed.

Lemma sort_perm (l : list A) : Permutation (sort positive l) l.
Proof.
  induction l as [|x l IH]; simpl; [reflexivity|].
  rewrite insert_perm. now constructor.
Qed.

Lemma sort_length (l : list A) : length (sort positive l) = length l.
Proof. apply Permutation_length, sort_perm. Qed.

(** The sort commutes with a projection the comparator factors through. *)
Lemma sort_map (B : Type) (f : B -> A) (l : list B) :
  sort positive (map f l) = map f (sort (fun x y => positive (f x) (f y)) l).
Proof.
  induction l as [|x l IH]; simpl; [reflexivity|].
  rewrite IH. generalize (sort (fun x y => positive (f x) (f y)) l) as s.
  induction s as [|y s IHs]; simpl; [reflexivity|].
  destruct (positive (f x) (f y)); simpl; [now rewrite IHs | reflexivity].
Qed.

(** On elements where the comparator is a strict weak order, the sort orders
    by the comparator and keeps the elements it does not separate in their
    original order, which [pos] records. *)
Variable pos : A -> nat.
Variable U : A -> Prop.
Hypothesis asym :
  forall x y, U x -> U y -> positive x y = true -> positive y x = false.
Hypothesis negtrans :
  forall x y z, U x -> U y -> U z ->
    positive x y = false -> positive y z = false -> positive x z = false.

Lemma precedes_not_positive (x y : A) :
  U x -> U y -> (sorted_before positive pos) x y -> positive x y = false.
Proof. intros Hx Hy [H | [H _]]; auto. Qed.

Lemma insert_sorted (x : A) (l : list A) :
  U x -> Forall U l -> Forall (fun y => (pos x < pos y)%nat) l ->
  StronglySorted (sorted_before positive pos) l ->
  StronglySorted (sorted_before positive pos) (insert positive x l).
Proof.
  intros Hx. induction l as [|y l IH]; intros HU Hpos Hs; simpl.
  - repeat constructor.
  - inversion HU as [|? ? Hy HU']; subst.
    inversion Hpos as [|? ? Hxy Hpos']; subst.
    inversion Hs as [|? ? Hs' Hall]; subst.
    destruct (positive x y) eqn:E.
    + constructor; [auto|].
      eapply Permutation_Forall; [symmetry; apply insert_perm|].
      constructor; [left; exact E | exact Hall].
    + constructor; [exact Hs|].
      constructor; [right; auto|].
      rewrite Forall_forall in *. intros z Hz. right. split.
      * apply negtrans with y; auto. apply precedes_not_positive; auto.
      * auto.
Qed.

Lemma sort_sorted (l : list A) :
  Forall U l -> StronglySorted (fun x y => (pos x < pos y)%nat) l ->
  StronglySorted (sorted_before positive pos) (sort positive l).
Proof.
  induction l as [|x l IH]; intros HU Hs; simpl; [constructor|].
  inversion HU; subst. inversion Hs; subst.
  apply insert_sorted; auto.
  - eapply Permutation_Forall; [symmetry; apply sort_perm | assumption].
  - eapply Permutation_Forall; [symmetry; apply sort_perm | assumption].
Qed.

End SortFacts.

Section SortedLists.

Variable A : Type.
Variable R R' : A -> A -> Prop.

Lemma StronglySorted_weaken (l : list A) :
  (forall x y, In x l -> In y l -> R x y -> R' x y) ->
  StronglySorted R l -> StronglySorted R' l.
Proof.
  induction l as [|x l IH]; intros Himp Hs; [constructor|].
  inversion Hs as [|? ? Hs' Hall]; subst. constructor.
  - apply IH; [|assumption]. intros; apply Himp; simpl; auto.
  - rewrite Forall_forall in *. intros y Hy. apply Himp; simpl; auto.
Qed.

(** A list has at most one arrangement sorted by an asymmetric relation. *)
Lemma StronglySorted_unique (l1 : list A) :
  forall l2, Permutation l1 l2 ->
    (forall x y, In x l1 -> In y l1 -> R x y -> R y x -> False) ->
    StronglySorted R l1 -> StronglySorted R l2 -> l1 = l2.
Proof.
  induction l1 as [|x t1 IH]; intros l2 Hp Hasym H1 H2.
  - apply Permutation_nil in Hp. now subst.
  - destruct l2 as [|y t2].
    + symmetry in Hp. apply Permutation_nil in Hp. discriminate.
    + inversion H1 as [|? ? H1' Hx]; subst. inversion H2 as [|? ? H2' Hy]; subst.
      rewrite Forall_forall in Hx, Hy.
      assert (x = y) as <-.
      { assert (In x (y :: t2)) as [<- | Hin]
          by (eapply Permutation_in; [exact Hp | now left]); [reflexivity|].
        assert (In y (x :: t1)) as [-> | Hin']
          by (eapply Permutation_in; [symmetry; exact Hp | now left]); [reflexivity|].
        exfalso. apply (Hasym x y); simpl; auto. }
      f_equal. apply IH; auto.
      * eapply Permutation_cons_inv; exact Hp.
      * intros a b Ha Hb. apply Hasym; simpl; auto.
Qed.

End SortedLists.

(** ** Arrays *)

Lemma len_nonneg {A} (l : list A) : (0 <= len l)%Z.
Proof. unfold len. lia. Qed.

Lemma slice_prefix {A} (l : list A) (k : Z) :
  (0 <= k)%Z -> slice l 0 k = firstn (Z.to_nat (Z.min k (len l))) l.
Proof.
  intros Hk. unfold slice, relative. pose proof (len_nonneg l).
  destruct (Z.ltb_spec k 0); [lia|].
  destruct (Z.ltb_spec 0 0); [lia|].
  rewrite (Z.min_l 0) by lia. simpl. now rewrite Z.sub_0_r.
Qed.

Lemma slice_window {A} (l : list A) (i n : Z) :
  (0 <= i)%Z -> (0 <= n)%Z ->
  slice l i (i + n) = firstn (Z.to_nat n) (skipn (Z.to_nat i) l).
Proof.
  intros Hi Hn. unfold slice, relative. pose proof (len_nonneg l) as Hl.
  destruct (Z.ltb_spec i 0); [lia|]. destruct (Z.ltb_spec (i + n) 0); [lia|].
  unfold len in *.
  destruct (Z.le_gt_cases i (Z.of_nat (length l))) as [Hin|Hin].
  - rewrite (Z.min_l i) by lia.
    destruct (Z.le_gt_cases (i + n) (Z.of_nat (length l))).
    + rewrite Z.min_l by lia. f_equal. lia.
    + rewrite Z.min_r by lia.
      rewrite !firstn_all2; try reflexivity; rewrite length_skipn; lia.
  - rewrite !Z.min_r by lia. rewrite Z.sub_diag. simpl.
    rewrite skipn_all2 by lia. now rewrite firstn_nil.
Qed.

Lemma slice_window_len {A} (l : list A) (i n : Z) :
  (0 <= i)%Z -> (0 <= n)%Z ->
  len (slice l i (i + n)) = Z.max 0 (Z.min n (len l - i)).
Proof.
  intros Hi Hn. rewrite slice_window by assumption. unfold len.
  rewrite length_firstn, length_skipn. lia.
Qed.

Lemma map_snd_positions (cs : list DocumentChunk) :
  map snd (positions cs) = cs.
Proof.
  unfold positions. generalize 0%nat.
  induction cs as [|c cs IH]; intros n; simpl; [reflexivity|].
  now rewrite IH.
Qed.

Lemma positions_ascending (cs : list DocumentChunk) :
  StronglySorted (fun x y : nat * DocumentChunk => (fst x < fst y)%nat) (positions cs).
Proof.
  unfold positions. generalize 0%nat.
  induction cs as [|c cs IH]; intros n; simpl; constructor; [apply IH|].
  rewrite Forall_forall. intros [i d] Hin. apply in_combine_l in Hin.
  apply in_seq in Hin. simpl. lia.
Qed.

Lemma in_positions (cs : list DocumentChunk) (c : DocumentChunk) :
  In c cs <-> exists i, In (i, c) (positions cs).
Proof.
  rewrite <- (map_snd_positions cs) at 1. rewrite in_map_iff. split.
  - intros [[i d] [Heq Hin]]. simpl in Heq. subst. eauto.
  - intros [i Hin]. exists (i, c). auto.
Qed.

(** ** The index *)

Section Search.

Local Open Scope float_scope.

Variable q : list float.

Lemma search_sorted (k : Z) (db : InMemoryVectorDB) :
  (0 <= k)%Z ->
  fst (search q k db)
  = map snd (firstn (Z.to_nat (Z.min k (len (chunks db))))
                    (sort (positive_at q) (positions (chunks db)))).
Proof.
  intros Hk. unfold search, VectorDb.bind, VectorDb.ret, get_chunks.
  destruct (Z.eqb_spec (len (chunks db)) 0) as [E|E].
  - destruct (chunks db); [|discriminate]. simpl. now rewrite firstn_nil.
  - rewrite slice_prefix by assumption. simpl.
    assert (map (fun c => {| chunk := c;
                             similarity := cosineSimilarity q (embedding c) |})
                (chunks db)
            = map (fun p : nat * DocumentChunk =>
                     {| chunk := snd p;
                        similarity := cosineSimilarity q (embedding (snd p)) |})
                  (positions (chunks db))) as ->.
    { rewrite <- (map_snd_positions (chunks db)) at 1. now rewrite map_map. }
    rewrite sort_map. unfold len.
    rewrite length_map, sort_length, <- firstn_map, map_map. simpl.
    unfold positions at 1. rewrite length_combine, length_seq, Nat.min_id.
    now rewrite firstn_map.
Qed.

Lemma search_frame_state (k : Z) (db : InMemoryVectorDB) :
  snd (search q k db) = db.
Proof.
  unfold search, VectorDb.bind, VectorDb.ret, get_chunks.
  destruct (len (chunks db) =? 0)%Z; reflexivity.
Qed.

Variable cs : list DocumentChunk.
Hypothesis Hnum : all_numbers q cs = true.

Lemma score_is_number (x : DocumentChunk) : In x cs -> is_nan (score q x) = false.
Proof.
  intros Hx. unfold all_numbers in Hnum. rewrite forallb_forall in Hnum.
  apply negb_true_iff. now apply Hnum.
Qed.

Lemma comparator_is_order (x y : DocumentChunk) :
  In x cs -> In y cs ->
  (0 <? score q y - score q x) = (score q x <? score q y).
Proof. intros Hx Hy. apply difference_sign; now apply score_is_number. Qed.

Lemma equal_is_unordered (x y : DocumentChunk) :
  In x cs -> In y cs ->
  (score q x =? score q y)
  = negb (score q x <? score q y) && negb (score q y <? score q x).
Proof. intros Hx Hy. apply eqb_unordered; now apply score_is_number. Qed.

Lemma order_asymmetric (x y : DocumentChunk) :
  (score q x <? score q y) = true -> (score q y <? score q x) = false.
Proof. apply ltb_asymmetric. Qed.

Lemma order_negatively_transitive (x y z : DocumentChunk) :
  In x cs -> In y cs -> In z cs ->
  (score q x <? score q y) = false -> (score q y <? score q z) = false ->
  (score q x <? score q z) = false.
Proof.
  intros Hx Hy Hz. apply ltb_negatively_transitive; now apply score_is_number.
Qed.

Lemma positions_stored : Forall (stored_in cs) (positions cs).
Proof.
  rewrite Forall_forall. intros [i c] Hin. unfold stored_in. simpl.
  apply in_positions. eauto.
Qed.

(** The sorted array of [search] is a ranking of the stored chunks. *)
Lemma sort_ranking : ranking q cs (sort (positive_at q) (positions cs)).
Proof.
  split; [apply sort_perm|].
  assert (Forall (stored_in cs) (sort (positive_at q) (positions cs))) as Hst.
  { eapply Permutation_Forall; [symmetry; apply sort_perm | apply positions_stored]. }
  apply StronglySorted_weaken with (R := sorted_before (positive_at q) fst).
  - rewrite Forall_forall in Hst.
    intros x y Hx%Hst Hy%Hst [H | [H Hpos]]; unfold positive_at, stored_in in *.
    + left. now rewrite <- comparator_is_order.
    + rewrite comparator_is_order in H by assumption.
      destruct (score q (snd y) <? score q (snd x)) eqn:E; [now left|].
      right. split; [|assumption].
      rewrite equal_is_unordered by assumption. now rewrite H, E.
  - apply sort_sorted with (U := (stored_in cs)).
    + unfold positive_at, stored_in. intros x y Hx Hy.
      rewrite !comparator_is_order by assumption. apply order_asymmetric.
    + unfold positive_at, stored_in. intros x y z Hx Hy Hz.
      rewrite !comparator_is_order by assumption.
      now apply order_negatively_transitive.
    + apply positions_stored.
    + apply positions_ascending.
Qed.

Lemma ranks_before_asymmetric (x y : nat * DocumentChunk) :
  (stored_in cs) x -> (stored_in cs) y -> ranks_before q x y -> ranks_before q y x -> False.
Proof.
  unfold stored_in, ranks_before. intros Hx Hy [H1 | [H1 P1]] [H2 | [H2 P2]].
  - rewrite (order_asymmetric _ _ H1) in H2. discriminate.
  - rewrite equal_is_unordered, H1 in H2 by assumption. discriminate.
  - rewrite equal_is_unordered, H2 in H1 by assumption. discriminate.
  - lia.
Qed.

(** The ranking is unique. *)
Lemma ranking_unique (L : list (nat * DocumentChunk)) :
  ranking q cs L -> L = sort (positive_at q) (positions cs).
Proof.
  intros [Hp Hs]. destruct sort_ranking as [Hp' Hs'].
  apply StronglySorted_unique with (R := ranks_before q); auto.
  - now rewrite Hp, Hp'.
  - assert (Forall (stored_in cs) L) as Hst.
    { eapply Permutation_Forall; [symmetry; exact Hp | apply positions_stored]. }
    rewrite Forall_forall in Hst.
    intros x y Hx%Hst Hy%Hst. now apply ranks_before_asymmetric.
Qed.

End Search.

Lemma StronglySorted_after {A} (R : A -> A -> Prop) (l1 l2 : list A) (a b : A) :
  StronglySorted R (l1 ++ a :: l2) -> In b l2 -> R a b.
Proof.
  induction l1 as [|c l1 IH]; simpl; intros Hs Hb.
  - inversion Hs as [|? ? _ Hall]; subst.
    rewrite Forall_forall in Hall. now apply Hall.
  - inversion Hs; subst. now apply IH.
Qed.

(** [slice(0, k)] keeps a prefix, and so does [search] of its full result. *)
Lemma slice_from_start {A} (l : list A) (k : Z) :
  slice l 0 k = firstn (Z.to_nat (kept (len l) k)) l.
Proof.
  unfold slice, relative, kept. pose proof (len_nonneg l).
  destruct (Z.ltb_spec 0 0); [lia|]. rewrite (Z.min_l 0) by lia.
  simpl skipn. now rewrite Z.sub_0_r.
Qed.

Lemma search_prefix (q : list float) (k : Z) (db : InMemoryVectorDB) :
  fst (search q k db)
  = firstn (Z.to_nat (kept (len (chunks db)) k))
           (fst (search q (len (chunks db)) db)).
Proof.
  unfold search, VectorDb.bind, VectorDb.ret, get_chunks.
  destruct (Z.eqb_spec (len (chunks db)) 0) as [E|E].
  - simpl. now rewrite firstn_nil.
  - cbn [fst]. rewrite !slice_from_start.
    set (S := sort _ _).
    assert (len S = len (chunks db)) as HS.
    { unfold S, len. now rewrite sort_length, length_map. }
    rewrite HS. rewrite <- !firstn_map.
    rewrite (firstn_all2 (n := Z.to_nat (kept (len (chunks db)) (len (chunks db))))).
    + reflexivity.
    + rewrite length_map. unfold kept. pose proof (len_nonneg (chunks db)).
      destruct (Z.ltb_spec (len (chunks db)) 0); [lia|].
      unfold len in *. lia.
Qed.

Section Claims_on_search.

Local Open Scope float_scope.

(** C6, as the code has it. For [k >= 0] and an index none of whose
    similarities to the query is NaN, there is exactly one arrangement of
    the stored chunks by descending similarity with equal similarities in
    insertion order, and [search] returns its first [min k n] chunks; for
    [k >= n] it returns all of it. *)
Theorem search_returns_top_k (q : list float) (k : Z) (db : InMemoryVectorDB) :
  (0 <= k)%Z ->
  all_numbers q (chunks db) = true ->
  exists L,
    ranking q (chunks db) L
    /\ (forall L', ranking q (chunks db) L' -> L' = L)
    /\ fst (search q k db)
       = map snd (firstn (Z.to_nat (Z.min k (len (chunks db)))) L)
    /\ ((len (chunks db) <= k)%Z -> fst (search q k db) = map snd L).
Proof.
  intros Hk Hnum.
  exists (sort (positive_at q) (positions (chunks db))).
  pose proof (sort_ranking q (chunks db) Hnum) as Hr.
  repeat split; try apply Hr.
  - intros L' HL'. now apply ranking_unique.
  - now apply search_sorted.
  - intros Hall. rewrite search_sorted by assumption.
    rewrite Z.min_r by assumption. unfold len. rewrite Nat2Z.id.
    rewrite firstn_all2; [reflexivity|].
    rewrite sort_length. unfold positions.
    rewrite length_combine, length_seq. lia.
Qed.

Lemma search_returns_top_k_witness :
  let db := {| chunks := [odd_one; opposite; aligned; opposite] |} in
  ((0 <= 3)%Z /\ all_numbers [1] (chunks db) = true)
  /\ exists L,
       ranking [1] (chunks db) L
       /\ (forall L', ranking [1] (chunks db) L' -> L' = L)
       /\ fst (search [1] 3 db)
          = map snd (firstn (Z.to_nat (Z.min 3 (len (chunks db)))) L)
       /\ ((len (chunks db) <= 3)%Z -> fst (search [1] 3 db) = map snd L).
Proof.
  split.
  - split; [lia | vm_compute; reflexivity].
  - apply search_returns_top_k; [lia | vm_compute; reflexivity].
Defined.

(** C10. [search] leaves the index as it found it: the same segments in the
    same order, the same answer of [isReady], and the same result when the
    call is repeated. *)
Theorem search_preserves_index (q : list float) (k : Z) (db : InMemoryVectorDB) :
  snd (search q k db) = db
  /\ chunks (snd (search q k db)) = chunks db
  /\ fst (isReady (snd (search q k db))) = fst (isReady db)
  /\ fst (search q k (snd (search q k db))) = fst (search q k db).
Proof.
  rewrite search_frame_state. repeat split; reflexivity.
Qed.

(** In a search with [k >= 0] over an index none of whose similarities is
    NaN, every stored segment of similarity above -1 comes before a segment
    whose embedding has another length than the query. *)
Lemma mismatched_ranks_behind (q : list float) (k : Z) (db : InMemoryVectorDB)
    (x : DocumentChunk) (front back : list DocumentChunk) :
  (0 <= k)%Z ->
  all_numbers q (chunks db) = true ->
  length q <> length (embedding x) ->
  fst (search q k db) = front ++ x :: back ->
  forall y, In y (chunks db) -> (-1 <? score q y) = true -> In y front.
Proof.
  intros Hk Hnum Hlen Hres y Hy Hgt.
  rewrite search_sorted in Hres by assumption.
  destruct (sort_ranking q (chunks db) Hnum) as [Hp Hs].
  set (L := sort _ _) in *. set (m := Z.to_nat _) in *.
  apply map_eq_app in Hres. destruct Hres as (L1 & L2' & HL & H1 & H2).
  apply map_eq_cons in H2. destruct H2 as ([i x'] & L2 & -> & Hx' & _).
  simpl in Hx'. subst x'.
  assert (In x (chunks db)) as Hx.
  { apply in_positions. exists i. eapply Permutation_in; [exact Hp|].
    rewrite <- (firstn_skipn m L), HL. apply in_or_app. left.
    apply in_or_app. right. now left. }
  assert (score q x = -1) as Hsx by (apply cosineSimilarity_mismatch; exact Hlen).
  apply in_positions in Hy. destruct Hy as [j Hj].
  apply (Permutation_in _ (Permutation_sym Hp)) in Hj.
  rewrite <- (firstn_skipn m L), HL, <- app_assoc in Hj. simpl in Hj.
  apply in_app_or in Hj. destruct Hj as [Hj | [Hj | Hj]].
  - subst front. change y with (snd (j, y)). now apply in_map.
  - exfalso. inversion Hj; subst y. rewrite Hsx in Hgt. discriminate.
  - exfalso.
    rewrite <- (firstn_skipn m L), HL, <- app_assoc in Hs. simpl in Hs.
    assert (In y (chunks db)) as Hy.
    { apply in_positions. exists j. eapply Permutation_in; [exact Hp|].
      rewrite <- (firstn_skipn m L), HL, <- app_assoc. simpl.
      apply in_or_app. right. now right. }
    pose proof (StronglySorted_after _ _ _ _ _ Hs Hj) as [Hr | [Hr _]]; simpl in Hr.
    + rewrite <- Hsx in Hgt.
      rewrite (order_asymmetric q x y Hgt) in Hr.
      discriminate.
    + rewrite (equal_is_unordered q (chunks db) Hnum x y Hx Hy) in Hr.
      rewrite <- Hsx in Hgt. rewrite Hgt in Hr. discriminate.
Qed.

(** C1, as the code has it. For vectors of different lengths
    [cosineSimilarity] returns exactly -1. In a search, whatever its [k],
    over an index none of whose similarities to the query is NaN, a segment
    whose embedding has another length than the query is never returned
    ahead of a stored segment whose similarity is greater than -1: every
    such segment comes before it in the result. And in the ranking the
    result is cut from, it comes after every segment of similarity -1 that
    was stored before it: a tie goes to the segment stored first. *)
Theorem mismatch_scores_minus_one (q : list float) (k : Z) (db : InMemoryVectorDB) :
  all_numbers q (chunks db) = true ->
  (forall vecA vecB, length vecA <> length vecB -> cosineSimilarity vecA vecB = -1)
  /\ (forall x front back,
        length q <> length (embedding x) ->
        fst (search q k db) = front ++ x :: back ->
        forall y, In y (chunks db) -> (-1 <? score q y) = true -> In y front)
  /\ exists L,
       ranking q (chunks db) L
       /\ fst (search q k db)
          = map snd (firstn (Z.to_nat (kept (len (chunks db)) k)) L)
       /\ forall front i x back j y,
            L = front ++ (i, x) :: back ->
            length q <> length (embedding x) ->
            In (j, y) L -> score q y = -1 -> (j < i)%nat ->
            In (j, y) front.
Proof.
  intros Hnum. split; [exact cosineSimilarity_mismatch|]. split.
  - intros x front back Hlen Hres y Hy Hgt.
    rewrite search_prefix in Hres.
    set (full := fst (search q (len (chunks db)) db)) in *.
    set (m := Z.to_nat (kept (len (chunks db)) k)) in *.
    apply (mismatched_ranks_behind q (len (chunks db)) db x front (back ++ skipn m full));
      auto using len_nonneg.
    fold full. rewrite <- (firstn_skipn m full) at 1.
    rewrite Hres, <- app_assoc. reflexivity.
  - exists (sort (positive_at q) (positions (chunks db))).
    pose proof (sort_ranking q (chunks db) Hnum) as Hr.
    split; [exact Hr|]. split.
    + rewrite search_prefix, (search_sorted q _ db (len_nonneg _)), Z.min_id.
      rewrite (firstn_all2 (n := Z.to_nat (len (chunks db)))).
      * now rewrite firstn_map.
      * rewrite sort_length. unfold positions, len.
        rewrite length_combine, length_seq. lia.
    + destruct Hr as [_ Hs]. intros front i x back j y HL Hlen Hin Hy Hji.
      rewrite HL in Hin, Hs. apply in_app_or in Hin.
      destruct Hin as [Hin | [Heq | Hin]]; [assumption | |].
      * injection Heq as -> _. lia.
      * exfalso.
        pose proof (StronglySorted_after _ _ _ _ _ Hs Hin) as [Hlt | [_ Hij]];
          cbn [fst snd] in *; [|lia].
        unfold score in Hlt, Hy.
        rewrite Hy, (cosineSimilarity_mismatch _ _ Hlen) in Hlt. discriminate.
Qed.

Lemma mismatch_scores_minus_one_witness :
  let db := {| chunks := [opposite; odd_one; aligned] |} in
  all_numbers [1] (chunks db) = true
  /\ fst (search [1] 3 db) = [aligned; opposite; odd_one]
  /\ (forall vecA vecB, length vecA <> length vecB -> cosineSimilarity vecA vecB = -1)
  /\ (forall x front back,
        length [1] <> length (embedding x) ->
        fst (search [1] 3 db) = front ++ x :: back ->
        forall y, In y (chunks db) -> (-1 <? score [1] y) = true -> In y front)
  /\ exists L,
       ranking [1] (chunks db) L
       /\ fst (search [1] 3 db)
          = map snd (firstn (Z.to_nat (kept (len (chunks db)) 3)) L)
       /\ forall front i x back j y,
            L = front ++ (i, x) :: back ->
            length [1] <> length (embedding x) ->
            In (j, y) L -> score [1] y = -1 -> (j < i)%nat ->
            In (j, y) front.
Proof.
  split; [vm_compute; reflexivity|]. split; [vm_compute; reflexivity|].
  apply mismatch_scores_minus_one. vm_compute. reflexivity.
Defined.

(** C1, as stated, fails. The value returned for vectors of different
    lengths is -1, which is not below every value the function returns for
    vectors of one length. The pair [[1]], [[-1]] gives -1 as well, and the
    mismatched segment, stored first, wins that tie. The pair [[1; 1; 1]],
    [[-1; -1; -1]] gives a value below -1, by the rounding of the product of
    the two magnitudes, and the mismatched segment is returned in place of
    that segment although it was stored after it. And with a segment of
    similarity NaN between them, a mismatched segment stays ahead of a
    segment of similarity 1. *)
Lemma mismatch_sentinel_is_a_valid_cosine :
  cosineSimilarity [1] (embedding odd_one) = -1
  /\ (cosineSimilarity [1] (embedding odd_one) <? -1) = false
  /\ (length [1%float] = length (embedding opposite)
      /\ cosineSimilarity [1] (embedding opposite) = -1
      /\ fst (search [1] 1 {| chunks := [odd_one; opposite] |}) = [odd_one])
  /\ (length [1; 1; 1]%float = length (embedding inverse)
      /\ (cosineSimilarity [1; 1; 1] (embedding inverse) <? -1) = true
      /\ fst (search [1; 1; 1] 1 {| chunks := [inverse; odd_one] |}) = [odd_one])
  /\ (length [0x1p40%float] = length (embedding aligned)
      /\ is_nan (cosineSimilarity [0x1p40] (embedding enormous)) = true
      /\ cosineSimilarity [0x1p40] (embedding aligned) = 1
      /\ fst (search [0x1p40] 1 {| chunks := [odd_one; enormous; aligned] |})
         = [odd_one]).
Proof. vm_compute. repeat split; reflexivity. Qed.

(** C6, as stated, fails on an index with a similarity that is NaN, which
    vectors of finite numbers give when a product overflows: the query
    [[0x1p40]] has the similarities -1, NaN and 1 to the three stored
    segments, every comparison with NaN leaves the order as it is, and
    [search] returns the segments as stored, the one of similarity -1 ahead
    of the one of similarity 1. *)
Lemma nan_similarity_breaks_the_ranking :
  map (fun c => length (embedding c)) [opposite; enormous; aligned] = [1; 1; 1]%nat
  /\ score [0x1p40] opposite = -1
  /\ is_nan (score [0x1p40] enormous) = true
  /\ score [0x1p40] aligned = 1
  /\ (score [0x1p40] opposite <? score [0x1p40] aligned) = true
  /\ fst (search [0x1p40] 3 {| chunks := [opposite; enormous; aligned] |})
     = [opposite; enormous; aligned]
  /\ fst (search [0x1p40] 1 {| chunks := [opposite; enormous; aligned] |})
     = [opposite].
Proof. vm_compute. repeat split; reflexivity. Qed.

End Claims_on_search.

(** ** The embedding loop *)

Section Embedding.

Variables batchSize delay : Z.
Variable api : Service.
Variable texts : list jsstring.
Hypothesis batchSize_positive : (0 < batchSize)%Z.

Lemma handleError_mismatch :
  handleError "Mismatch between number of texts and embeddings received."
              "generate batch embeddings" = batch_failure.
Proof. reflexivity. Qed.

(** With enough iterations allowed, the loop ends, in one of the runs of
    [EmbedRun]. *)
Lemma embedLoop_runs (fuel : nat) :
  forall i processedCount w,
    (0 <= i)%Z ->
    (Z.to_nat (len texts - i) < fuel)%nat ->
    processedCount = i \/ (len texts <= i)%Z ->
    exists r w',
      embedLoop fuel batchSize delay api texts i processedCount w = (r, w')
      /\ EmbedRun batchSize delay api texts i w r w'.
Proof.
  induction fuel as [|fuel IH]; intros i pc w Hi0 Hfuel Hpc; [lia|].
  cbn [embedLoop]. destruct (Z.ltb_spec i (len texts)) as [Hi|Hi].
  - destruct Hpc as [-> | Hpc]; [|lia].
    unfold generateEmbeddings, embedContent, App.bind at 1 2.
    fold (batchAt batchSize texts i). fold (batchRequest (batchAt batchSize texts i)).
    destruct (api (length (requests w)) (batchRequest (batchAt batchSize texts i)))
      as [embs | message] eqn:Hapi.
    + destruct (Z.eqb_spec (len embs) (len (batchAt batchSize texts i))) as [Hlen|Hlen].
      * destruct (IH (i + batchSize)%Z (i + len (batchAt batchSize texts i))%Z
                    (committed batchSize delay texts i embs w)) as (r & w' & Hrun & HR).
        { lia. }
        { lia. }
        { destruct (Z.le_gt_cases (len texts) (i + batchSize)); [now right | left].
          unfold batchAt. rewrite slice_window_len; lia. }
        exists r, w'. split; [|eapply EmbedRun_batch; eassumption].
        rewrite <- Hrun. unfold committed, App.ret, App.bind, onVectorDB, setProgress, sleep.
        simpl. destruct (i + batchSize <? len texts)%Z; reflexivity.
      * exists (Thrown batch_failure), (sent (batchRequest (batchAt batchSize texts i)) w).
        split; [reflexivity | now apply EmbedRun_mismatch with embs].
    + exists (Thrown (handleError message "generate batch embeddings")),
             (sent (batchRequest (batchAt batchSize texts i)) w).
      split; [reflexivity | now apply EmbedRun_rejected].
  - exists (Returned tt), w. split; [reflexivity | now apply EmbedRun_done].
Qed.

End Embedding.

(** ** The chunker *)

Lemma substring_window (s : jsstring) (i n : Z) :
  (0 <= i)%Z -> (0 <= n)%Z ->
  substring s i (i + n) = firstn (Z.to_nat n) (skipn (Z.to_nat i) s).
Proof.
  intros Hi Hn. rewrite <- slice_window by assumption.
  unfold substring, slice, relative. pose proof (len_nonneg s).
  destruct (Z.ltb_spec i 0); [lia|]. destruct (Z.ltb_spec (i + n) 0); [lia|].
  f_equal; [|f_equal]; lia.
Qed.

Lemma rawChunksLoop_acc (size overlap : Z) (fullText : jsstring) (fuel : nat) :
  forall i rawChunks,
    rawChunksLoop fuel size overlap fullText i rawChunks
    = option_map (app rawChunks) (rawChunksLoop fuel size overlap fullText i []).
Proof.
  induction fuel as [|fuel IH]; intros i acc; simpl;
    destruct (i <? len fullText)%Z; simpl;
    try reflexivity; try now rewrite app_nil_r.
  rewrite IH. rewrite (IH _ [_]).
  destruct (rawChunksLoop fuel size overlap fullText _ []); simpl; [|reflexivity].
  now rewrite <- app_assoc.
Qed.

Section Chunking.

Variables size overlap : Z.
Variable fullText : jsstring.
Hypothesis compatible : (0 <= overlap < size)%Z.

(** From offset [i] on, the loop ends within one iteration per remaining
    code unit, and its windows, each without its first [overlap] code units,
    are the text from [i + overlap] on. *)
Lemma rawChunksLoop_rest (fuel : nat) :
  forall i,
    (0 <= i)%Z -> (Z.to_nat (len fullText - i) < fuel)%nat ->
    exists windows,
      rawChunksLoop fuel size overlap fullText i [] = Some windows
      /\ concat (map (skipn (Z.to_nat overlap)) windows)
         = skipn (Z.to_nat (i + overlap)) fullText
      /\ (length windows <= Z.to_nat (len fullText - i))%nat.
Proof.
  induction fuel as [|fuel IH]; intros i Hi Hfuel; [lia|].
  cbn [rawChunksLoop]. destruct (Z.ltb_spec i (len fullText)) as [Hlt|Hge].
  - destruct (IH (i + (size - overlap))%Z) as (ws & Hws & Hcat & Hlen); [lia | lia |].
    rewrite rawChunksLoop_acc, Hws. simpl.
    eexists. split; [reflexivity|]. split; [|simpl; lia].
    simpl. rewrite Hcat.
    replace (i + size)%Z with (i + (size - overlap + overlap))%Z by lia.
    rewrite substring_window by lia.
    rewrite skipn_firstn_comm, skipn_skipn.
    replace (Z.to_nat (size - overlap + overlap) - Z.to_nat overlap)%nat
      with (Z.to_nat (size - overlap)) by lia.
    replace (Z.to_nat (i + (size - overlap) + overlap))
      with (Z.to_nat (size - overlap) + (Z.to_nat overlap + Z.to_nat i))%nat by lia.
    rewrite <- (skipn_skipn (Z.to_nat (size - overlap))).
    rewrite firstn_skipn. f_equal. lia.
  - exists []. split; [reflexivity|]. split; [|simpl; lia].
    simpl. unfold len in Hge. rewrite skipn_all2 by lia. reflexivity.
Qed.

Lemma rawChunksLoop_rejoin (fuel : nat) :
  (length fullText < fuel)%nat ->
  exists rawChunks,
    rawChunksLoop fuel size overlap fullText 0 [] = Some rawChunks
    /\ rejoin overlap rawChunks = fullText
    /\ (length rawChunks <= length fullText)%nat.
Proof.
  intros Hfuel. destruct fuel as [|fuel]; [lia|].
  cbn [rawChunksLoop]. destruct (Z.ltb_spec 0 (len fullText)) as [Hlt|Hge].
  - destruct (rawChunksLoop_rest fuel (0 + (size - overlap)))
      as (ws & Hws & Hcat & Hlen); [lia | unfold len in *; lia |].
    rewrite rawChunksLoop_acc, Hws. simpl.
    eexists. split; [reflexivity|]. split; [|unfold len in *; simpl; lia].
    simpl. rewrite Hcat.
    change size with (0 + size)%Z at 1.
    rewrite substring_window by lia.
    replace (Z.to_nat (0 + (size - overlap) + overlap)) with (Z.to_nat size) by lia.
    apply firstn_skipn.
  - exists []. unfold len in Hge. destruct fullText; [|simpl in Hge; lia].
    repeat split; reflexivity || (simpl; lia).
Qed.

End Chunking.




(** ** handleFileChange *)

Lemma readPages_reports (numPages : Z) (pages : list Page) :
  forall i fullText w,
    readPages numPages pages i fullText w
    = (Returned (fullText ++ extractText pages), pagesReported numPages pages i w).
Proof.
  induction pages as [|page pages IH]; intros i fullText w; simpl.
  - now rewrite app_nil_r.
  - unfold App.bind, setProgress. rewrite IH. now rewrite <- !app_assoc.
Qed.

Lemma EmbedRun_ends (batchSize delay : Z) (api : Service) (texts : list jsstring)
    (i : Z) (w w' : World) (r : Outcome unit) :
  EmbedRun batchSize delay api texts i w r w' -> r <> Pending.
Proof. induction 1; auto; discriminate. Qed.

(** With compatible chunking parameters, a positive batch size and one
    iteration allowed per code unit of the text, [handleFileChange] returns:
    in the world the embedding loop left, concluded by its outcome. *)
Lemma handleFileChangeWith_runs (size overlap batchSize delay : Z) (fuel : nat)
    (api : Service) (pages : list Page) (w : World) :
  (0 <= overlap < size)%Z -> (0 < batchSize)%Z ->
  (length (extractText pages) < fuel)%nat ->
  exists rawChunks r w',
    rawChunksLoop fuel size overlap (extractText pages) 0 [] = Some rawChunks
    /\ EmbedRun batchSize delay api (filter nonEmpty rawChunks) 0 (prepared pages w) r w'
    /\ handleFileChangeWith size overlap batchSize delay fuel api pages w
       = (Returned tt, concluded r w').
Proof.
  intros Hc Hb Hfuel.
  destruct (rawChunksLoop_rejoin size overlap (extractText pages) Hc fuel Hfuel)
    as (raw & Hraw & _ & Hlen).
  destruct (embedLoop_runs batchSize delay api (filter nonEmpty raw) Hb fuel 0 0
              (prepared pages w)) as (r & w' & Hloop & Hrun).
  { lia. }
  { pose proof (filter_length_le nonEmpty raw). unfold len. lia. }
  { now left. }
  exists raw, r, w'. split; [assumption|]. split; [assumption|].
  unfold handleFileChangeWith, App.bind at 1 2 3, setError, setAppState, onVectorDB.
  simpl. unfold try_catch, App.bind at 1 2, setProgress.
  rewrite readPages_reports. simpl.
  unfold chunkText. rewrite Hraw. unfold App.bind at 1, App.ret at 1.
  unfold prepared in Hloop. unfold App.bind at 1. simpl in Hloop |- *.
  rewrite Hloop. pose proof (EmbedRun_ends _ _ _ _ _ _ _ _ Hrun) as Hend.
  destruct r as [[]| |]; [reflexivity | reflexivity | contradiction].
Qed.

(** ** Runs of the embedding loop *)

Lemma map_text_mapi_from (f : Z -> Z) (g : Z -> list float) (batch : list jsstring) :
  forall k,
    map text (mapi_from (fun t index => {| id := f index; text := t; embedding := g index |})
                        k batch) = batch.
Proof.
  induction batch as [|t batch IH]; intros k; simpl; [reflexivity|].
  now rewrite IH.
Qed.

Lemma filter_twice {A} (f : A -> bool) (l : list A) :
  filter f (filter f l) = filter f l.
Proof.
  apply forallb_filter_id, forallb_forall. intros x Hx.
  now apply filter_In in Hx.
Qed.

Lemma firstn_add {A} (a b : nat) (l : list A) :
  firstn (a + b) l = firstn a l ++ firstn b (skipn a l).
Proof.
  revert l. induction a as [|a IH]; intros l; simpl; [reflexivity|].
  destruct l as [|x l]; simpl; [now rewrite firstn_nil | now rewrite IH].
Qed.

Section Runs.

Variables batchSize delay : Z.
Variable api : Service.
Variable texts : list jsstring.
Hypothesis batchSize_positive : (0 < batchSize)%Z.

Lemma requests_committed (i : Z) (embs : list (list float)) (w : World) :
  requests (committed batchSize delay texts i embs w)
  = requests w ++ [batchRequest (batchAt batchSize texts i)].
Proof. unfold committed. destruct (i + batchSize <? len texts)%Z; reflexivity. Qed.

Lemma progress_committed (i : Z) (embs : list (list float)) (w : World) :
  progress (committed batchSize delay texts i embs w)
  = progress w
    ++ [{| percentage :=
             15 + Math_round ((Number (i + len (batchAt batchSize texts i))
                               / Number (len texts)) * 85)%float;
           message := EmbeddingChunk (i + len (batchAt batchSize texts i)) (len texts) |}].
Proof. unfold committed. destruct (i + batchSize <? len texts)%Z; reflexivity. Qed.

Lemma texts_committed (i : Z) (embs : list (list float)) (w : World) :
  map text (chunks (vectorDB (committed batchSize delay texts i embs w)))
  = map text (chunks (vectorDB w)) ++ batchAt batchSize texts i.
Proof.
  unfold committed. destruct (i + batchSize <? len texts)%Z; simpl;
    rewrite map_app; unfold mapi;
    now rewrite (map_text_mapi_from (fun index => (i + index)%Z)
                   (fun index => nth (Z.to_nat index) embs [])).
Qed.

Lemma concat_batchesFrom (n : nat) :
  forall i, (0 <= i)%Z ->
    concat (batchesFrom batchSize texts i n)
    = firstn (n * Z.to_nat batchSize) (skipn (Z.to_nat i) texts).
Proof.
  induction n as [|n IH]; intros i Hi; simpl; [reflexivity|].
  rewrite IH by lia. unfold batchAt. rewrite slice_window by lia.
  rewrite firstn_add, skipn_skipn. do 3 f_equal. lia.
Qed.

Lemma batchAt_bounded (i : Z) :
  (0 <= i)%Z -> (len (batchAt batchSize texts i) <= batchSize)%Z.
Proof. intros Hi. unfold batchAt. rewrite slice_window_len; lia. Qed.

Lemma length_batchesFrom (n : nat) (i : Z) :
  length (batchesFrom batchSize texts i n) = n.
Proof. revert i. induction n as [|n IH]; intros i; simpl; [reflexivity | now rewrite IH]. Qed.

Lemma batchesFrom_bounded (n : nat) :
  forall i, (0 <= i)%Z ->
    Forall (fun b => (len b <= batchSize)%Z) (batchesFrom batchSize texts i n).
Proof.
  induction n as [|n IH]; intros i Hi; simpl; constructor.
  - now apply batchAt_bounded.
  - apply IH. lia.
Qed.

(** What a run from offset [i] does: it commits [n] batches, each answered
    with as many vectors as it has texts, and then either has reached the
    end of the chunks or has sent one more batch, whose answer failed. *)
Lemma EmbedRun_summary (i : Z) (w w' : World) (r : Outcome unit) :
  EmbedRun batchSize delay api texts i w r w' ->
  (0 <= i)%Z ->
  exists n : nat,
    (forall j, (j < n)%nat ->
       exists embs,
         api (length (requests w) + j)%nat
             (batchRequest (batchAt batchSize texts (i + Z.of_nat j * batchSize)))
         = Embeddings embs
         /\ len embs = len (batchAt batchSize texts (i + Z.of_nat j * batchSize)))
    /\ map text (chunks (vectorDB w'))
       = map text (chunks (vectorDB w)) ++ concat (batchesFrom batchSize texts i n)
    /\ match r with
       | Returned _ =>
           requests w' = requests w ++ map batchRequest (batchesFrom batchSize texts i n)
           /\ (len texts <= i + Z.of_nat n * batchSize)%Z
           /\ (n = O \/ (i + (Z.of_nat n - 1) * batchSize < len texts)%Z)
       | Thrown message =>
           requests w'
           = requests w ++ map batchRequest (batchesFrom batchSize texts i (S n))
           /\ (i + Z.of_nat n * batchSize < len texts)%Z
           /\ ((exists embs,
                  api (length (requests w) + n)%nat
                      (batchRequest (batchAt batchSize texts (i + Z.of_nat n * batchSize)))
                  = Embeddings embs
                  /\ len embs <> len (batchAt batchSize texts (i + Z.of_nat n * batchSize))
                  /\ message = batch_failure)
               \/ (exists m,
                     api (length (requests w) + n)%nat
                         (batchRequest (batchAt batchSize texts (i + Z.of_nat n * batchSize)))
                     = Rejected m
                     /\ message = handleError m "generate batch embeddings"))
       | Pending => False
       end.
Proof.
  induction 1 as [i w Hend | i w embs r w' Hlt Hapi Hlen Hrun IH
                 | i w embs Hlt Hapi Hlen | i w m Hlt Hapi]; intros Hi.
  - exists O. simpl. rewrite !app_nil_r. repeat split; auto; lia.
  - destruct IH as (n & Hok & Htexts & Hr); [lia|].
    rewrite requests_committed, length_app in Hok. simpl in Hok.
    exists (S n). split; [|split].
    + intros [|j] Hj.
      * rewrite Nat.add_0_r. simpl. rewrite Z.add_0_r. eauto.
      * destruct (Hok j) as (e & He & Hl); [lia|]. exists e.
        replace (i + Z.of_nat (S j) * batchSize)%Z
          with (i + batchSize + Z.of_nat j * batchSize)%Z by lia.
        replace (length (requests w) + S j)%nat
          with (length (requests w) + 1 + j)%nat by lia.
        auto.
    + rewrite Htexts, texts_committed. simpl. now rewrite <- app_assoc.
    + destruct r as [[]|message|]; [| |exact Hr].
      * destruct Hr as (Hreq & Hn & Hlast). rewrite requests_committed in Hreq.
        split; [|split].
        -- rewrite Hreq. simpl. now rewrite <- app_assoc.
        -- lia.
        -- right. destruct Hlast as [-> | Hlast]; lia.
      * destruct Hr as (Hreq & Hn & Hfail). rewrite requests_committed in Hreq.
        rewrite requests_committed, length_app in Hfail. simpl in Hfail.
        replace (i + batchSize + Z.of_nat n * batchSize)%Z
          with (i + Z.of_nat (S n) * batchSize)%Z in Hfail by lia.
        replace (length (requests w) + 1 + n)%nat
          with (length (requests w) + S n)%nat in Hfail by lia.
        split; [|split].
        -- rewrite Hreq. simpl. now rewrite <- app_assoc.
        -- lia.
        -- exact Hfail.
  - exists O. simpl. rewrite !app_nil_r, Nat.add_0_r, Z.add_0_r.
    repeat split; auto; try lia. left. eauto.
  - exists O. simpl. rewrite !app_nil_r, Nat.add_0_r, Z.add_0_r.
    repeat split; auto; try lia. right. eauto.
Qed.

End Runs.

(** ** What an upload does *)

Lemma pagesReported_frame (numPages : Z) (pages : list Page) :
  forall i w,
    vectorDB (pagesReported numPages pages i w) = vectorDB w
    /\ requests (pagesReported numPages pages i w) = requests w.
Proof.
  induction pages as [|page pages IH]; intros i w; simpl; [auto|].
  destruct (IH (i + 1)%Z (reported
    {| percentage := Math_round ((Number i / Number numPages) * 15)%float;
       message := ReadingPage i numPages |} w)) as [-> ->].
  auto.
Qed.

Lemma prepared_frame (pages : list Page) (w : World) :
  chunks (vectorDB (prepared pages w)) = []
  /\ requests (prepared pages w) = requests w.
Proof.
  unfold prepared.
  destruct (pagesReported_frame (len pages) pages 1
    (reported {| percentage := 0; message := ReadingPDF |}
       (withVectorDB {| chunks := [] |} (inState PROCESSING (withError None w)))))
    as [-> ->].
  auto.
Qed.

Lemma concluded_frame (r : Outcome unit) (w : World) :
  vectorDB (concluded r w) = vectorDB w /\ requests (concluded r w) = requests w.
Proof. destruct r; auto. Qed.

Lemma ceiling_quotient (n N B : Z) :
  (0 < B)%Z -> (0 <= N)%Z -> (0 <= n)%Z ->
  (N <= n * B)%Z -> (n = 0 \/ (n - 1) * B < N)%Z ->
  n = ((N + B - 1) / B)%Z.
Proof.
  intros HB HN Hn Hup Hlow.
  apply Z.div_unique with (r := (N + B - 1 - B * n)%Z); [|lia].
  left. destruct Hlow as [-> | Hlow]; nia.
Qed.

(** C4. With compatible chunking parameters and a batch size [B > 0], an
    upload that ends in state [READY] has sent [ceil(N / B)] requests for its
    [N] filtered chunks, each with at most [B] texts and together the chunks
    in order, and the index then holds one segment per chunk, which is the
    number of chunks whose trimmed content is not empty. *)
Theorem ingestion_in_batches (size overlap batchSize delay : Z) (fuel : nat)
    (api : Service) (pages : list Page) (w : World) :
  (0 <= overlap < size)%Z -> (0 < batchSize)%Z ->
  (length (extractText pages) < fuel)%nat ->
  exists texts w',
    chunkText fuel size overlap (extractText pages) = Some texts
    /\ handleFileChangeWith size overlap batchSize delay fuel api pages w
       = (Returned tt, w')
    /\ (appState w' = READY ->
        exists batches,
          requests w' = requests w ++ map batchRequest batches
          /\ Z.of_nat (length batches) = ((len texts + batchSize - 1) / batchSize)%Z
          /\ Forall (fun b => (len b <= batchSize)%Z) batches
          /\ concat batches = texts
          /\ map text (chunks (vectorDB w')) = texts
          /\ len (chunks (vectorDB w')) = len (filter nonEmpty texts)).
Proof.
  intros Hc Hb Hfuel.
  destruct (handleFileChangeWith_runs size overlap batchSize delay fuel api pages w
              Hc Hb Hfuel) as (raw & r & wl & Hraw & Hrun & Hrun').
  exists (filter nonEmpty raw), (concluded r wl).
  split; [unfold chunkText; now rewrite Hraw|]. split; [assumption|].
  intros Hready.
  destruct (EmbedRun_summary batchSize delay api (filter nonEmpty raw) Hb 0
              (prepared pages w) wl r Hrun) as (n & _ & Htexts & Hr); [lia|].
  destruct (prepared_frame pages w) as [Hdb Hreq].
  destruct (concluded_frame r wl) as [Hdb' Hreq'].
  rewrite Hdb' , Hreq'. rewrite Hdb in Htexts. rewrite Hreq in Hr. simpl in Htexts.
  destruct r as [[]|message|]; [|discriminate Hready|contradiction].
  destruct Hr as (Hrequests & Hup & Hlow).
  assert (concat (batchesFrom batchSize (filter nonEmpty raw) 0 n) = filter nonEmpty raw)
    as Hall.
  { rewrite concat_batchesFrom by lia. simpl.
    apply firstn_all2. unfold len in Hup. nia. }
  exists (batchesFrom batchSize (filter nonEmpty raw) 0 n).
  split; [assumption|]. split; [|split; [|split; [|split]]].
  - rewrite <- (ceiling_quotient (Z.of_nat n) (len (filter nonEmpty raw)) batchSize);
      try lia.
    + now rewrite length_batchesFrom.
    + apply len_nonneg.
  - apply batchesFrom_bounded; [assumption | lia].
  - exact Hall.
  - now rewrite Htexts, Hall.
  - unfold len. rewrite <- (length_map text), Htexts, Hall.
    now rewrite filter_twice.
Qed.

Lemma ingestion_in_batches_witness :
  ((0 <= 1 < 4)%Z /\ (0 < 2)%Z /\ (length (extractText [ten_letters]) < 12)%nat)
  /\ appState (snd (handleFileChangeWith 4 1 2 1000 12 steady_service [ten_letters] fresh))
     = READY
  /\ exists texts w',
       chunkText 12 4 1 (extractText [ten_letters]) = Some texts
       /\ handleFileChangeWith 4 1 2 1000 12 steady_service [ten_letters] fresh
          = (Returned tt, w')
       /\ (appState w' = READY ->
           exists batches,
             requests w' = requests fresh ++ map batchRequest batches
             /\ Z.of_nat (length batches) = ((len texts + 2 - 1) / 2)%Z
             /\ Forall (fun b => (len b <= 2)%Z) batches
             /\ concat batches = texts
             /\ map text (chunks (vectorDB w')) = texts
             /\ len (chunks (vectorDB w')) = len (filter nonEmpty texts)).
Proof.
  split; [|split].
  - repeat split; simpl; lia.
  - vm_compute. reflexivity.
  - apply ingestion_in_batches; simpl; lia.
Defined.

Lemma nth_error_batchesFrom (batchSize : Z) (texts : list jsstring) (n : nat) :
  forall i j b,
    nth_error (batchesFrom batchSize texts i n) j = Some b ->
    (j < n)%nat /\ b = batchAt batchSize texts (i + Z.of_nat j * batchSize).
Proof.
  induction n as [|n IH]; intros i j b Hnth; simpl in Hnth.
  - destruct j; discriminate.
  - destruct j as [|j]; simpl in Hnth.
    + inversion Hnth. split; [lia|]. f_equal. lia.
    + apply IH in Hnth. destruct Hnth as [Hj ->]. split; [lia|]. f_equal. lia.
Qed.

Lemma batchesFrom_snoc (batchSize : Z) (texts : list jsstring) (n : nat) :
  forall i,
    batchesFrom batchSize texts i (S n)
    = batchesFrom batchSize texts i n
      ++ [batchAt batchSize texts (i + Z.of_nat n * batchSize)].
Proof.
  induction n as [|n IH]; intros i.
  - simpl. do 2 f_equal. lia.
  - change (batchesFrom batchSize texts i (S (S n)))
      with (batchAt batchSize texts i
            :: batchesFrom batchSize texts (i + batchSize) (S n)).
    rewrite IH. cbn [batchesFrom app].
    replace (i + Z.of_nat (S n) * batchSize)%Z
      with (i + batchSize + Z.of_nat n * batchSize)%Z by lia.
    reflexivity.
Qed.

Lemma search_all (q : list float) (k : Z) (db : InMemoryVectorDB) :
  (len (chunks db) <= k)%Z -> Permutation (fst (search q k db)) (chunks db).
Proof.
  intros Hk. pose proof (len_nonneg (chunks db)).
  rewrite search_sorted by lia. rewrite Z.min_r by assumption.
  unfold len. rewrite Nat2Z.id. rewrite firstn_all2.
  - rewrite <- (map_snd_positions (chunks db)) at 2.
    apply Permutation_map, sort_perm.
  - rewrite sort_length. unfold positions. rewrite length_combine, length_seq. lia.
Qed.

(** C5. An upload returns. If the answer to one of its batch requests is a
    sequence of vectors of another length than the batch, the upload ends in
    state [ERROR] with the batch failure as its error; that request is the
    last one sent; the index holds the segments of the batches sent before
    it, and none of the failing batch; and a search still returns them. *)
Theorem mismatched_batch_halts (size overlap batchSize delay : Z) (fuel : nat)
    (api : Service) (pages : list Page) (w : World) :
  (0 <= overlap < size)%Z -> (0 < batchSize)%Z ->
  (length (extractText pages) < fuel)%nat ->
  exists w',
    handleFileChangeWith size overlap batchSize delay fuel api pages w
    = (Returned tt, w')
    /\ forall j batch vectors,
         nth_error (requests w') (length (requests w) + j) = Some (batchRequest batch) ->
         api (length (requests w) + j)%nat (batchRequest batch) = Embeddings vectors ->
         len vectors <> len batch ->
         appState w' = ERROR
         /\ error w' = Some ("An error occurred: " ++ batch_failure)%string
         /\ exists earlier,
              length earlier = j
              /\ requests w'
                 = requests w ++ map batchRequest earlier ++ [batchRequest batch]
              /\ map text (chunks (vectorDB w')) = concat earlier
              /\ forall q,
                   Permutation
                     (fst (search q (len (chunks (vectorDB w'))) (vectorDB w')))
                     (chunks (vectorDB w')).
Proof.
  intros Hc Hb Hfuel.
  destruct (handleFileChangeWith_runs size overlap batchSize delay fuel api pages w
              Hc Hb Hfuel) as (raw & r & wl & Hraw & Hrun & Hrun').
  exists (concluded r wl). split; [assumption|].
  intros j batch vectors Hnth Hapi Hlen.
  destruct (EmbedRun_summary batchSize delay api (filter nonEmpty raw) Hb 0
              (prepared pages w) wl r Hrun) as (n & Hok & Htexts & Hr); [lia|].
  destruct (prepared_frame pages w) as [Hdb Hreq].
  destruct (concluded_frame r wl) as [Hdb' Hreq'].
  rewrite Hdb', Hreq' in *. rewrite Hdb in Htexts. rewrite Hreq in Hr, Hok.
  simpl in Htexts.
  assert (forall m,
            requests wl
            = requests w ++ map batchRequest (batchesFrom batchSize (filter nonEmpty raw) 0 m) ->
            (j < m)%nat
            /\ batch = batchAt batchSize (filter nonEmpty raw) (0 + Z.of_nat j * batchSize))
    as Hpos.
  { intros m Hm. rewrite Hm in Hnth.
    rewrite nth_error_app2, Nat.add_comm, Nat.add_sub in Hnth by lia.
    rewrite nth_error_map in Hnth.
    destruct (nth_error _ j) as [b|] eqn:E; [|discriminate].
    apply nth_error_batchesFrom in E. destruct E as [Hj ->].
    inversion Hnth. auto. }
  assert (~ (j < n)%nat) as Hcommitted.
  { intros Hj. destruct (Hok j Hj) as (e & He & Hl).
    destruct r as [[]|message|]; [| |contradiction].
    - destruct Hr as (Hm & _). destruct (Hpos _ Hm) as [_ ->].
      rewrite Hapi in He. inversion He; subst. contradiction.
    - destruct Hr as (Hm & _). destruct (Hpos _ Hm) as [_ ->].
      rewrite Hapi in He. inversion He; subst. contradiction. }
  destruct r as [[]|message|]; [| |contradiction].
  - destruct Hr as (Hm & _). destruct (Hpos _ Hm). contradiction.
  - destruct Hr as (Hm & Hlt & Hfail). destruct (Hpos _ Hm) as [Hj Hbatch].
    assert (j = n) by lia. subst j.
    assert (message = batch_failure) as ->.
    { destruct Hfail as [(e & He & _ & Hmsg) | (m & He & _)]; [assumption|].
      rewrite <- Hbatch, Hapi in He. discriminate. }
    split; [reflexivity|]. split; [reflexivity|].
    exists (batchesFrom batchSize (filter nonEmpty raw) 0 n).
    split; [apply length_batchesFrom|]. split; [|split].
    + simpl. rewrite Hm, batchesFrom_snoc, map_app, <- Hbatch. reflexivity.
    + exact Htexts.
    + intros q. apply search_all. lia.
Qed.

Lemma mismatched_batch_halts_witness :
  ((0 <= 1 < 4)%Z /\ (0 < 2)%Z /\ (length (extractText [ten_letters]) < 12)%nat)
  /\ (let w' := snd (handleFileChangeWith 4 1 2 1000 12 short_service [ten_letters] fresh) in
      appState w' = ERROR
      /\ length (requests w') = 2%nat
      /\ map text (chunks (vectorDB w'))
         = [[97; 98; 99; 100]; [100; 101; 102; 103]]%N)
  /\ exists w',
       handleFileChangeWith 4 1 2 1000 12 short_service [ten_letters] fresh
       = (Returned tt, w')
       /\ forall j batch vectors,
            nth_error (requests w') (length (requests fresh) + j)
            = Some (batchRequest batch) ->
            short_service (length (requests fresh) + j)%nat (batchRequest batch)
            = Embeddings vectors ->
            len vectors <> len batch ->
            appState w' = ERROR
            /\ error w' = Some ("An error occurred: " ++ batch_failure)%string
            /\ exists earlier,
                 length earlier = j
                 /\ requests w'
                    = requests fresh ++ map batchRequest earlier ++ [batchRequest batch]
                 /\ map text (chunks (vectorDB w')) = concat earlier
                 /\ forall q,
                      Permutation
                        (fst (search q (len (chunks (vectorDB w'))) (vectorDB w')))
                        (chunks (vectorDB w')).
Proof.
  split; [|split].
  - repeat split; simpl; lia.
  - vm_compute. repeat split; reflexivity.
  - apply mismatched_batch_halts; simpl; lia.
Defined.

(** ** No validation of the chunking parameters *)

Lemma EmbedRun_frame (batchSize delay : Z) (api : Service) (texts : list jsstring)
    (i : Z) (w w' : World) (r : Outcome unit) :
  EmbedRun batchSize delay api texts i w r w' ->
  error w' = error w /\ appState w' = appState w
  /\ (length (requests w) <= length (requests w'))%nat
  /\ (forall message, r = Thrown message ->
        (length (requests w) < length (requests w'))%nat
        /\ (message = batch_failure \/ message = quota_message)).
Proof.
  induction 1 as [i w Hend | i w embs r w' Hlt Hapi Hlen Hrun IH
                 | i w embs Hlt Hapi Hlen | i w m Hlt Hapi].
  - split; [reflexivity|]. split; [reflexivity|]. split; [lia|].
    intros message Hm. discriminate.
  - destruct IH as (He & Hs & Hr & Hthrown).
    rewrite requests_committed, length_app in Hr, Hthrown. simpl in Hr, Hthrown.
    assert (error (committed batchSize delay texts i embs w) = error w
            /\ appState (committed batchSize delay texts i embs w) = appState w)
      as [He' Hs'].
    { unfold committed. destruct (i + batchSize <? len texts)%Z; auto. }
    rewrite He, Hs, He', Hs'.
    split; [reflexivity|]. split; [reflexivity|]. split; [lia|].
    intros message Hm. destruct (Hthrown message Hm). split; [lia | assumption].
  - simpl. rewrite length_app. simpl.
    split; [reflexivity|]. split; [reflexivity|]. split; [lia|].
    intros message Hm. inversion Hm. split; [lia | now left].
  - simpl. rewrite length_app. simpl.
    split; [reflexivity|]. split; [reflexivity|]. split; [lia|].
    intros message Hm. inversion Hm. split; [lia|].
    unfold handleError, batch_failure.
    destruct (includes "RESOURCE_EXHAUSTED" m); auto.
Qed.

Lemma pagesReported_state (numPages : Z) (pages : list Page) :
  forall i w,
    error (pagesReported numPages pages i w) = error w
    /\ appState (pagesReported numPages pages i w) = appState w.
Proof.
  induction pages as [|page pages IH]; intros i w; simpl; [auto|].
  destruct (IH (i + 1)%Z (reported
    {| percentage := Math_round ((Number i / Number numPages) * 15)%float;
       message := ReadingPage i numPages |} w)) as [-> ->].
  auto.
Qed.





(** ** Progress *)

Lemma share_of_15 (i n : Z) : ((Number i / Number n) * 15)%float = share i n 15.
Proof. reflexivity. Qed.

Lemma share_of_85 (i n : Z) : ((Number i / Number n) * 85)%float = share i n 85.
Proof. reflexivity. Qed.

Lemma StronglySorted_app {A} (R : A -> A -> Prop) (l1 l2 : list A) :
  StronglySorted R l1 -> StronglySorted R l2 ->
  (forall x y, In x l1 -> In y l2 -> R x y) ->
  StronglySorted R (l1 ++ l2).
Proof.
  induction l1 as [|a l1 IH]; simpl; intros H1 H2 H12; [assumption|].
  inversion H1 as [|? ? H1' Ha]; subst. constructor.
  - apply IH; auto.
  - rewrite Forall_forall in *. intros y Hy. apply in_app_or in Hy.
    destruct Hy; auto.
Qed.

(** Every page adds a line feed to the text, so there are no more pages than
    code units. *)
Lemma pages_in_text (pages : list Page) : (len pages <= len (extractText pages))%Z.
Proof.
  unfold len. induction pages as [|page pages IH]; simpl; [lia|].
  rewrite !length_app. simpl. lia.
Qed.

(** The reading phase reports percentages that grow with the page number,
    between its share at page [i] and 15. *)
Lemma pagesReported_progress (numPages : Z) (pages : list Page) :
  (numPages < 2 ^ 32)%Z ->
  forall i w,
    (1 <= i)%Z -> (i + len pages <= numPages + 1)%Z ->
    exists ps,
      progress (pagesReported numPages pages i w) = progress w ++ ps
      /\ StronglySorted Z.le (map percentage ps)
      /\ Forall (fun p =>
                   (Math_round (share i numPages 15) <= percentage p <= 15)%Z
                   /\ well_reported p) ps.
Proof.
  intros Hsmall.
  induction pages as [|page pages IH]; intros i w Hi Hn.
  - exists []. simpl. rewrite app_nil_r. repeat constructor.
  - unfold len in Hn. simpl length in Hn. cbn [pagesReported].
    rewrite share_of_15.
    assert (0 <= Math_round (share i numPages 15) <= 15)%Z as Hrange
      by (apply Math_round_share_range; lia).
    destruct pages as [|page' pages'].
    + eexists [_]. split; [reflexivity|]. cbn [map percentage].
      split; [repeat constructor|]. repeat constructor; cbn [percentage message]; try lia.
    + destruct (IH (i + 1)%Z
                  (reported {| percentage := Math_round (share i numPages 15);
                               message := ReadingPage i numPages |} w))
        as (ps & Hps & Hsorted & Hall); [lia | unfold len; lia |].
      simpl length in Hn.
      eexists (_ :: ps). rewrite Hps. cbn [progress reported].
      rewrite <- app_assoc. split; [reflexivity|].
      assert (Math_round (share i numPages 15)
              <= Math_round (share (i + 1) numPages 15))%Z as Hstep
        by (apply Math_round_share_le; lia).
      split; [|constructor].
      * cbn [map percentage]. constructor; [assumption|]. rewrite Forall_map.
        eapply Forall_impl; [|exact Hall]. cbv beta. intros p [[Hlow _] _]. lia.
      * cbn [percentage]. split; [lia|].
        unfold well_reported. cbn [message percentage].
        rewrite share_of_15. split; [reflexivity | lia].
      * eapply Forall_impl; [|exact Hall]. cbv beta. intros p [[Hlow Hup] Hw].
        split; [lia | assumption].
Qed.

(** The embedding loop reports percentages that grow with the offset: from
    offset [i] on, at least 15 plus the share of the [i] chunks embedded
    before, and at most 100. *)
Lemma EmbedRun_progress (batchSize delay : Z) (api : Service) (texts : list jsstring)
    (i : Z) (w w' : World) (r : Outcome unit) :
  EmbedRun batchSize delay api texts i w r w' ->
  (0 < batchSize)%Z -> (len texts < 2 ^ 32)%Z -> (0 <= i)%Z ->
  exists ps,
    progress w' = progress w ++ ps
    /\ StronglySorted Z.le (map percentage ps)
    /\ Forall (fun p =>
                 ((0 < i ->
                   15 + Math_round (share (Z.min i (len texts)) (len texts) 85)
                   <= percentage p)
                  /\ 15 <= percentage p <= 100)%Z
                 /\ well_reported p) ps.
Proof.
  intros Hrun Hb Hsmall.
  induction Hrun as [i w Hend | i w embs r w' Hlt Hapi Hlen Hrun IH
                    | i w embs Hlt Hapi Hlen | i w m Hlt Hapi]; intros Hi.
  - exists []. rewrite app_nil_r. repeat constructor.
  - destruct IH as (ps & Hps & Hsorted & Hall); [lia|].
    rewrite progress_committed, share_of_85 in Hps.
    assert (i + len (batchAt batchSize texts i)
            = Z.min (i + batchSize) (len texts))%Z as Hnext.
    { unfold batchAt. rewrite slice_window_len; lia. }
    rewrite Hnext in Hps.
    set (next := Z.min (i + batchSize) (len texts)) in *.
    assert (0 < next <= len texts)%Z as Hfit by (unfold next; lia).
    pose proof (Math_round_share_range next (len texts) 85) as Hrange.
    assert (0 < i ->
            Math_round (share (Z.min i (len texts)) (len texts) 85)
            <= Math_round (share next (len texts) 85))%Z as Hlow.
    { intros Hpos. apply Math_round_share_le; unfold next; lia. }
    eexists (_ :: ps). rewrite Hps, <- app_assoc. split; [reflexivity|].
    split; [|constructor].
    + cbn [map percentage]. constructor; [assumption|]. rewrite Forall_map.
      eapply Forall_impl; [|exact Hall]. cbv beta. intros p [[Hl _] _]. lia.
    + cbn [percentage]. split; [lia|].
      unfold well_reported. cbn [message percentage].
      rewrite share_of_85. split; [reflexivity | lia].
    + eapply Forall_impl; [|exact Hall]. cbv beta. intros p [[Hl Hu] Hw].
      split; [|assumption]. split; [|assumption]. intros Hpos.
      specialize (Hlow Hpos). lia.
  - exists []. simpl. rewrite app_nil_r. repeat constructor.
  - exists []. simpl. rewrite app_nil_r. repeat constructor.
Qed.

(** C9. An upload of a text of fewer than [2^32] code units returns, and the
    percentages it reports, in the order it reports them, never decrease:
    0 when reading starts, the share of 15 of each page read, 15 plus the
    share of 85 of the chunks embedded after each batch, and 100 at the end
    of an upload that reaches state [READY]. The shares are the binary64
    values the handler computes. *)
Theorem progress_never_decreases (size overlap batchSize delay : Z) (fuel : nat)
    (api : Service) (pages : list Page) (w : World) :
  (0 <= overlap < size)%Z -> (0 < batchSize)%Z ->
  (length (extractText pages) < fuel)%nat ->
  (len (extractText pages) < 2 ^ 32)%Z ->
  exists w' reports,
    handleFileChangeWith size overlap batchSize delay fuel api pages w
    = (Returned tt, w')
    /\ progress w' = progress w ++ {| percentage := 0; message := ReadingPDF |} :: reports
    /\ StronglySorted Z.le (0%Z :: map percentage reports)
    /\ Forall (fun p => (0 <= percentage p <= 100)%Z /\ well_reported p) reports
    /\ (appState w' = READY ->
        exists before,
          reports = before ++ [{| percentage := 100; message := ProcessingComplete |}]).
Proof.
  intros Hc Hb Hfuel Hsmall.
  destruct (handleFileChangeWith_runs size overlap batchSize delay fuel api pages w
              Hc Hb Hfuel) as (raw & r & wl & Hraw & Hrun & Hrun').
  assert (len (filter nonEmpty raw) < 2 ^ 32)%Z as Htexts.
  { destruct (rawChunksLoop_rejoin size overlap (extractText pages) Hc fuel Hfuel)
      as (raw' & Hraw' & _ & Hlen).
    rewrite Hraw in Hraw'. injection Hraw' as <-.
    pose proof (filter_length_le nonEmpty raw). unfold len in *. lia. }
  pose proof (pages_in_text pages) as Hpages.
  destruct (EmbedRun_progress _ _ _ _ _ _ _ _ Hrun Hb Htexts (Z.le_refl 0))
    as (bs & Hbs & Hbsorted & Hball).
  destruct (pagesReported_progress (len pages) pages ltac:(lia) 1
              (reported {| percentage := 0; message := ReadingPDF |}
                 (withVectorDB {| chunks := [] |} (inState PROCESSING (withError None w)))))
    as (ps & Hps & Hpsorted & Hpall); [lia | lia |].
  fold (prepared pages w) in Hps. rewrite Hps in Hbs. simpl in Hbs.
  rewrite <- !app_assoc in Hbs. simpl in Hbs.
  assert (Forall (fun p => (0 <= percentage p <= 15)%Z /\ well_reported p) ps) as Hpall'.
  { eapply Forall_impl; [|exact Hpall]. cbv beta. intros p [[Hl Hu] Hw].
    split; [|assumption]. split; [|assumption].
    destruct pages as [|page pages']; [now inversion Hpall|].
    pose proof (Math_round_share_range 1 (len (page :: pages')) 15) as Hb1.
    unfold len in Hb1 at 1. simpl length in Hb1. lia. }
  assert (StronglySorted Z.le (map percentage (ps ++ bs))) as Hmid.
  { rewrite map_app. apply StronglySorted_app; auto.
    intros x y Hx Hy. rewrite in_map_iff in Hx, Hy.
    destruct Hx as (p & <- & Hp), Hy as (b & <- & Hbin).
    rewrite Forall_forall in Hpall', Hball.
    destruct (Hpall' p Hp) as [? _], (Hball b Hbin) as [[_ ?] _]. lia. }
  assert (Forall (fun p => (0 <= percentage p <= 100)%Z /\ well_reported p) (ps ++ bs))
    as Hmidall.
  { apply Forall_app. split.
    - eapply Forall_impl; [|exact Hpall']. cbv beta. intros p [? ?]. split; [lia | assumption].
    - eapply Forall_impl; [|exact Hball]. cbv beta. intros p [[_ ?] ?].
      split; [lia | assumption]. }
  pose proof (EmbedRun_ends _ _ _ _ _ _ _ _ Hrun) as Hend.
  destruct r as [[]|message|]; [| |contradiction].
  - exists (concluded (Returned tt) wl),
           (ps ++ bs ++ [{| percentage := 100; message := ProcessingComplete |}]).
    split; [assumption|]. split; [|split; [|split]].
    + simpl. rewrite Hbs. rewrite <- !app_assoc. simpl.
      now rewrite <- !app_assoc.
    + rewrite app_assoc, map_app. change (0%Z :: ?l ++ ?m) with ((0%Z :: l) ++ m).
      apply StronglySorted_app.
      * constructor; [assumption|]. rewrite Forall_map.
        eapply Forall_impl; [|exact Hmidall]. cbv beta. intros p [? _]. lia.
      * repeat constructor.
      * intros x y Hx [<- | []]. destruct Hx as [<- | Hx]; [simpl; lia|].
        rewrite in_map_iff in Hx. destruct Hx as (p & <- & Hp).
        rewrite Forall_forall in Hmidall. destruct (Hmidall p Hp) as [? _].
        simpl. lia.
    + rewrite app_assoc. apply Forall_app. split; [assumption|].
      repeat constructor; simpl; lia.
    + intros _. exists (ps ++ bs). now rewrite app_assoc.
  - exists (concluded (Thrown message) wl), (ps ++ bs).
    split; [assumption|]. split; [|split; [|split]].
    + simpl. rewrite Hbs. reflexivity.
    + constructor; [assumption|]. rewrite Forall_map.
      eapply Forall_impl; [|exact Hmidall]. cbv beta. intros p [? _]. lia.
    + assumption.
    + simpl. discriminate.
Qed.

Lemma progress_never_decreases_witness :
  ((0 <= 1 < 4)%Z /\ (0 < 2)%Z /\ (length (extractText [ten_letters]) < 12)%nat
   /\ (len (extractText [ten_letters]) < 2 ^ 32)%Z)
  /\ map percentage
       (progress (snd (handleFileChangeWith 4 1 2 1000 12 steady_service
                         [ten_letters] fresh)))
     = [0; 15; 58; 100; 100]%Z
  /\ exists w' reports,
       handleFileChangeWith 4 1 2 1000 12 steady_service [ten_letters] fresh
       = (Returned tt, w')
       /\ progress w'
          = progress fresh ++ {| percentage := 0; message := ReadingPDF |} :: reports
       /\ StronglySorted Z.le (0%Z :: map percentage reports)
       /\ Forall (fun p => (0 <= percentage p <= 100)%Z /\ well_reported p) reports
       /\ (appState w' = READY ->
           exists before,
             reports
             = before ++ [{| percentage := 100; message := ProcessingComplete |}]).
Proof.
  split; [|split].
  - repeat split; vm_compute; first [reflexivity | discriminate | lia].
  - vm_compute. reflexivity.
  - apply progress_never_decreases; try split; vm_compute;
      first [reflexivity | discriminate | lia].
Defined.

(** ** The query *)

(** C7. The retrieval step sends the question, as it is, in one request of
    task type [RETRIEVAL_QUERY]. When the service answers with a vector, the
    step searches the index with that vector and [topK = 5], leaves the index
    as it was, and returns the texts of the segments found, in the order
    found, joined by a line feed, three dashes and a line feed; on an index
    without segments that is the empty string. *)
Theorem retrieveContext_joins_top_five (api : Service) (input : jsstring) (w : World)
    (queryEmbedding : list float) (others : list (list float)) :
  api (length (requests w)) {| contents := Text input; taskType := RETRIEVAL_QUERY |}
  = Embeddings (queryEmbedding :: others) ->
  retrieveContext api input w
  = (Returned (join [10; 45; 45; 45; 10]%N
                 (map text (fst (search queryEmbedding 5 (vectorDB w))))),
     sent {| contents := Text input; taskType := RETRIEVAL_QUERY |} w)
  /\ (chunks (vectorDB w) = [] -> fst (retrieveContext api input w) = Returned []).
Proof.
  intros Hapi.
  assert (retrieveContext api input w
          = (Returned (join [10; 45; 45; 45; 10]%N
                         (map text (fst (search queryEmbedding 5 (vectorDB w))))),
             sent {| contents := Text input; taskType := RETRIEVAL_QUERY |} w)) as Heq.
  { unfold retrieveContext, generateEmbedding, embedContent, App.bind at 1 2.
    rewrite Hapi. unfold App.ret at 1, App.bind, onVectorDB.
    cbn [vectorDB sent].
    pose proof (search_frame_state queryEmbedding 5 (vectorDB w)) as Hframe.
    destruct (search queryEmbedding 5 (vectorDB w)) as [found db]. simpl in Hframe.
    subst db. unfold App.ret. f_equal. }
  split; [exact Heq|].
  intros Hempty. rewrite Heq. simpl. unfold search, VectorDb.bind, get_chunks.
  rewrite Hempty. reflexivity.
Qed.

Lemma retrieveContext_joins_top_five_witness :
  let w := withVectorDB {| chunks := six_segments |} fresh in
  steady_service (length (requests w))
    {| contents := Text [104; 105]%N; taskType := RETRIEVAL_QUERY |}
  = Embeddings ([1; 0]%float :: [])
  /\ map (score [1; 0]%float) six_segments = [0; -1; 1; 3 / 5; 0; 1]%float
  /\ fst (retrieveContext steady_service [104; 105]%N w)
     = Returned [99; 10; 45; 45; 45; 10; 102; 10; 45; 45; 45; 10; 100;
                 10; 45; 45; 45; 10; 97; 10; 45; 45; 45; 10; 101]%N
  /\ retrieveContext steady_service [104; 105]%N w
     = (Returned (join [10; 45; 45; 45; 10]%N
                    (map text (fst (search [1; 0]%float 5 (vectorDB w))))),
        sent {| contents := Text [104; 105]%N; taskType := RETRIEVAL_QUERY |} w)
  /\ (chunks (vectorDB w) = [] ->
      fst (retrieveContext steady_service [104; 105]%N w) = Returned []).
Proof.
  split; [reflexivity|]. split; [vm_compute; reflexivity|].
  split; [vm_compute; reflexivity|].
  apply retrieveContext_joins_top_five with (others := []). reflexivity.
Defined.

(** ** More on the index *)

(** X1. [search(q, k)] is a prefix of the full ranking [search(q, n)]: of
    [min(k, n)] segments for [k >= 0], and for a negative [k], which [slice]
    counts from the end, of [max(n + k, 0)] segments. A larger [k] of the
    same sign extends the result of a smaller one. *)
Theorem search_is_prefix_of_ranking (q : list float) (k : Z) (db : InMemoryVectorDB) :
  let n := len (chunks db) in
  fst (search q k db) = firstn (Z.to_nat (kept n k)) (fst (search q n db))
  /\ len (fst (search q k db)) = kept n k
  /\ forall k', (k <= k')%Z -> (0 <= k \/ k' < 0)%Z ->
       fst (search q k db) = firstn (Z.to_nat (kept n k)) (fst (search q k' db)).
Proof.
  intros n. pose proof (len_nonneg (chunks db)) as Hn. fold n in Hn.
  assert (length (fst (search q n db)) = Z.to_nat n) as Hfull.
  { rewrite (Permutation_length (search_all q n db (Z.le_refl _))).
    unfold n, len. now rewrite Nat2Z.id. }
  assert (0 <= kept n k <= n)%Z as Hk.
  { unfold kept. destruct (Z.ltb_spec k 0); lia. }
  split; [apply search_prefix|]. split.
  - rewrite search_prefix. fold n. unfold len. rewrite length_firstn, Hfull. lia.
  - intros k' Hle Hsign. rewrite (search_prefix q k'), (search_prefix q k). fold n.
    rewrite firstn_firstn. f_equal.
    unfold kept. destruct (Z.ltb_spec k 0), (Z.ltb_spec k' 0); lia.
Qed.

(** X2. Every segment [search] returns is stored, and none is returned more
    often than it is stored: the result, with the segments left out, is a
    rearrangement of the index. *)
Theorem search_returns_stored (q : list float) (k : Z) (db : InMemoryVectorDB) :
  exists rest,
    Permutation (fst (search q k db) ++ rest) (chunks db)
    /\ (len (fst (search q k db)) <= len (chunks db))%Z.
Proof.
  exists (skipn (Z.to_nat (kept (len (chunks db)) k))
                (fst (search q (len (chunks db)) db))).
  rewrite search_prefix. rewrite firstn_skipn. split.
  - apply search_all. lia.
  - pose proof (Permutation_length (search_all q _ db (Z.le_refl _))) as Hfull.
    set (full := fst (search q (len (chunks db)) db)) in *.
    unfold len. rewrite length_firstn, Hfull. lia.
Qed.

(** X3. Segments added are appended after the ones stored: two calls of
    [add] leave the index one call with both arrays would, and after a
    [reset] and any number of segments added, the index is ready exactly
    when a segment was added and a search with [k] at least their number
    returns each of them once. *)
Theorem add_then_search (q : list float) (k : Z) (a b : list DocumentChunk)
    (db : InMemoryVectorDB) :
  (len (a ++ b) <= k)%Z ->
  let db' := snd (add b (snd (add a (snd (reset db))))) in
  snd (add b (snd (add a db))) = snd (add (a ++ b) db)
  /\ chunks db' = a ++ b
  /\ fst (isReady db') = negb (len (a ++ b) =? 0)%Z
  /\ Permutation (fst (search q k db')) (a ++ b).
Proof.
  intros Hk db'. unfold add, reset, VectorDb.bind, get_chunks, set_chunks in *.
  cbn [fst snd chunks] in *. split; [now rewrite app_assoc|].
  split; [reflexivity|]. split.
  - unfold isReady, VectorDb.bind, VectorDb.ret, get_chunks. cbn [fst snd chunks].
    pose proof (len_nonneg (a ++ b)). cbn [app]. 
    destruct (Z.ltb_spec 0 (len (a ++ b))), (Z.eqb_spec (len (a ++ b)) 0); simpl;
      lia || reflexivity.
  - apply (search_all q k db'). exact Hk.
Qed.

Lemma add_then_search_witness :
  (len ([opposite] ++ [aligned]) <= 5)%Z
  /\ fst (search [1]%float 5
            (snd (add [aligned] (snd (add [opposite] (snd (reset {| chunks := [odd_one] |})))))))
     = [aligned; opposite]
  /\ let db' :=
       snd (add [aligned] (snd (add [opposite] (snd (reset {| chunks := [odd_one] |}))))) in
     snd (add [aligned] (snd (add [opposite] {| chunks := [odd_one] |})))
     = snd (add ([opposite] ++ [aligned]) {| chunks := [odd_one] |})
     /\ chunks db' = [opposite] ++ [aligned]
     /\ fst (isReady db') = negb (len ([opposite] ++ [aligned]) =? 0)%Z
     /\ Permutation (fst (search [1]%float 5 db')) ([opposite] ++ [aligned]).
Proof.
  split; [|split].
  - vm_compute. discriminate.
  - vm_compute. reflexivity.
  - apply (add_then_search [1]%float 5 [opposite] [aligned] {| chunks := [odd_one] |}).
    vm_compute. discriminate.
Defined.

(** ** The similarity is symmetric *)

Section Symmetry.

Local Open Scope float_scope.

Lemma SFmul_comm (x y : spec_float) : SFmul prec emax x y = SFmul prec emax y x.
Proof.
  destruct x as [sx|sx| |sx mx ex], y as [sy|sy| |sy my ey]; simpl;
    try reflexivity; try (now rewrite xorb_comm).
  now rewrite xorb_comm, Pos.mul_comm, Z.add_comm.
Qed.

Lemma mul_comm (x y : float) : x * y = y * x.
Proof.
  apply Prim2SF_inj. rewrite !mul_spec. apply SFmul_comm.
Qed.

Lemma cosine_sums_swap (vecA vecB : list float) :
  length vecA = length vecB ->
  forall dotProduct magA magB,
    cosine_sums vecB vecA dotProduct magB magA
    = let '(d, a, b) := cosine_sums vecA vecB dotProduct magA magB in (d, b, a).
Proof.
  revert vecB. induction vecA as [|a vecA IH]; intros [|b vecB] Hlen d ma mb;
    try discriminate; simpl; [reflexivity|].
  rewrite (mul_comm b a). apply IH. now injection Hlen.
Qed.

(** X4. The similarity does not depend on which vector is the query and
    which the stored one: [cosineSimilarity(a, b)] and
    [cosineSimilarity(b, a)] are the same binary64 value. *)
Theorem cosineSimilarity_symmetric (vecA vecB : list float) :
  cosineSimilarity vecA vecB = cosineSimilarity vecB vecA.
Proof.
  unfold cosineSimilarity.
  destruct (Nat.eqb_spec (length vecA) (length vecB)) as [Hlen|Hlen].
  - rewrite <- Hlen, Nat.eqb_refl. cbn [negb].
    rewrite (cosine_sums_swap vecA vecB Hlen).
    destruct (cosine_sums vecA vecB 0 0 0) as [[d ma] mb].
    rewrite (mul_comm (PrimFloat.sqrt mb) (PrimFloat.sqrt ma)), orb_comm. reflexivity.
  - destruct (Nat.eqb_spec (length vecB) (length vecA)); [congruence | reflexivity].
Qed.

End Symmetry.

(** ** The embedding adapter *)

Lemma prefix_app (needle rest : string) : prefix needle (needle ++ rest) = true.
Proof.
  induction needle as [|a needle IH]; simpl; [now destruct rest|].
  destruct (ascii_dec a a); [assumption | contradiction].
Qed.

Lemma prefix_split (needle s : string) :
  prefix needle s = true -> exists rest, s = (needle ++ rest)%string.
Proof.
  revert s. induction needle as [|a needle IH]; intros s H.
  - now exists s.
  - destruct s as [|b s]; simpl in H; [discriminate|].
    destruct (ascii_dec a b) as [->|]; [|discriminate].
    destruct (IH s H) as [rest ->]. now exists rest.
Qed.

Lemma includes_iff (needle s : string) :
  includes needle s = true
  <-> exists before rest, s = (before ++ needle ++ rest)%string.
Proof.
  split.
  - induction s as [|c s IH]; cbn [includes]; rewrite orb_true_iff; intros [H | H].
    + apply prefix_split in H. destruct H as [rest ->]. now exists EmptyString, rest.
    + discriminate.
    + apply prefix_split in H. destruct H as [rest ->]. now exists EmptyString, rest.
    + destruct (IH H) as (before & rest & ->). now exists (String c before), rest.
  - intros (before & rest & ->). induction before as [|c before IH].
    + cbn [append]. destruct (needle ++ rest)%string eqn:E; cbn [includes];
        rewrite <- E, prefix_app; reflexivity.
    + cbn [append includes]. rewrite IH. apply orb_true_r.
Qed.

(** X5. [handleError] reports the quota message exactly for the errors whose
    message holds [RESOURCE_EXHAUSTED] somewhere, and for every other error
    the failure of the operation named by [context]. *)
Theorem handleError_quota (message context : string) :
  (handleError message context = quota_message
   <-> exists before rest,
         message = (before ++ "RESOURCE_EXHAUSTED" ++ rest)%string)
  /\ (handleError message context = quota_message
      \/ handleError message context
         = ("Failed to " ++ context ++ ". Please check the console for details.")%string).
Proof.
  unfold handleError. rewrite <- includes_iff.
  destruct (includes "RESOURCE_EXHAUSTED" message); split; auto.
  - tauto.
  - split; [discriminate | discriminate].
Qed.

Lemma handleError_two (message context : string) :
  handleError message context = quota_message
  \/ handleError message context
     = ("Failed to " ++ context ++ ". Please check the console for details.")%string.
Proof. unfold handleError. destruct (includes _ message); auto. Qed.

(** X7. [generateEmbeddings] sends one request, with the texts and the task
    type it was given, and changes nothing else. It returns the vectors of
    the answer when there are as many as texts; every other answer, a
    rejection included, makes it throw the quota message or the batch
    failure, never another message. *)
Theorem generateEmbeddings_contract (api : Service) (texts : list jsstring)
    (taskType : TaskType) (w : World) :
  let request := {| contents := Texts texts; taskType := taskType |} in
  snd (generateEmbeddings api texts taskType w) = sent request w
  /\ match fst (generateEmbeddings api texts taskType w) with
     | Returned embeddings =>
         api (length (requests w)) request = Embeddings embeddings
         /\ len embeddings = len texts
     | Thrown message =>
         (forall embeddings,
            api (length (requests w)) request = Embeddings embeddings ->
            len embeddings <> len texts)
         /\ (message = quota_message \/ message = batch_failure)
     | Pending => False
     end.
Proof.
  intros request. unfold generateEmbeddings, embedContent, App.bind. fold request.
  destruct (api (length (requests w)) request) as [embeddings|message] eqn:Hapi.
  - destruct (Z.eqb_spec (len embeddings) (len texts)) as [Hlen|Hlen].
    + split; [reflexivity|]. simpl. auto.
    + split; [reflexivity|]. simpl. split.
      * intros e He. now injection He as <-.
      * right. reflexivity.
  - split; [reflexivity|]. simpl. split; [discriminate|].
    apply handleError_two.
Qed.

(** X6. [generateEmbedding] sends one request, with the text and the task
    type it was given, and changes nothing else. It returns the first vector
    of the answer; an answer without a vector, or a rejection, makes it throw
    the quota message or the failure of a single embedding. *)
Theorem generateEmbedding_contract (api : Service) (text : jsstring)
    (taskType : TaskType) (w : World) :
  let request := {| contents := Text text; taskType := taskType |} in
  snd (generateEmbedding api text taskType w) = sent request w
  /\ match fst (generateEmbedding api text taskType w) with
     | Returned embedding =>
         exists others,
           api (length (requests w)) request = Embeddings (embedding :: others)
     | Thrown message =>
         (forall embeddings,
            api (length (requests w)) request = Embeddings embeddings ->
            embeddings = [])
         /\ (message = quota_message \/ message = single_failure)
     | Pending => False
     end.
Proof.
  intros request. unfold generateEmbedding, embedContent, App.bind. fold request.
  destruct (api (length (requests w)) request) as [[|embedding others]|message] eqn:Hapi.
  - split; [reflexivity|]. simpl. split; [|now right].
    intros e He. now injection He as <-.
  - split; [reflexivity|]. simpl. now exists others.
  - split; [reflexivity|]. simpl. split; [discriminate|].
    apply handleError_two.
Qed.

(** ** The windows of the chunker *)

Section Windows.

Variables size overlap : Z.
Variable fullText : jsstring.
Hypothesis compatible : (0 <= overlap < size)%Z.

Lemma rawChunksLoop_from (fuel : nat) :
  forall i,
    (0 <= i)%Z -> (Z.to_nat (len fullText - i) < fuel)%nat ->
    rawChunksLoop fuel size overlap fullText i []
    = Some (map (fun j => substring fullText (i + Z.of_nat j * (size - overlap))
                                    (i + Z.of_nat j * (size - overlap) + size))
                (seq 0 (Z.to_nat ((len fullText - i + (size - overlap) - 1)
                                  / (size - overlap))))).
Proof.
  induction fuel as [|fuel IH]; intros i Hi Hfuel; [lia|].
  cbn [rawChunksLoop]. destruct (Z.ltb_spec i (len fullText)) as [Hlt|Hge].
  - rewrite rawChunksLoop_acc, IH by lia. cbn [option_map]. f_equal.
    replace (len fullText - i + (size - overlap) - 1)%Z
      with (len fullText - (i + (size - overlap)) + (size - overlap) - 1
            + 1 * (size - overlap))%Z by lia.
    rewrite Z.div_add by lia.
    set (n := ((len fullText - (i + (size - overlap)) + (size - overlap) - 1)
               / (size - overlap))%Z).
    assert (0 <= n)%Z as Hn by (apply Z.div_pos; lia).
    replace (Z.to_nat (n + 1)) with (S (Z.to_nat n)) by lia.
    cbn [seq map app]. rewrite Z.mul_0_l, Z.add_0_r. f_equal.
    rewrite <- seq_shift, map_map. apply map_ext. intros j.
    f_equal; lia.
  - replace (Z.to_nat _) with 0%nat; [reflexivity|].
    assert ((len fullText - i + (size - overlap) - 1) / (size - overlap) < 1)%Z;
      [|lia].
    apply Z.div_lt_upper_bound; lia.
Qed.

Lemma rawChunksLoop_windows (fuel : nat) :
  (length fullText < fuel)%nat ->
  rawChunksLoop fuel size overlap fullText 0 []
  = Some (map (windowAt size overlap fullText)
              (seq 0 (windowCount size overlap fullText))).
Proof.
  intros Hfuel. rewrite rawChunksLoop_from by (unfold len; lia).
  unfold windowCount. rewrite Z.sub_0_r. f_equal.
Qed.

Lemma windowAt_cut (j : nat) :
  windowAt size overlap fullText j
  = firstn (Z.to_nat size)
           (skipn (Z.to_nat (Z.of_nat j * (size - overlap))) fullText).
Proof. unfold windowAt. apply substring_window; nia. Qed.

Lemma windowAt_len (j : nat) :
  len (windowAt size overlap fullText j)
  = Z.max 0 (Z.min size (len fullText - Z.of_nat j * (size - overlap))).
Proof.
  assert (0 <= Z.of_nat j * (size - overlap))%Z by nia.
  rewrite windowAt_cut. unfold len. rewrite length_firstn, length_skipn. lia.
Qed.

Lemma windowCount_spec (j : nat) :
  (j < windowCount size overlap fullText)%nat
  <-> (Z.of_nat j * (size - overlap) < len fullText)%Z.
Proof.
  unfold windowCount. pose proof (len_nonneg fullText) as Hl.
  set (step := (size - overlap)%Z) in *. assert (0 < step)%Z as Hs by (unfold step; lia).
  set (q := ((len fullText + step - 1) / step)%Z).
  assert (0 <= q)%Z as Hq by (apply Z.div_pos; lia).
  pose proof (Z.mul_div_le (len fullText + step - 1) step Hs) as Hle.
  pose proof (Z.mul_succ_div_gt (len fullText + step - 1) step Hs) as Hgt.
  fold q in Hle, Hgt. split; intros H.
  - assert (Z.of_nat j + 1 <= q)%Z by lia. nia.
  - assert (Z.of_nat j < q)%Z; [nia | lia].
Qed.

End Windows.

(** X8. With [size > overlap >= 0] the chunking loop cuts
    [ceil(length / (size - overlap))] windows: window [j] starts at offset
    [j * (size - overlap)] and holds the next [size] code units, or as many
    as are left, and at least one. *)
Theorem rawChunks_are_windows (size overlap : Z) (fullText : jsstring) (fuel : nat) :
  (0 <= overlap < size)%Z ->
  (length fullText < fuel)%nat ->
  rawChunksLoop fuel size overlap fullText 0 []
  = Some (map (windowAt size overlap fullText)
              (seq 0 (windowCount size overlap fullText)))
  /\ Z.of_nat (windowCount size overlap fullText)
     = ((len fullText + (size - overlap) - 1) / (size - overlap))%Z
  /\ forall j,
       (j < windowCount size overlap fullText)%nat ->
       windowAt size overlap fullText j
       = firstn (Z.to_nat size)
                (skipn (j * Z.to_nat (size - overlap)) fullText)
       /\ len (windowAt size overlap fullText j)
          = Z.min size (len fullText - Z.of_nat j * (size - overlap))
       /\ (0 < len (windowAt size overlap fullText j))%Z.
Proof.
  intros Hc Hfuel. split; [now apply rawChunksLoop_windows|]. split.
  - unfold windowCount. rewrite Z2Nat.id; [reflexivity|].
    pose proof (len_nonneg fullText). apply Z.div_pos; lia.
  - intros j Hj. apply windowCount_spec in Hj; [|assumption].
    rewrite windowAt_len by assumption. split; [|lia].
    rewrite windowAt_cut by assumption. do 2 f_equal. nia.
Qed.

(** X9. Every chunk the chunker hands to the embedding step has at most
    [size] code units and is not blank, and there are no more chunks than
    windows. *)
Theorem chunks_are_bounded (size overlap : Z) (fullText : jsstring) (fuel : nat) :
  (0 <= overlap < size)%Z ->
  (length fullText < fuel)%nat ->
  exists chunks,
    chunkText fuel size overlap fullText = Some chunks
    /\ Forall (fun c => (len c <= size)%Z /\ trim c <> []) chunks
    /\ (length chunks <= windowCount size overlap fullText)%nat.
Proof.
  intros Hc Hfuel. unfold chunkText.
  rewrite rawChunksLoop_windows by assumption. eexists. split; [reflexivity|]. split.
  - rewrite Forall_forall. intros c Hin. apply filter_In in Hin.
    destruct Hin as [Hin Hne]. apply in_map_iff in Hin.
    destruct Hin as (j & <- & _). split.
    + rewrite windowAt_len by assumption. lia.
    + unfold nonEmpty in Hne. intros E. rewrite E in Hne. discriminate.
  - etransitivity; [apply filter_length_le|]. now rewrite length_map, length_seq.
Qed.

(** X10. Consecutive windows share [overlap] code units: what a window holds
    after its first [size - overlap] code units is what the next window
    starts with. *)
Theorem consecutive_windows_overlap (size overlap : Z) (fullText : jsstring)
    (fuel : nat) (rawChunks : list jsstring) (j : nat) (this next : jsstring) :
  (0 <= overlap < size)%Z ->
  (length fullText < fuel)%nat ->
  rawChunksLoop fuel size overlap fullText 0 [] = Some rawChunks ->
  nth_error rawChunks j = Some this ->
  nth_error rawChunks (S j) = Some next ->
  skipn (Z.to_nat (size - overlap)) this = firstn (Z.to_nat overlap) next.
Proof.
  intros Hc Hfuel Hraw Hthis Hnext.
  rewrite rawChunksLoop_windows in Hraw by assumption. injection Hraw as <-.
  rewrite nth_error_map in Hthis, Hnext.
  destruct (nth_error (seq 0 _) j) as [a|] eqn:Ha; [|discriminate].
  destruct (nth_error (seq 0 _) (S j)) as [b|] eqn:Hb; [|discriminate].
  apply nth_error_In in Ha as Hina. apply nth_error_In in Hb as Hinb.
  apply in_seq in Hina, Hinb.
  rewrite nth_error_seq in Ha, Hb.
  destruct (Nat.ltb_spec j (windowCount size overlap fullText)); [|discriminate].
  destruct (Nat.ltb_spec (S j) (windowCount size overlap fullText)); [|discriminate].
  injection Ha as <-. injection Hb as <-. injection Hthis as <-. injection Hnext as <-.
  rewrite !windowAt_cut by assumption.
  rewrite skipn_firstn_comm, skipn_skipn, firstn_firstn.
  assert (0 <= Z.of_nat j * (size - overlap))%Z by nia.
  f_equal; [lia|]. f_equal. lia.
Qed.

Lemma rawChunks_are_windows_witness :
  let fullText := [104; 101; 108; 108; 111; 32; 119; 111; 114; 108; 100]%N in
  ((0 <= 1 < 4)%Z /\ (length fullText < 12)%nat)
  /\ windowCount 4 1 fullText = 4%nat
  /\ rawChunksLoop 12 4 1 fullText 0 []
     = Some (map (windowAt 4 1 fullText) (seq 0 (windowCount 4 1 fullText)))
  /\ Z.of_nat (windowCount 4 1 fullText) = ((len fullText + (4 - 1) - 1) / (4 - 1))%Z
  /\ forall j,
       (j < windowCount 4 1 fullText)%nat ->
       windowAt 4 1 fullText j
       = firstn (Z.to_nat 4) (skipn (j * Z.to_nat (4 - 1)) fullText)
       /\ len (windowAt 4 1 fullText j)
          = Z.min 4 (len fullText - Z.of_nat j * (4 - 1))
       /\ (0 < len (windowAt 4 1 fullText j))%Z.
Proof.
  split; [|split].
  - split; [lia | simpl; lia].
  - reflexivity.
  - apply rawChunks_are_windows; [lia | simpl; lia].
Defined.

Lemma chunks_are_bounded_witness :
  let fullText := [97; 98; 32; 32; 32; 32; 32; 32; 99; 100]%N in
  ((0 <= 1 < 4)%Z /\ (length fullText < 11)%nat)
  /\ exists chunks,
       chunkText 11 4 1 fullText = Some chunks
       /\ Forall (fun c => (len c <= 4)%Z /\ trim c <> []) chunks
       /\ (length chunks <= windowCount 4 1 fullText)%nat.
Proof.
  split.
  - split; [lia | simpl; lia].
  - apply chunks_are_bounded; [lia | simpl; lia].
Defined.

Lemma consecutive_windows_overlap_witness :
  let fullText := [104; 101; 108; 108; 111; 32; 119; 111; 114; 108; 100]%N in
  ((0 <= 1 < 4)%Z /\ (length fullText < 12)%nat
   /\ rawChunksLoop 12 4 1 fullText 0 []
      = Some [[104; 101; 108; 108]; [108; 111; 32; 119]; [119; 111; 114; 108];
              [108; 100]]%N
   /\ nth_error [[104; 101; 108; 108]; [108; 111; 32; 119]; [119; 111; 114; 108];
                 [108; 100]]%N 2 = Some [119; 111; 114; 108]%N
   /\ nth_error [[104; 101; 108; 108]; [108; 111; 32; 119]; [119; 111; 114; 108];
                 [108; 100]]%N 3 = Some [108; 100]%N)
  /\ skipn (Z.to_nat (4 - 1)) [119; 111; 114; 108]%N = firstn (Z.to_nat 1) [108; 100]%N.
Proof.
  split.
  - repeat split; try reflexivity; simpl; lia.
  - apply (consecutive_windows_overlap 4 1
             [104; 101; 108; 108; 111; 32; 119; 111; 114; 108; 100]%N 12
             [[104; 101; 108; 108]; [108; 111; 32; 119]; [119; 111; 114; 108];
              [108; 100]]%N 2);
      try reflexivity; simpl; lia.
Defined.

(** ** What an upload leaves behind *)

Lemma nth_error_mapi_from {A B} (f : A -> Z -> B) (l : list A) :
  forall k p x,
    nth_error (mapi_from f k l) p = Some x ->
    exists a, nth_error l p = Some a /\ x = f a (k + Z.of_nat p)%Z.
Proof.
  induction l as [|a l IH]; intros k p x H; destruct p as [|p]; simpl in H;
    try discriminate.
  - injection H as <-. exists a. split; [reflexivity|]. f_equal. lia.
  - destruct (IH _ _ _ H) as (a' & Ha & ->). exists a'. split; [assumption|].
    f_equal. lia.
Qed.

Lemma length_mapi_from {A B} (f : A -> Z -> B) (l : list A) :
  forall k, length (mapi_from f k l) = length l.
Proof. induction l as [|a l IH]; intros k; simpl; [reflexivity | now rewrite IH]. Qed.

Lemma EmbedRun_past_end (batchSize delay : Z) (api : Service) (texts : list jsstring)
    (i : Z) (w w' : World) (r : Outcome unit) :
  EmbedRun batchSize delay api texts i w r w' ->
  (len texts <= i)%Z -> r = Returned tt /\ w' = w.
Proof. intros Hrun Hi. inversion Hrun; subst; auto; lia. Qed.

Section Stored.

Variables batchSize delay : Z.
Variable api : Service.
Variable texts : list jsstring.
Hypothesis batchSize_positive : (0 < batchSize)%Z.

Lemma chunks_committed (i : Z) (embs : list (list float)) (w : World) :
  chunks (vectorDB (committed batchSize delay texts i embs w))
  = chunks (vectorDB w)
    ++ mapi (fun text index =>
               {| id := i + index; text := text;
                  embedding := nth (Z.to_nat index) embs [] |})
            (batchAt batchSize texts i).
Proof. unfold committed. destruct (i + batchSize <? len texts)%Z; reflexivity. Qed.

Lemma delays_committed (i : Z) (embs : list (list float)) (w : World) :
  delays (committed batchSize delay texts i embs w)
  = delays w ++ (if (i + batchSize <? len texts)%Z then [delay] else []).
Proof.
  unfold committed. destruct (i + batchSize <? len texts)%Z; simpl;
    [reflexivity | now rewrite app_nil_r].
Qed.

(** The segments a run from offset [i] adds: the one at position [p] has the
    identifier [i + p] and the text at that offset, and its vector is the
    one at its place in the answer to the request of its batch. *)
Lemma EmbedRun_stored (i : Z) (w w' : World) (r : Outcome unit) :
  EmbedRun batchSize delay api texts i w r w' ->
  (0 <= i)%Z ->
  exists added,
    chunks (vectorDB w') = chunks (vectorDB w) ++ added
    /\ (i + len added <= Z.max i (len texts))%Z
    /\ (r = Returned tt -> (i + len added = Z.max i (len texts))%Z)
    /\ (forall message, r = Thrown message ->
          (len added = (Z.of_nat (length (requests w')) - Z.of_nat (length (requests w)) - 1)
                       * batchSize)%Z)
    /\ forall p c,
         nth_error added p = Some c ->
         id c = (i + Z.of_nat p)%Z
         /\ nth_error texts (Z.to_nat (i + Z.of_nat p)) = Some (text c)
         /\ exists embs,
              api (length (requests w) + Z.to_nat (Z.of_nat p / batchSize))%nat
                  (batchRequest
                     (batchAt batchSize texts (i + Z.of_nat p / batchSize * batchSize)))
              = Embeddings embs
              /\ nth_error embs (Z.to_nat (Z.of_nat p mod batchSize))
                 = Some (embedding c).
Proof.
  intros Hrun.
  induction Hrun as [i w Hend | i w embs r w' Hlt Hapi Hlen Hrun IH
                    | i w embs Hlt Hapi Hlen | i w m Hlt Hapi]; intros Hi.
  - exists []. rewrite app_nil_r. unfold len in *. simpl.
    split; [reflexivity|]. split; [lia|]. split; [intros; lia|].
    split; [discriminate|]. intros [|p] c Hp; discriminate.
  - destruct IH as (added' & Hadd & Hbound & Hret & Hthr & Hat); [lia|].
    rewrite chunks_committed in Hadd. rewrite requests_committed in Hthr, Hat.
    rewrite length_app in Hthr, Hat. simpl length in Hthr, Hat.
    set (batch := batchAt batchSize texts i) in *.
    set (new := mapi _ batch) in *.
    assert (len batch = Z.min batchSize (len texts - i)) as Hb.
    { unfold batch, batchAt. rewrite slice_window_len; lia. }
    assert (length new = length batch) as Hnew by apply length_mapi_from.
    assert ((i + batchSize < len texts)%Z \/ added' = []) as Hcase.
    { destruct (Z.lt_ge_cases (i + batchSize) (len texts)) as [H|H]; [now left|right].
      destruct (EmbedRun_past_end _ _ _ _ _ _ _ _ Hrun H) as [_ ->].
      rewrite chunks_committed in Hadd. fold batch new in Hadd.
      rewrite <- (app_nil_r (_ ++ new)) in Hadd at 1.
      now apply app_inv_head in Hadd. }
    exists (new ++ added'). rewrite Hadd, <- app_assoc.
    split; [reflexivity|].
    assert (len (new ++ added') = len batch + len added')%Z as Hlenadd.
    { unfold len. rewrite length_app, Hnew. lia. }
    assert ((i + batchSize < len texts)%Z \/ len added' = 0%Z) as Hnum.
    { destruct Hcase as [H| ->]; [now left | now right]. }
    split; [|split; [|split]].
    + lia.
    + intros ->. specialize (Hret eq_refl). lia.
    + intros message ->. specialize (Hthr message eq_refl).
      destruct (Z.lt_ge_cases (i + batchSize) (len texts)) as [H|H]; [lia|].
      destruct (EmbedRun_past_end _ _ _ _ _ _ _ _ Hrun H) as [Habs _]. discriminate.
    + intros p c Hp.
      destruct (Nat.lt_ge_cases p (length new)) as [Hin|Hout].
      * rewrite nth_error_app1 in Hp by assumption.
        apply nth_error_mapi_from in Hp. destruct Hp as (t & Ht & ->).
        cbn [id text embedding]. rewrite Z.add_0_l.
        assert (0 <= Z.of_nat p < batchSize)%Z as Hsmall.
        { unfold len in Hb. lia. }
        rewrite Z.div_small, Z.mod_small by assumption.
        split; [reflexivity|]. split.
        -- unfold batch, batchAt in Ht. rewrite slice_window in Ht by lia.
           rewrite nth_error_firstn in Ht.
           destruct (Nat.ltb_spec p (Z.to_nat batchSize)); [|discriminate].
           rewrite nth_error_skipn in Ht. rewrite <- Ht. f_equal. lia.
        -- exists embs. rewrite Nat.add_0_r, Z.mul_0_l, Z.add_0_r. split; [exact Hapi|].
           rewrite Nat2Z.id. apply nth_error_nth'. unfold len in Hlen. lia.
      * rewrite nth_error_app2 in Hp by assumption.
        destruct Hcase as [Hfull | ->]; [|destruct (p - length new)%nat; discriminate].
        assert (length new = Z.to_nat batchSize) as Hnb by (unfold len in *; lia).
        destruct (Hat _ _ Hp) as (Hid & Htext & embs' & Hapi' & Hemb').
        assert (Z.of_nat p = Z.of_nat (p - length new) + 1 * batchSize)%Z as Hp' by lia.
        rewrite Hp', Z.div_add, Z.mod_add by lia.
        split; [lia|]. split.
        -- rewrite <- Htext. f_equal. lia.
        -- exists embs'. split; [|exact Hemb'].
           rewrite <- Hapi'. f_equal; [|do 2 f_equal]; try lia.
           pose proof (Z.div_pos (Z.of_nat (p - length new)) batchSize). lia.
  - exists []. rewrite app_nil_r. cbn [sent vectorDB requests]. rewrite length_app.
    unfold len. simpl.
    split; [reflexivity|]. split; [lia|]. split; [discriminate|].
    split; [intros; lia|]. intros [|p] c Hp; discriminate.
  - exists []. rewrite app_nil_r. cbn [sent vectorDB requests]. rewrite length_app.
    unfold len. simpl.
    split; [reflexivity|]. split; [lia|]. split; [discriminate|].
    split; [intros; lia|]. intros [|p] c Hp; discriminate.
Qed.

End Stored.

Section Pauses.

Variables batchSize delay : Z.
Variable api : Service.
Variable texts : list jsstring.

(** A run awaits the delay once before each of its requests but the
    first. *)
Lemma EmbedRun_delays (i : Z) (w w' : World) (r : Outcome unit) :
  EmbedRun batchSize delay api texts i w r w' ->
  delays w' = delays w
              ++ repeat delay (pred (length (requests w') - length (requests w)))
  /\ ((i < len texts)%Z -> (length (requests w) < length (requests w'))%nat)
  /\ ((len texts <= i)%Z -> requests w' = requests w).
Proof.
  induction 1 as [i w Hend | i w embs r w' Hlt Hapi Hlen Hrun IH
                 | i w embs Hlt Hapi Hlen | i w m Hlt Hapi].
  - rewrite Nat.sub_diag. simpl. rewrite app_nil_r.
    split; [reflexivity|]. split; [lia | reflexivity].
  - destruct IH as (Hd & Hmore & Hsame).
    rewrite requests_committed in Hd, Hmore, Hsame.
    rewrite delays_committed in Hd. rewrite length_app in Hd, Hmore. simpl length in *.
    split; [|split; [|lia]].
    + rewrite Hd, <- app_assoc. f_equal.
      destruct (Z.ltb_spec (i + batchSize) (len texts)) as [Hnext|Hnext].
      * specialize (Hmore Hnext).
        replace (pred (length (requests w') - length (requests w)))
          with (S (pred (length (requests w') - (length (requests w) + 1)))) by lia.
        reflexivity.
      * rewrite (Hsame Hnext), length_app. simpl length.
        replace (length (requests w) + 1 - (length (requests w) + 1))%nat with 0%nat by lia.
        replace (length (requests w) + 1 - length (requests w))%nat with 1%nat by lia.
        reflexivity.
    + intros _. destruct (Z.ltb_spec (i + batchSize) (len texts)) as [Hnext|Hnext].
      * specialize (Hmore Hnext). lia.
      * rewrite (Hsame Hnext), length_app. simpl. lia.
  - cbn [sent delays requests]. rewrite length_app. simpl length.
    replace (length (requests w) + 1 - length (requests w))%nat with 1%nat by lia.
    simpl. rewrite app_nil_r. repeat split; lia.
  - cbn [sent delays requests]. rewrite length_app. simpl length.
    replace (length (requests w) + 1 - length (requests w))%nat with 1%nat by lia.
    simpl. rewrite app_nil_r. repeat split; lia.
Qed.

End Pauses.

Lemma pagesReported_delays (numPages : Z) (pages : list Page) :
  forall i w, delays (pagesReported numPages pages i w) = delays w.
Proof.
  induction pages as [|page pages IH]; intros i w; simpl; [reflexivity|].
  now rewrite IH.
Qed.

Lemma concluded_delays (r : Outcome unit) (w : World) :
  delays (concluded r w) = delays w.
Proof. destruct r; reflexivity. Qed.

Lemma concluded_state (r : Outcome unit) (w : World) :
  match r with
  | Returned _ => appState (concluded r w) = READY
  | Thrown _ => appState (concluded r w) = ERROR
  | Pending => True
  end.
Proof. destruct r; reflexivity || exact I. Qed.

(** X13. Between the batch requests of an upload the handler awaits the
    delay: once before every request but the first, whether the upload ends
    in [READY] or in [ERROR], and not after the last. *)
Theorem upload_pauses_between_batches (size overlap batchSize delay : Z) (fuel : nat)
    (api : Service) (pages : list Page) (w : World) :
  (0 <= overlap < size)%Z -> (0 < batchSize)%Z ->
  (length (extractText pages) < fuel)%nat ->
  exists w',
    handleFileChangeWith size overlap batchSize delay fuel api pages w
    = (Returned tt, w')
    /\ delays w'
       = delays w ++ repeat delay (pred (length (requests w') - length (requests w))).
Proof.
  intros Hc Hb Hfuel.
  destruct (handleFileChangeWith_runs size overlap batchSize delay fuel api pages w
              Hc Hb Hfuel) as (raw & r & wl & Hraw & Hrun & Hrun').
  exists (concluded r wl). split; [exact Hrun'|].
  destruct (EmbedRun_delays _ _ _ _ _ _ _ _ Hrun) as (Hd & _ & _).
  destruct (prepared_frame pages w) as [_ Hreq].
  destruct (concluded_frame r wl) as [_ Hreq'].
  rewrite concluded_delays, Hreq', Hd, Hreq. unfold prepared.
  now rewrite pagesReported_delays.
Qed.

Lemma vectorDB_committed (batchSize delay : Z) (texts : list jsstring) (i : Z)
    (embs : list (list float)) (w : World) :
  vectorDB (committed batchSize delay texts i embs w)
  = {| chunks :=
         chunks (vectorDB w)
         ++ mapi (fun text index =>
                    {| id := i + index; text := text;
                       embedding := nth (Z.to_nat index) embs [] |})
                 (batchAt batchSize texts i) |}.
Proof. unfold committed. destruct (i + batchSize <? len texts)%Z; reflexivity. Qed.

(** Two runs of the embedding loop from the same offset, over the same
    index and after the same number of requests, go the same way. *)
Lemma EmbedRun_agree (batchSize delay : Z) (api : Service) (texts : list jsstring)
    (i : Z) (w1 w1' : World) (r1 : Outcome unit) :
  EmbedRun batchSize delay api texts i w1 r1 w1' ->
  forall w2 w2' r2,
    EmbedRun batchSize delay api texts i w2 r2 w2' ->
    vectorDB w1 = vectorDB w2 ->
    length (requests w1) = length (requests w2) ->
    r1 = r2 /\ vectorDB w1' = vectorDB w2'
    /\ exists sent_now,
         requests w1' = requests w1 ++ sent_now
         /\ requests w2' = requests w2 ++ sent_now.
Proof.
  induction 1 as [i w1 Hend | i w1 embs r1 w1' Hlt Hapi Hlen Hrun IH
                 | i w1 embs Hlt Hapi Hlen | i w1 m Hlt Hapi];
    intros w2 w2' r2 Hrun2 Hdb Hreq;
    inversion Hrun2 as [? ? Hend2 | ? ? embs2 ? ? Hlt2 Hapi2 Hlen2 Hrun2'
                       | ? ? embs2 Hlt2 Hapi2 Hlen2 | ? ? m2 Hlt2 Hapi2]; subst;
    try lia; rewrite <- ?Hreq in *; try congruence.
  - split; [reflexivity|]. split; [assumption|]. exists []. now rewrite !app_nil_r.
  - rewrite Hapi in Hapi2. injection Hapi2 as <-.
    destruct (IH _ _ _ Hrun2') as (Hr & Hdb' & added & Ha1 & Ha2).
    + now rewrite !vectorDB_committed, Hdb.
    + rewrite !requests_committed, !length_app. simpl. lia.
    + split; [assumption|]. split; [assumption|].
      rewrite requests_committed, <- app_assoc in Ha1, Ha2. eauto.
  - split; [reflexivity|]. split; [assumption|]. eexists. split; reflexivity.
  - rewrite Hapi in Hapi2. injection Hapi2 as <-.
    split; [reflexivity|]. split; [assumption|]. eexists. split; reflexivity.
Qed.

Lemma same_index (a b : InMemoryVectorDB) : chunks a = chunks b -> a = b.
Proof. destruct a, b. simpl. now intros ->. Qed.

(** X16. What an upload does depends on the document and on the answers of
    the service only. From two worlds in which the same number of requests
    were sent before, whatever was stored, shown, reported or awaited in
    them, the upload sends the same requests and ends with the same index,
    in the same state and with the same error. *)
Theorem upload_depends_on_the_document (size overlap batchSize delay : Z) (fuel : nat)
    (api : Service) (pages : list Page) (w1 w2 : World) :
  (0 <= overlap < size)%Z -> (0 < batchSize)%Z ->
  (length (extractText pages) < fuel)%nat ->
  length (requests w1) = length (requests w2) ->
  exists w1' w2' sent_now,
    handleFileChangeWith size overlap batchSize delay fuel api pages w1
    = (Returned tt, w1')
    /\ handleFileChangeWith size overlap batchSize delay fuel api pages w2
       = (Returned tt, w2')
    /\ vectorDB w1' = vectorDB w2'
    /\ appState w1' = appState w2'
    /\ error w1' = error w2'
    /\ requests w1' = requests w1 ++ sent_now
    /\ requests w2' = requests w2 ++ sent_now.
Proof.
  intros Hc Hb Hfuel Hreq.
  destruct (handleFileChangeWith_runs size overlap batchSize delay fuel api pages w1
              Hc Hb Hfuel) as (raw1 & r1 & wl1 & Hraw1 & Hrun1 & Hres1).
  destruct (handleFileChangeWith_runs size overlap batchSize delay fuel api pages w2
              Hc Hb Hfuel) as (raw2 & r2 & wl2 & Hraw2 & Hrun2 & Hres2).
  rewrite Hraw1 in Hraw2. injection Hraw2 as <-.
  destruct (prepared_frame pages w1) as [Hempty1 Hreq1].
  destruct (prepared_frame pages w2) as [Hempty2 Hreq2].
  destruct (EmbedRun_agree _ _ _ _ _ _ _ _ Hrun1 _ _ _ Hrun2)
    as (<- & Hdb & sent_now & Hs1 & Hs2).
  { apply same_index. now rewrite Hempty1, Hempty2. }
  { now rewrite Hreq1, Hreq2. }
  assert (forall w wl, EmbedRun batchSize delay api (filter nonEmpty raw1) 0
                         (prepared pages w) r1 wl -> error wl = None) as Hnone.
  { intros w wl Hrun. destruct (EmbedRun_frame _ _ _ _ _ _ _ _ Hrun) as (-> & _).
    unfold prepared.
    destruct (pagesReported_state (len pages) pages 1
      (reported {| percentage := 0; message := ReadingPDF |}
         (withVectorDB {| chunks := [] |} (inState PROCESSING (withError None w)))))
      as [-> _].
    reflexivity. }
  exists (concluded r1 wl1), (concluded r1 wl2), sent_now.
  split; [assumption|]. split; [assumption|].
  destruct (concluded_frame r1 wl1) as [-> ->], (concluded_frame r1 wl2) as [-> ->].
  rewrite Hs1, Hs2, Hreq1, Hreq2. split; [assumption|].
  pose proof (EmbedRun_ends _ _ _ _ _ _ _ _ Hrun1) as Hend.
  destruct r1 as [[]|message|]; [| |contradiction]; cbn [concluded inState withError
    reported appState error]; repeat split; auto.
  now rewrite (Hnone _ _ Hrun1), (Hnone _ _ Hrun2).
Qed.

Lemma upload_depends_on_the_document_witness :
  ((0 <= 1 < 4)%Z /\ (0 < 2)%Z /\ (length (extractText [ten_letters]) < 12)%nat
   /\ length (requests fresh)
      = length (requests (withVectorDB {| chunks := [odd_one] |}
                            (inState ERROR (withError (Some "old"%string) fresh)))))
  /\ exists w1' w2' sent_now,
       handleFileChangeWith 4 1 2 1000 12 steady_service [ten_letters] fresh
       = (Returned tt, w1')
       /\ handleFileChangeWith 4 1 2 1000 12 steady_service [ten_letters]
            (withVectorDB {| chunks := [odd_one] |}
               (inState ERROR (withError (Some "old"%string) fresh)))
          = (Returned tt, w2')
       /\ vectorDB w1' = vectorDB w2'
       /\ appState w1' = appState w2'
       /\ error w1' = error w2'
       /\ requests w1' = requests fresh ++ sent_now
       /\ requests w2'
          = requests (withVectorDB {| chunks := [odd_one] |}
                        (inState ERROR (withError (Some "old"%string) fresh)))
            ++ sent_now.
Proof.
  split.
  - repeat split; simpl; lia.
  - apply upload_depends_on_the_document; simpl; lia.
Defined.

(** What an upload leaves in the index, position by position. *)
Lemma upload_stored (size overlap batchSize delay : Z) (fuel : nat)
    (api : Service) (pages : list Page) (w : World) :
  (0 <= overlap < size)%Z -> (0 < batchSize)%Z ->
  (length (extractText pages) < fuel)%nat ->
  exists texts w',
    chunkText fuel size overlap (extractText pages) = Some texts
    /\ handleFileChangeWith size overlap batchSize delay fuel api pages w
       = (Returned tt, w')
    /\ (appState w' = READY \/ appState w' = ERROR)
    /\ (len (chunks (vectorDB w')) <= len texts)%Z
    /\ (appState w' = READY -> len (chunks (vectorDB w')) = len texts)
    /\ (appState w' = ERROR ->
        (len (chunks (vectorDB w'))
         = (Z.of_nat (length (requests w')) - Z.of_nat (length (requests w)) - 1)
           * batchSize)%Z)
    /\ forall p c,
         nth_error (chunks (vectorDB w')) p = Some c ->
         id c = Z.of_nat p
         /\ nth_error texts p = Some (text c)
         /\ exists embs,
              api (length (requests w) + Z.to_nat (Z.of_nat p / batchSize))%nat
                  (batchRequest
                     (batchAt batchSize texts (Z.of_nat p / batchSize * batchSize)))
              = Embeddings embs
              /\ nth_error embs (Z.to_nat (Z.of_nat p mod batchSize))
                 = Some (embedding c).
Proof.
  intros Hc Hb Hfuel.
  destruct (handleFileChangeWith_runs size overlap batchSize delay fuel api pages w
              Hc Hb Hfuel) as (raw & r & wl & Hraw & Hrun & Hrun').
  exists (filter nonEmpty raw), (concluded r wl).
  split; [unfold chunkText; now rewrite Hraw|]. split; [exact Hrun'|].
  destruct (EmbedRun_stored _ _ _ _ Hb _ _ _ _ Hrun (Z.le_refl 0))
    as (added & Hadd & Hbound & Hret & Hthr & Hat).
  destruct (prepared_frame pages w) as [Hempty Hreq].
  destruct (concluded_frame r wl) as [Hdb Hreq'].
  rewrite Hempty in Hadd. simpl in Hadd. rewrite Hreq in *. rewrite Hdb, Hreq', Hadd.
  pose proof (len_nonneg (filter nonEmpty raw)) as Hpos.
  pose proof (concluded_state r wl) as Hstate.
  pose proof (EmbedRun_ends _ _ _ _ _ _ _ _ Hrun) as Hend.
  split; [destruct r as [[]| |]; [now left | now right | contradiction]|].
  split; [lia|]. split; [|split].
  - intros Hready. destruct r as [[]| |]; [|congruence|contradiction].
    specialize (Hret eq_refl). lia.
  - intros Herror. destruct r as [|message|]; [congruence| |contradiction].
    exact (Hthr message eq_refl).
  - intros p c Hp. destruct (Hat p c Hp) as (Hid & Htext & embs & Hapi & Hemb).
    rewrite !Z.add_0_l in *. rewrite Nat2Z.id in Htext.
    split; [assumption|]. split; [assumption|]. now exists embs.
Qed.

(** X11. After an upload, in state [READY] or [ERROR], the segment stored at
    position [p] has the identifier [p] and the text of chunk [p] of the
    document: identifiers run from 0 without a gap, in the order of the
    text. A [READY] upload stored every chunk; a failed one stored the
    batches sent before the failing request, whole. *)
Theorem stored_segments_follow_the_text (size overlap batchSize delay : Z) (fuel : nat)
    (api : Service) (pages : list Page) (w : World) :
  (0 <= overlap < size)%Z -> (0 < batchSize)%Z ->
  (length (extractText pages) < fuel)%nat ->
  exists texts w',
    chunkText fuel size overlap (extractText pages) = Some texts
    /\ handleFileChangeWith size overlap batchSize delay fuel api pages w
       = (Returned tt, w')
    /\ (appState w' = READY \/ appState w' = ERROR)
    /\ (forall p c,
          nth_error (chunks (vectorDB w')) p = Some c ->
          id c = Z.of_nat p /\ nth_error texts p = Some (text c))
    /\ (appState w' = READY -> length (chunks (vectorDB w')) = length texts)
    /\ (appState w' = ERROR ->
        (len (chunks (vectorDB w'))
         = (Z.of_nat (length (requests w')) - Z.of_nat (length (requests w)) - 1)
           * batchSize)%Z).
Proof.
  intros Hc Hb Hfuel.
  destruct (upload_stored size overlap batchSize delay fuel api pages w Hc Hb Hfuel)
    as (texts & w' & Htexts & Hrun & Hstate & _ & Hready & Herror & Hat).
  exists texts, w'. repeat split; auto.
  - now destruct (Hat p c H) as [? _].
  - now destruct (Hat p c H) as (_ & ? & _).
  - intros Hr. specialize (Hready Hr). unfold len in Hready. lia.
Qed.

(** X12. The vector of a stored segment is the one the service returned for
    its text: the segment at position [p] carries the vector at place
    [p mod B] of the answer to the request number [p / B] of the upload,
    which was the request for the batch cut at offset [(p / B) * B]. *)
Theorem stored_vectors_are_the_answers (size overlap batchSize delay : Z) (fuel : nat)
    (api : Service) (pages : list Page) (w : World) :
  (0 <= overlap < size)%Z -> (0 < batchSize)%Z ->
  (length (extractText pages) < fuel)%nat ->
  exists texts w',
    chunkText fuel size overlap (extractText pages) = Some texts
    /\ handleFileChangeWith size overlap batchSize delay fuel api pages w
       = (Returned tt, w')
    /\ forall p c,
         nth_error (chunks (vectorDB w')) p = Some c ->
         exists embs,
           api (length (requests w) + Z.to_nat (Z.of_nat p / batchSize))%nat
               (batchRequest
                  (batchAt batchSize texts (Z.of_nat p / batchSize * batchSize)))
           = Embeddings embs
           /\ nth_error embs (Z.to_nat (Z.of_nat p mod batchSize))
              = Some (embedding c).
Proof.
  intros Hc Hb Hfuel.
  destruct (upload_stored size overlap batchSize delay fuel api pages w Hc Hb Hfuel)
    as (texts & w' & Htexts & Hrun & _ & _ & _ & _ & Hat).
  exists texts, w'. split; [assumption|]. split; [assumption|].
  intros p c Hp. now destruct (Hat p c Hp) as (_ & _ & ?).
Qed.

Lemma EmbedRun_succeeds (batchSize delay : Z) (api : Service) (texts : list jsstring)
    (i : Z) (w w' : World) (r : Outcome unit) :
  answers_in_kind api ->
  EmbedRun batchSize delay api texts i w r w' -> r = Returned tt.
Proof.
  intros Hkind.
  induction 1 as [i w Hend | i w embs r w' Hlt Hapi Hlen Hrun IH
                 | i w embs Hlt Hapi Hlen | i w m Hlt Hapi]; auto.
  - destruct (Hkind (length (requests w)) (batchAt batchSize texts i))
      as (embs' & Hapi' & Hlen').
    rewrite Hapi in Hapi'. injection Hapi' as <-. contradiction.
  - destruct (Hkind (length (requests w)) (batchAt batchSize texts i))
      as (embs' & Hapi' & _).
    rewrite Hapi in Hapi'. discriminate.
Qed.

Lemma steady_service_answers_in_kind : answers_in_kind steady_service.
Proof.
  intros n batch. exists (map (fun _ => [1; 0]%float) batch).
  split; [reflexivity|]. unfold len. now rewrite length_map.
Qed.

(** X14. When the service answers every batch request with as many vectors
    as texts, the upload ends in state [READY], without an error, its last
    progress report the completion at 100, and every chunk stored. *)
Theorem upload_succeeds (size overlap batchSize delay : Z) (fuel : nat)
    (api : Service) (pages : list Page) (w : World) :
  (0 <= overlap < size)%Z -> (0 < batchSize)%Z ->
  (length (extractText pages) < fuel)%nat ->
  answers_in_kind api ->
  exists texts w' before,
    chunkText fuel size overlap (extractText pages) = Some texts
    /\ handleFileChangeWith size overlap batchSize delay fuel api pages w
       = (Returned tt, w')
    /\ appState w' = READY /\ error w' = None
    /\ progress w' = before ++ [{| percentage := 100; message := ProcessingComplete |}]
    /\ map text (chunks (vectorDB w')) = texts.
Proof.
  intros Hc Hb Hfuel Hkind.
  destruct (upload_stored size overlap batchSize delay fuel api pages w Hc Hb Hfuel)
    as (texts & w' & Htexts & Hrun & _ & _ & Hready & _ & Hat).
  destruct (handleFileChangeWith_runs size overlap batchSize delay fuel api pages w
              Hc Hb Hfuel) as (raw & r & wl & Hraw & Hembed & Hrun').
  rewrite Hrun' in Hrun. injection Hrun as <-.
  rewrite (EmbedRun_succeeds _ _ _ _ _ _ _ _ Hkind Hembed) in *.
  exists texts, (concluded (Returned tt) wl), (progress wl).
  split; [assumption|]. split; [assumption|]. split; [reflexivity|].
  split; [|split; [reflexivity|]].
  - cbn [concluded inState error reported].
    destruct (EmbedRun_frame _ _ _ _ _ _ _ _ Hembed) as (-> & _).
    unfold prepared.
    destruct (pagesReported_state (len pages) pages 1
      (reported {| percentage := 0; message := ReadingPDF |}
         (withVectorDB {| chunks := [] |} (inState PROCESSING (withError None w)))))
      as [-> _].
    reflexivity.
  - specialize (Hready eq_refl).
    set (stored := chunks (vectorDB (concluded (Returned tt) wl))) in *.
    assert (length stored = length texts) as Hlen by (unfold len in Hready; lia).
    apply nth_error_ext. intros p. rewrite nth_error_map.
    destruct (nth_error stored p) as [c|] eqn:Hp.
    + destruct (Hat p c Hp) as (_ & -> & _). reflexivity.
    + apply nth_error_None in Hp. symmetry. apply nth_error_None. lia.
Qed.

Lemma upload_succeeds_witness :
  ((0 <= 1 < 4)%Z /\ (0 < 2)%Z /\ (length (extractText [ten_letters]) < 12)%nat
   /\ answers_in_kind steady_service)
  /\ exists texts w' before,
       chunkText 12 4 1 (extractText [ten_letters]) = Some texts
       /\ handleFileChangeWith 4 1 2 1000 12 steady_service [ten_letters] fresh
          = (Returned tt, w')
       /\ appState w' = READY /\ error w' = None
       /\ progress w' = before ++ [{| percentage := 100; message := ProcessingComplete |}]
       /\ map text (chunks (vectorDB w')) = texts.
Proof.
  split.
  - repeat split; try (simpl; lia). apply steady_service_answers_in_kind.
  - apply upload_succeeds; try (simpl; lia). apply steady_service_answers_in_kind.
Defined.

(** X15. A document none of whose windows has text, a scanned page for one,
    is uploaded without a request to the embedding service: the upload ends
    in state [READY] with an index that is empty, is not ready, and answers
    every search with no segment. *)
Theorem blank_document_is_ready (size overlap batchSize delay : Z) (fuel : nat)
    (api : Service) (pages : list Page) (w : World) :
  chunkText fuel size overlap (extractText pages) = Some [] ->
  exists w',
    handleFileChangeWith size overlap batchSize delay fuel api pages w
    = (Returned tt, w')
    /\ appState w' = READY
    /\ requests w' = requests w
    /\ chunks (vectorDB w') = []
    /\ fst (isReady (vectorDB w')) = false
    /\ forall q k, fst (search q k (vectorDB w')) = [].
Proof.
  intros Hblank.
  exists (concluded (Returned tt) (prepared pages w)).
  destruct (prepared_frame pages w) as [Hempty Hreq].
  assert (chunks (vectorDB (concluded (Returned tt) (prepared pages w))) = []) as Hnone
    by exact Hempty.
  split; [|split; [reflexivity|]; split; [exact Hreq|]; split; [exact Hnone|]; split].
  - unfold handleFileChangeWith, App.bind at 1 2 3, setError, setAppState, onVectorDB.
    cbn [reset set_chunks fst snd]. unfold try_catch, App.bind at 1 2, setProgress.
    rewrite readPages_reports. cbn [app]. rewrite Hblank.
    unfold App.bind at 1, App.ret at 1. fold (prepared pages w).
    destruct fuel; reflexivity.
  - unfold isReady, VectorDb.bind, VectorDb.ret, get_chunks. cbn [fst].
    now rewrite Hnone.
  - intros q k. unfold search, VectorDb.bind, VectorDb.ret, get_chunks.
    now rewrite Hnone.
Qed.

Lemma blank_document_is_ready_witness :
  chunkText 2 CHUNK_SIZE CHUNK_OVERLAP (extractText [[]]) = Some []
  /\ exists w',
       handleFileChangeWith CHUNK_SIZE CHUNK_OVERLAP API_BATCH_SIZE BATCH_DELAY_MS 2
         steady_service [[]] fresh
       = (Returned tt, w')
       /\ appState w' = READY
       /\ requests w' = requests fresh
       /\ chunks (vectorDB w') = []
       /\ fst (isReady (vectorDB w')) = false
       /\ forall q k, fst (search q k (vectorDB w')) = [].
Proof.
  split; [vm_compute; reflexivity|].
  apply blank_document_is_ready. vm_compute. reflexivity.
Defined.

Lemma upload_pauses_between_batches_witness :
  ((0 <= 1 < 4)%Z /\ (0 < 2)%Z /\ (length (extractText [ten_letters]) < 12)%nat)
  /\ delays (snd (handleFileChangeWith 4 1 2 1000 12 steady_service [ten_letters] fresh))
     = [1000%Z]
  /\ exists w',
       handleFileChangeWith 4 1 2 1000 12 steady_service [ten_letters] fresh
       = (Returned tt, w')
       /\ delays w'
          = delays fresh
            ++ repeat 1000%Z (pred (length (requests w') - length (requests fresh))).
Proof.
  split; [|split].
  - repeat split; simpl; lia.
  - vm_compute. reflexivity.
  - apply upload_pauses_between_batches; simpl; lia.
Defined.

Lemma stored_segments_follow_the_text_witness :
  ((0 <= 1 < 4)%Z /\ (0 < 2)%Z /\ (length (extractText [ten_letters]) < 12)%nat)
  /\ map id (chunks (vectorDB (snd (handleFileChangeWith 4 1 2 1000 12 steady_service
                                      [ten_letters] fresh))))
     = [0; 1; 2; 3]%Z
  /\ exists texts w',
       chunkText 12 4 1 (extractText [ten_letters]) = Some texts
       /\ handleFileChangeWith 4 1 2 1000 12 steady_service [ten_letters] fresh
          = (Returned tt, w')
       /\ (appState w' = READY \/ appState w' = ERROR)
       /\ (forall p c,
             nth_error (chunks (vectorDB w')) p = Some c ->
             id c = Z.of_nat p /\ nth_error texts p = Some (text c))
       /\ (appState w' = READY -> length (chunks (vectorDB w')) = length texts)
       /\ (appState w' = ERROR ->
           (len (chunks (vectorDB w'))
            = (Z.of_nat (length (requests w')) - Z.of_nat (length (requests fresh)) - 1)
              * 2)%Z).
Proof.
  split; [|split].
  - repeat split; simpl; lia.
  - vm_compute. reflexivity.
  - apply stored_segments_follow_the_text; simpl; lia.
Defined.

Lemma stored_vectors_are_the_answers_witness :
  ((0 <= 1 < 4)%Z /\ (0 < 2)%Z /\ (length (extractText [ten_letters]) < 12)%nat)
  /\ exists texts w',
       chunkText 12 4 1 (extractText [ten_letters]) = Some texts
       /\ handleFileChangeWith 4 1 2 1000 12 steady_service [ten_letters] fresh
          = (Returned tt, w')
       /\ forall p c,
            nth_error (chunks (vectorDB w')) p = Some c ->
            exists embs,
              steady_service (length (requests fresh) + Z.to_nat (Z.of_nat p / 2))%nat
                (batchRequest (batchAt 2 texts (Z.of_nat p / 2 * 2)))
              = Embeddings embs
              /\ nth_error embs (Z.to_nat (Z.of_nat p mod 2)) = Some (embedding c).
Proof.
  split.
  - repeat split; simpl; lia.
  - apply stored_vectors_are_the_answers; simpl; lia.
Defined.

(** ** The chat *)

Section Chat.

Import ChatView.

Lemma mapi_from_unchanged {A} (g : A -> A) (n : Z) (l : list A) :
  forall k, (k + len l <= n)%Z ->
    mapi_from (fun x index => if (index =? n)%Z then g x else x) k l = l.
Proof.
  induction l as [|x l IH]; intros k Hk; simpl; [reflexivity|].
  unfold len in *. simpl length in Hk.
  destruct (Z.eqb_spec k n); [lia|]. rewrite IH by lia. reflexivity.
Qed.

Lemma mapi_from_app {A B} (f : A -> Z -> B) (l1 l2 : list A) :
  forall k, mapi_from f k (l1 ++ l2) = mapi_from f k l1 ++ mapi_from f (k + len l1) l2.
Proof.
  induction l1 as [|x l1 IH]; intros k; simpl.
  - unfold len. simpl. now rewrite Z.add_0_r.
  - rewrite IH. do 3 f_equal. unfold len. simpl length. lia.
Qed.

Lemma appendToLast_last (chunkText : option jsstring) (before : list ChatMessage)
    (last : ChatMessage) :
  appendToLast chunkText (before ++ [last])
  = before ++ [{| role := role last; content := plus (content last) chunkText |}].
Proof.
  unfold appendToLast, mapi. rewrite mapi_from_app.
  assert (len (before ++ [last]) - 1 = len before)%Z as ->.
  { unfold len. rewrite length_app. simpl. lia. }
  rewrite mapi_from_unchanged by lia. simpl. now rewrite Z.eqb_refl.
Qed.

Lemma streamed_cons (chunk : option jsstring) (chunks : list (option jsstring)) :
  streamed (chunk :: chunks) = plus [] chunk ++ streamed chunks.
Proof. reflexivity. Qed.

Lemma plus_assoc (acc : jsstring) (chunk : option jsstring) :
  plus acc chunk = acc ++ plus [] chunk.
Proof. reflexivity. Qed.

(** The stream loop appends what the stream delivers to the last message,
    and ends as the stream ends. *)
Lemma streamLoop_appends (failure : option Caught) (chunks : list (option jsstring)) :
  forall (s : State) (before : list ChatMessage) (r : Role) (acc : jsstring),
    messages s = before ++ [{| role := r; content := acc |}] ->
    streamLoop chunks failure s
    = (match failure with Some e => Raised e | None => Done tt end,
       {| world := world s; prompts := prompts s;
          messages := before ++ [{| role := r; content := acc ++ streamed chunks |}];
          input := input s; isLoading := isLoading s |}).
Proof.
  induction chunks as [|chunk chunks IH]; intros s before r acc Hs.
  - simpl. unfold streamed. simpl. rewrite app_nil_r, <- Hs.
    destruct s, failure; reflexivity.
  - cbn [streamLoop]. unfold ChatView.bind, setMessages at 1.
    erewrite IH; [|cbn [messages]; rewrite Hs; apply appendToLast_last].
    cbn [world prompts input isLoading role content].
    rewrite streamed_cons, plus_assoc, app_assoc. reflexivity.
Qed.

Lemma retrieveContext_cases (api : Service) (question : jsstring) (w : World) :
  retrieveContext api question w
  = (match api (length (requests w)) (queryRequest question) with
     | Embeddings (q :: _) => Returned (contextFor q (vectorDB w))
     | Embeddings [] => Thrown single_failure
     | Rejected message => Thrown (handleError message "generate single embedding")
     end,
     sent (queryRequest question) w).
Proof.
  unfold retrieveContext, generateEmbedding, embedContent, App.bind. fold (queryRequest question).
  destruct (api (length (requests w)) (queryRequest question)) as [[|q others]|message];
    try reflexivity.
  unfold onVectorDB, App.ret. cbn [vectorDB sent].
  rewrite (surjective_pairing (search q 5 (vectorDB w))), search_frame_state.
  unfold contextFor. destruct w. reflexivity.
Qed.

Lemma at_index_last {A} (l : list A) (x : A) :
  at_index (l ++ [x]) (len (l ++ [x]) - 1) = Some x.
Proof.
  unfold at_index, len. rewrite length_app. simpl length.
  destruct (Z.ltb_spec (Z.of_nat (length l + 1) - 1) 0); [lia|].
  replace (Z.to_nat (Z.of_nat (length l + 1) - 1)) with (length l) by lia.
  rewrite nth_error_app2 by lia. now rewrite Nat.sub_diag.
Qed.

(** What the [catch] block shows: after the question or after text already
    streamed, a new message; in place of an empty placeholder, the error. *)
Lemma showError_after (e : Caught) (before : list ChatMessage) (last : ChatMessage) :
  showError e (before ++ [last])
  = match role last, content last with
    | assistant, [] => before ++ [{| role := assistant; content := shown e |}]
    | _, _ => before ++ [last; {| role := assistant; content := shown e |}]
    end.
Proof.
  unfold showError. rewrite at_index_last. fold (shown e).
  assert (firstn (Z.to_nat (len (before ++ [last]) - 1)) (before ++ [last]) = before) as Hcut.
  { unfold len. rewrite length_app. simpl length.
    replace (Z.to_nat (Z.of_nat (length before + 1) - 1)) with (length before + 0)%nat by lia.
    rewrite firstn_app_2. simpl. apply app_nil_r. }
  destruct last as [[] [|c cs]]; cbn [role content]; rewrite <- ?app_assoc; try reflexivity.
  now rewrite Hcut.
Qed.

Section Sending.

Variable api : Service.
Variable gen : Generator.
Variable s : State.
Hypothesis asked : trim (input s) <> [].
Hypothesis idle : isLoading s = false.

Lemma guard_passes : ((len (trim (input s)) =? 0)%Z || isLoading s) = false.
Proof.
  rewrite idle, orb_false_r. apply Z.eqb_neq. unfold len.
  destruct (trim (input s)); [contradiction | simpl; lia].
Qed.

Let question := {| role := user; content := input s |}.
Let request := queryRequest (input s).

(** The embedding of the question fails: the error is shown after the
    question, and the generative model is not called. *)
Lemma handleSendMessage_unembedded (message : string) :
  fst (retrieveContext api (input s) (world s)) = Thrown message ->
  handleSendMessage api gen s
  = (Done tt,
     {| world := sent request (world s); prompts := prompts s;
        messages := messages s ++ [question; {| role := assistant;
                                                 content := utf16 message |}];
        input := []; isLoading := false |}).
Proof.
  intros Hthrown. unfold handleSendMessage. rewrite guard_passes.
  unfold try_finally, try_catch, ChatView.bind, setMessages, setInput, setIsLoading, lift.
  cbn [world prompts messages input isLoading fst snd].
  rewrite retrieveContext_cases in Hthrown |- *. cbn [fst] in Hthrown.
  rewrite Hthrown. cbn [withWorld prompted world prompts messages input isLoading fst snd].
  rewrite showError_after. cbn [role content]. rewrite <- ?app_assoc. reflexivity.
Qed.

Variable q : list float.
Hypothesis embedded :
  fst (retrieveContext api (input s) (world s))
  = Returned (contextFor q (vectorDB (world s))).

Let prompt := promptFor (contextFor q (vectorDB (world s))) (input s).

(** The generative model rejects the prompt. *)
Lemma handleSendMessage_refused :
  gen (length (prompts s)) prompt = Refused ->
  handleSendMessage api gen s
  = (Done tt,
     {| world := sent request (world s); prompts := prompts s ++ [prompt];
        messages := messages s ++ [question; {| role := assistant;
                                                 content := utf16 answer_failure |}];
        input := []; isLoading := false |}).
Proof.
  intros Hgen. unfold handleSendMessage. rewrite guard_passes.
  unfold try_finally, try_catch, ChatView.bind, setMessages, setInput, setIsLoading, lift.
  cbn [world prompts messages input isLoading fst snd].
  rewrite retrieveContext_cases in embedded |- *. cbn [fst] in embedded.
  rewrite embedded. unfold generateAnswerStream.
  cbn [withWorld prompted world prompts messages input isLoading fst snd]. fold prompt.
  rewrite Hgen. cbn [withWorld prompted world prompts messages input isLoading fst snd].
  rewrite showError_after. cbn [role content]. rewrite <- ?app_assoc. reflexivity.
Qed.

(** The generative model answers with a stream. *)
Lemma handleSendMessage_streams (chunks : list (option jsstring))
    (failure : option Caught) :
  gen (length (prompts s)) prompt = Stream chunks failure ->
  handleSendMessage api gen s
  = (Done tt,
     {| world := sent request (world s); prompts := prompts s ++ [prompt];
        messages :=
          match failure with
          | None =>
              messages s ++ [question; {| role := assistant;
                                          content := streamed chunks |}]
          | Some e =>
              showError e
                (messages s ++ [question; {| role := assistant;
                                             content := streamed chunks |}])
          end;
        input := []; isLoading := false |}).
Proof.
  intros Hgen. unfold handleSendMessage. rewrite guard_passes.
  unfold try_finally, try_catch, ChatView.bind, setMessages at 1 2,
    setInput, setIsLoading at 1, lift.
  cbn [world prompts messages input isLoading fst snd].
  rewrite retrieveContext_cases in embedded |- *. cbn [fst] in embedded.
  rewrite embedded. unfold generateAnswerStream.
  cbn [withWorld prompted world prompts messages input isLoading fst snd]. fold prompt.
  rewrite Hgen. cbn [withWorld prompted world prompts messages input isLoading fst snd].
  erewrite (streamLoop_appends failure chunks _ (messages s ++ [question]) assistant []);
    [|cbn [withWorld prompted world prompts messages input isLoading]; reflexivity].
  cbn [world prompts messages input isLoading app].
  destruct failure as [e|]; unfold setMessages, setIsLoading;
    cbn [world prompts messages input isLoading fst snd];
    rewrite <- app_assoc; reflexivity.
Qed.

End Sending.

(** X17. A blank question, or a question sent while an answer is loading, is
    ignored: no message is added, no request is sent, nothing changes. *)
Theorem handleSendMessage_ignores (api : Service) (gen : Generator) (s : State) :
  trim (input s) = [] \/ isLoading s = true ->
  handleSendMessage api gen s = (Done tt, s).
Proof.
  intros H. unfold handleSendMessage.
  destruct H as [-> | ->]; [reflexivity | now rewrite orb_true_r].
Qed.

Lemma handleSendMessage_ignores_witness :
  (trim [32; 10]%N = [] \/ false = true)
  /\ handleSendMessage steady_service two_chunks
       {| world := fresh; prompts := []; messages := [];
          input := [32; 10]%N; isLoading := false |}
     = (Done tt,
        {| world := fresh; prompts := []; messages := [];
           input := [32; 10]%N; isLoading := false |}).
Proof.
  split; [left; reflexivity|].
  apply (handleSendMessage_ignores steady_service two_chunks
           {| world := fresh; prompts := []; messages := [];
              input := [32; 10]%N; isLoading := false |}).
  left. reflexivity.
Defined.

(** X18. A question that is embedded and answered by a stream that ends adds
    two messages: the question and the assistant's answer, which is the text
    of the chunks in the order streamed (a chunk without text reads
    [undefined]). One query request and one prompt are sent, the prompt built
    from the texts of the five best segments and the question; the input is
    cleared and the loading flag is off again. *)
Theorem handleSendMessage_answers (api : Service) (gen : Generator) (s : State)
    (q : list float) (others : list (list float)) (chunks : list (option jsstring)) :
  trim (input s) <> [] ->
  isLoading s = false ->
  api (length (requests (world s))) (queryRequest (input s)) = Embeddings (q :: others) ->
  gen (length (prompts s)) (promptFor (contextFor q (vectorDB (world s))) (input s))
  = Stream chunks None ->
  handleSendMessage api gen s
  = (Done tt,
     {| world := sent (queryRequest (input s)) (world s);
        prompts :=
          prompts s ++ [promptFor (contextFor q (vectorDB (world s))) (input s)];
        messages :=
          messages s ++ [{| role := user; content := input s |};
                         {| role := assistant; content := streamed chunks |}];
        input := []; isLoading := false |}).
Proof.
  intros Hasked Hidle Hapi Hgen.
  assert (fst (retrieveContext api (input s) (world s))
          = Returned (contextFor q (vectorDB (world s)))) as Hcontext.
  { rewrite retrieveContext_cases. cbn [fst]. now rewrite Hapi. }
  exact (handleSendMessage_streams api gen s Hasked Hidle q Hcontext chunks None Hgen).
Qed.

Lemma handleSendMessage_answers_witness :
  (trim (input asking) <> []
   /\ isLoading asking = false
   /\ steady_service (length (requests (world asking))) (queryRequest (input asking))
      = Embeddings ([1; 0]%float :: [])
   /\ two_chunks (length (prompts asking))
        (promptFor (contextFor [1; 0]%float (vectorDB (world asking))) (input asking))
      = Stream [Some [72; 105]%N; None] None)
  /\ messages (snd (handleSendMessage steady_service two_chunks asking))
     = [{| role := user; content := [104; 105]%N |};
        {| role := assistant;
           content := [72; 105; 117; 110; 100; 101; 102; 105; 110; 101; 100]%N |}].
Proof.
  split.
  - repeat split; try reflexivity. discriminate.
  - rewrite (handleSendMessage_answers steady_service two_chunks asking
               [1; 0]%float [] [Some [72; 105]%N; None]);
      try reflexivity. discriminate.
Defined.

(** X19. When the answer stream throws, the handler still returns. The error
    is shown in a message of the assistant: in place of the placeholder when
    no text had arrived, after the partial answer otherwise. The text shown
    is the message of an [Error], and an apology for any other value. *)
Theorem handleSendMessage_stream_fails (api : Service) (gen : Generator) (s : State)
    (q : list float) (others : list (list float)) (chunks : list (option jsstring))
    (e : Caught) :
  trim (input s) <> [] ->
  isLoading s = false ->
  api (length (requests (world s))) (queryRequest (input s)) = Embeddings (q :: others) ->
  gen (length (prompts s)) (promptFor (contextFor q (vectorDB (world s))) (input s))
  = Stream chunks (Some e) ->
  handleSendMessage api gen s
  = (Done tt,
     {| world := sent (queryRequest (input s)) (world s);
        prompts :=
          prompts s ++ [promptFor (contextFor q (vectorDB (world s))) (input s)];
        messages :=
          messages s
          ++ {| role := user; content := input s |}
             :: match streamed chunks with
                | [] => [{| role := assistant; content := shown e |}]
                | _ :: _ => [{| role := assistant; content := streamed chunks |};
                             {| role := assistant; content := shown e |}]
                end;
        input := []; isLoading := false |}).
Proof.
  intros Hasked Hidle Hapi Hgen.
  assert (fst (retrieveContext api (input s) (world s))
          = Returned (contextFor q (vectorDB (world s)))) as Hcontext.
  { rewrite retrieveContext_cases. cbn [fst]. now rewrite Hapi. }
  rewrite (handleSendMessage_streams api gen s Hasked Hidle q Hcontext chunks (Some e) Hgen).
  do 2 f_equal.
  change (messages s ++ [{| role := user; content := input s |};
                         {| role := assistant; content := streamed chunks |}])
    with (messages s ++ [{| role := user; content := input s |}]
          ++ [{| role := assistant; content := streamed chunks |}]).
  rewrite app_assoc, showError_after. cbn [role content].
  destruct (streamed chunks); now rewrite <- app_assoc.
Qed.

Lemma handleSendMessage_stream_fails_witness :
  (trim (input asking) <> []
   /\ isLoading asking = false
   /\ steady_service (length (requests (world asking))) (queryRequest (input asking))
      = Embeddings ([1; 0]%float :: [])
   /\ broken_stream (length (prompts asking))
        (promptFor (contextFor [1; 0]%float (vectorDB (world asking))) (input asking))
      = Stream [Some [72; 105]%N] (Some NotAnError))
  /\ messages (snd (handleSendMessage steady_service broken_stream asking))
     = [{| role := user; content := [104; 105]%N |};
        {| role := assistant; content := [72; 105]%N |};
        {| role := assistant; content := utf16 apology |}].
Proof.
  split.
  - repeat split; try reflexivity. discriminate.
  - rewrite (handleSendMessage_stream_fails steady_service broken_stream asking
               [1; 0]%float [] [Some [72; 105]%N] NotAnError);
      try reflexivity. discriminate.
Defined.

(** X20. When the question cannot be embedded, or the generative model
    rejects the prompt, the handler returns with one message of the
    assistant after the question: the quota message or the failure of a
    single embedding in the first case, where no prompt is sent, and the
    failure to get an answer in the second. *)
Theorem handleSendMessage_fails_early (api : Service) (gen : Generator) (s : State) :
  trim (input s) <> [] ->
  isLoading s = false ->
  let after (sent_prompts : list jsstring) (text : string) :=
    (Done tt,
     {| world := sent (queryRequest (input s)) (world s);
        prompts := prompts s ++ sent_prompts;
        messages := messages s ++ [{| role := user; content := input s |};
                                   {| role := assistant; content := utf16 text |}];
        input := []; isLoading := false |}) in
  (forall message,
     api (length (requests (world s))) (queryRequest (input s)) = Rejected message ->
     handleSendMessage api gen s
     = after [] (handleError message "generate single embedding"))
  /\ (api (length (requests (world s))) (queryRequest (input s)) = Embeddings [] ->
      handleSendMessage api gen s = after [] single_failure)
  /\ (forall q others,
        api (length (requests (world s))) (queryRequest (input s))
        = Embeddings (q :: others) ->
        gen (length (prompts s)) (promptFor (contextFor q (vectorDB (world s))) (input s))
        = Refused ->
        handleSendMessage api gen s
        = after [promptFor (contextFor q (vectorDB (world s))) (input s)]
                answer_failure).
Proof.
  intros Hasked Hidle after. unfold after. split; [|split].
  - intros message Hapi. rewrite app_nil_r.
    apply (handleSendMessage_unembedded api gen s Hasked Hidle).
    rewrite retrieveContext_cases. cbn [fst]. now rewrite Hapi.
  - intros Hapi. rewrite app_nil_r.
    apply (handleSendMessage_unembedded api gen s Hasked Hidle).
    rewrite retrieveContext_cases. cbn [fst]. now rewrite Hapi.
  - intros q others Hapi Hgen.
    apply (handleSendMessage_refused api gen s Hasked Hidle q); [|exact Hgen].
    rewrite retrieveContext_cases. cbn [fst]. now rewrite Hapi.
Qed.

Lemma handleSendMessage_fails_early_witness :
  (trim (input asking) <> [] /\ isLoading asking = false)
  /\ out_of_quota (length (requests (world asking))) (queryRequest (input asking))
     = Rejected "429 RESOURCE_EXHAUSTED"
  /\ handleSendMessage out_of_quota two_chunks asking
     = (Done tt,
        {| world := sent (queryRequest (input asking)) (world asking);
           prompts := [];
           messages := [{| role := user; content := [104; 105]%N |};
                        {| role := assistant; content := utf16 quota_message |}];
           input := []; isLoading := false |}).
Proof.
  split; [split; [discriminate | reflexivity]|]. split; [reflexivity|].
  refine (proj1 (handleSendMessage_fails_early out_of_quota two_chunks asking _ _)
                "429 RESOURCE_EXHAUSTED"%string eq_refl);
    [discriminate | reflexivity].
Defined.

(** X21. Whatever the two services answer, a question that is not blank,
    sent while nothing is loading, is settled: the handler returns, the input
    is cleared and the loading flag is off; the question is added to the
    messages, followed by one message of the assistant, or by two when an
    error follows a partial answer; one query request was sent and at most
    one prompt; the index is as it was. *)
Theorem handleSendMessage_settles (api : Service) (gen : Generator) (s : State) :
  trim (input s) <> [] ->
  isLoading s = false ->
  exists s' reply,
    handleSendMessage api gen s = (Done tt, s')
    /\ input s' = [] /\ isLoading s' = false
    /\ messages s' = messages s ++ {| role := user; content := input s |} :: reply
    /\ (length reply = 1 \/ length reply = 2)%nat
    /\ Forall (fun m => role m = assistant) reply
    /\ requests (world s') = requests (world s) ++ [queryRequest (input s)]
    /\ vectorDB (world s') = vectorDB (world s)
    /\ (length (prompts s') <= S (length (prompts s)))%nat.
Proof.
  intros Hasked Hidle.
  pose proof (retrieveContext_cases api (input s) (world s)) as Hcases.
  destruct (api (length (requests (world s))) (queryRequest (input s)))
    as [[|q others]|message] eqn:Hapi.
  - eexists _, [_].
    rewrite (handleSendMessage_unembedded api gen s Hasked Hidle single_failure)
      by now rewrite Hcases.
    cbn [input isLoading messages world prompts sent requests vectorDB length].
    repeat split; auto.
  - assert (fst (retrieveContext api (input s) (world s))
            = Returned (contextFor q (vectorDB (world s)))) as Hcontext
      by now rewrite Hcases.
    destruct (gen (length (prompts s))
                (promptFor (contextFor q (vectorDB (world s))) (input s)))
      as [chunks [e|]|] eqn:Hgen.
    + rewrite (handleSendMessage_streams api gen s Hasked Hidle q Hcontext _ _ Hgen).
      change (messages s ++ [{| role := user; content := input s |};
                             {| role := assistant; content := streamed chunks |}])
        with (messages s ++ [{| role := user; content := input s |}]
              ++ [{| role := assistant; content := streamed chunks |}]).
      rewrite app_assoc, showError_after. cbn [role content].
      destruct (streamed chunks) as [|c cs]; rewrite <- app_assoc.
      * eexists _, [_]. split; [reflexivity|].
        cbn [input isLoading messages world prompts sent requests vectorDB length app].
        rewrite length_app. simpl length. repeat split; auto. lia.
      * eexists _, [_; _]. split; [reflexivity|].
        cbn [input isLoading messages world prompts sent requests vectorDB length app].
        rewrite length_app. simpl length. repeat split; auto. lia.
    + rewrite (handleSendMessage_streams api gen s Hasked Hidle q Hcontext _ _ Hgen).
      eexists _, [_]. split; [reflexivity|].
      cbn [input isLoading messages world prompts sent requests vectorDB length app].
      rewrite length_app. simpl length. repeat split; auto. lia.
    + rewrite (handleSendMessage_refused api gen s Hasked Hidle q Hcontext Hgen).
      eexists _, [_]. split; [reflexivity|].
      cbn [input isLoading messages world prompts sent requests vectorDB length app].
      rewrite length_app. simpl length. repeat split; auto. lia.
  - eexists _, [_].
    rewrite (handleSendMessage_unembedded api gen s Hasked Hidle
               (handleError message "generate single embedding"))
      by now rewrite Hcases.
    cbn [input isLoading messages world prompts sent requests vectorDB length].
    repeat split; auto.
Qed.

Lemma handleSendMessage_settles_witness :
  (trim (input asking) <> [] /\ isLoading asking = false)
  /\ exists s' reply,
       handleSendMessage steady_service broken_stream asking = (Done tt, s')
       /\ input s' = [] /\ isLoading s' = false
       /\ messages s'
          = messages asking ++ {| role := user; content := input asking |} :: reply
       /\ (length reply = 1 \/ length reply = 2)%nat
       /\ Forall (fun m => role m = assistant) reply
       /\ requests (world s')
          = requests (world asking) ++ [queryRequest (input asking)]
       /\ vectorDB (world s') = vectorDB (world asking)
       /\ (length (prompts s') <= S (length (prompts asking)))%nat.
Proof.
  split; [split; [discriminate | reflexivity]|].
  apply handleSendMessage_settles; [discriminate | reflexivity].
Defined.

End Chat.
